(** * count_classifications.py: taxonomy tree, LCA and read counting

    A shallow embedding of [src/count_classifications.py].  Python integers
    are [Z]; the three tree dictionaries and the two [defaultdict(int)]
    tables are [gmap]s; a Python [set] of taxon IDs is the duplicate-free
    list of its elements in iteration order (the order is the hash
    table's business: what is proved about [find_lca] holds for every
    order, see [find_lca_order]); the [OrderedDict] of reads is an
    association list in insertion order.  The two input files enter as the
    lists of their split lines, numbers already converted.  Exceptions are
    the [Raise] outcomes; every [while] loop is bounded by a fuel argument
    and running out of it is the separate outcome [OutOfFuel].  Of
    [write_summary] only the data that decides its sanity check is kept,
    of [write_cumulative_count_table] nothing. *)

From stdpp Require Import gmap strings list fin_maps sorting.
From Stdlib Require Import ZArith Lia.
From Stdlib.Strings Require Byte.

Open Scope Z_scope.

(** ** Outcomes of a Python computation *)

Inductive exn : Set :=
  | KeyError
  | AssertionError
  | TypeError
  | StopIteration
  | ZeroDivisionError.

Inductive outcome (A : Type) : Type :=
  | Ok (a : A)
  | Raise (e : exn)
  | OutOfFuel.

Arguments Ok {A} a.
Arguments Raise {A} e.
Arguments OutOfFuel {A}.

#[global] Instance outcome_ret : MRet outcome := λ A a, Ok a.
#[global] Instance outcome_bind : MBind outcome := λ A B f m,
  match m with
  | Ok a => f a
  | Raise e => Raise e
  | OutOfFuel => OutOfFuel
  end.

(** [d[k]] on a plain dictionary. *)
Definition getitem {K V} `{Countable K} (d : gmap K V) (k : K) : outcome V :=
  match d !! k with
  | Some v => Ok v
  | None => Raise KeyError
  end.

(** [d[k]] on a [collections.defaultdict(int)], read-only view. *)
Definition getdefault {K} `{Countable K} (d : gmap K Z) (k : K) : Z :=
  default 0 (d !! k).

(** [d[k] += 1] on a [collections.defaultdict(int)]. *)
Definition incr {K} `{Countable K} (d : gmap K Z) (k : K) : gmap K Z :=
  <[k := getdefault d k + 1]> d.

(** ** get_all_ancestors *)

(** The [while tax_id != 1] loop, with the list built so far. *)
Fixpoint ancestors_loop (fuel : nat) (tax_id_to_parent : gmap Z Z)
    (tax_id : Z) (ancestors : list Z) : outcome (list Z) :=
  if decide (tax_id = 1) then Ok ancestors
  else
    match fuel with
    | O => OutOfFuel
    | S fuel' =>
        tax_id' ← getitem tax_id_to_parent tax_id;
        ancestors_loop fuel' tax_id_to_parent tax_id' (ancestors ++ [tax_id'])
    end.

Definition get_all_ancestors (fuel : nat) (tax_id : Z)
    (tax_id_to_parent : gmap Z Z) : outcome (list Z) :=
  ancestors ← ancestors_loop fuel tax_id_to_parent tax_id [tax_id];
  if decide (last ancestors = Some 1) then Ok ancestors
  else Raise AssertionError.

(** ** find_lca *)

(** The first [for] loop: intersect the ancestor sets.  An empty running
    set is replaced by the current ancestor set, as in the source. *)
Fixpoint common_loop (fuel : nat) (tax_id_to_parent : gmap Z Z)
    (tax_ids : list Z) (common_taxa : gset Z) : outcome (gset Z) :=
  match tax_ids with
  | [] => Ok common_taxa
  | tax_id :: rest =>
      ancestors ← get_all_ancestors fuel tax_id tax_id_to_parent;
      common_loop fuel tax_id_to_parent rest
        (if decide (common_taxa = ∅) then list_to_set ancestors
         else common_taxa ∩ list_to_set ancestors)
  end.

(** The second [for] loop: first ancestor in the common set. *)
Fixpoint first_common (ancestors : list Z) (common_taxa : gset Z)
    : outcome Z :=
  match ancestors with
  | [] => Raise AssertionError
  | ancestor :: rest =>
      if decide (ancestor ∈ common_taxa) then Ok ancestor
      else first_common rest common_taxa
  end.

Definition find_lca (fuel : nat) (tax_ids : list Z)
    (tax_id_to_parent : gmap Z Z) : outcome Z :=
  common_taxa ← common_loop fuel tax_id_to_parent tax_ids ∅;
  match tax_ids with
  | [] => Raise StopIteration
  | one_tax_id :: _ =>
      ancestors ← get_all_ancestors fuel one_tax_id tax_id_to_parent;
      first_common ancestors common_taxa
  end.

(** ** load_tax_info *)

(** A line of the tree file after splitting: taxon ID, parent ID and the
    lower-cased rank. *)
Definition tree_record : Type := Z * Z * string.

Definition acceptable_ranks : list string :=
  ["domain"; "phylum"; "class"; "order"; "family"; "genus"; "species"].

(** [for tax_id, parent_id, _ in tree_data: tax_id_to_parent[tax_id] = parent_id] *)
Fixpoint parent_loop (tree_data : list tree_record)
    (tax_id_to_parent : gmap Z Z) : gmap Z Z :=
  match tree_data with
  | [] => tax_id_to_parent
  | (tax_id, parent_id, _) :: rest =>
      parent_loop rest (<[tax_id := parent_id]> tax_id_to_parent)
  end.

(** The first pass over the records: raw ranks, and standard ranks of the
    nodes that carry one.  The root case is the [elif] of the source. *)
Fixpoint first_pass (tree_data : list tree_record)
    (tax_id_to_rank tax_id_to_standard_rank : gmap Z string)
    : outcome (gmap Z string * gmap Z string) :=
  match tree_data with
  | [] => Ok (tax_id_to_rank, tax_id_to_standard_rank)
  | (tax_id, parent_id, rank) :: rest =>
      let tax_id_to_rank := <[tax_id := rank]> tax_id_to_rank in
      if decide (rank ∈ acceptable_ranks) then
        first_pass rest tax_id_to_rank
          (<[tax_id := rank]> tax_id_to_standard_rank)
      else if decide (tax_id = 1) then
        if decide (tax_id = parent_id) then
          first_pass rest (<[tax_id := "root"]> tax_id_to_rank)
            (<[tax_id := "root"]> tax_id_to_standard_rank)
        else Raise AssertionError
      else first_pass rest tax_id_to_rank tax_id_to_standard_rank
  end.

(** One iteration of the first pass. *)
Definition first_pass_step (r : tree_record)
    (rk sr : gmap Z string) : outcome (gmap Z string * gmap Z string) :=
  first_pass [r] rk sr.

(** [for ancestor in ancestors: if ancestor in ...: ...; break] *)
Fixpoint inherit_loop (tax_id : Z) (ancestors : list Z)
    (tax_id_to_standard_rank : gmap Z string) : gmap Z string :=
  match ancestors with
  | [] => tax_id_to_standard_rank
  | ancestor :: rest =>
      match tax_id_to_standard_rank !! ancestor with
      | Some rank => <[tax_id := rank]> tax_id_to_standard_rank
      | None => inherit_loop tax_id rest tax_id_to_standard_rank
      end
  end.

(** The second pass, with its two assertions. *)
Fixpoint second_pass (fuel : nat) (tree_data : list tree_record)
    (tax_id_to_parent : gmap Z Z) (tax_id_to_standard_rank : gmap Z string)
    : outcome (gmap Z string) :=
  match tree_data with
  | [] => Ok tax_id_to_standard_rank
  | (tax_id, _, rank) :: rest =>
      if decide (is_Some (tax_id_to_standard_rank !! tax_id)) then
        second_pass fuel rest tax_id_to_parent tax_id_to_standard_rank
      else if decide (rank ∈ acceptable_ranks) then Raise AssertionError
      else
        ancestors ← get_all_ancestors fuel tax_id tax_id_to_parent;
        let tax_id_to_standard_rank :=
          inherit_loop tax_id ancestors tax_id_to_standard_rank in
        if decide (is_Some (tax_id_to_standard_rank !! tax_id)) then
          second_pass fuel rest tax_id_to_parent tax_id_to_standard_rank
        else Raise AssertionError
  end.

Definition load_tax_info (fuel : nat) (tree_data : list tree_record)
    : outcome (gmap Z Z * gmap Z string * gmap Z string) :=
  let tax_id_to_parent := parent_loop tree_data ∅ in
  '(tax_id_to_rank, tax_id_to_standard_rank) ←
    first_pass tree_data {[0 := "unclassified"]} {[0 := "unclassified"]};
  tax_id_to_standard_rank ←
    second_pass fuel tree_data tax_id_to_parent tax_id_to_standard_rank;
  Ok (tax_id_to_parent, tax_id_to_rank, tax_id_to_standard_rank).

(** ** load_tax_ids_per_read *)

(** A line of the classification file after splitting and [int]: read
    name, sequence ID (the reported category) and taxon ID. *)
Definition class_record : Type := string * string * Z.

(** [s.add(x)] on a set kept as the list of its elements. *)
Definition set_add (x : Z) (s : list Z) : list Z :=
  if decide (x ∈ s) then s else s ++ [x].

(** [if read_name not in d: d[read_name] = set()] followed by
    [d[read_name].add(tax_id)], on the insertion-ordered dictionary. *)
Fixpoint od_add (d : list (string * list Z)) (read_name : string)
    (tax_id : Z) : list (string * list Z) :=
  match d with
  | [] => [(read_name, set_add tax_id [])]
  | (k, s) :: rest =>
      if decide (k = read_name) then (k, set_add tax_id s) :: rest
      else (k, s) :: od_add rest read_name tax_id
  end.

Definition assert_that (P : Prop) `{Decision P} : outcome unit :=
  if decide P then Ok () else Raise AssertionError.

Fixpoint load_loop (lines : list class_record)
    (tax_ids_per_read : list (string * list Z))
    : outcome (list (string * list Z)) :=
  match lines with
  | [] => Ok tax_ids_per_read
  | (read_name, seq_id, tax_id) :: rest =>
      if decide (read_name = "readID") then load_loop rest tax_ids_per_read
      else
        let tax_id := if decide (seq_id = "no rank") then 1 else tax_id in
        _ ← (if decide (tax_id = 0)
             then assert_that (seq_id = "unclassified") else Ok ());
        load_loop rest (od_add tax_ids_per_read read_name tax_id)
  end.

Definition load_tax_ids_per_read (lines : list class_record)
    : outcome (list (string * list Z)) :=
  load_loop lines [].

(** ** add_rank_count *)

(** A line written to the per-read table. *)
Record row : Type := Row {
  row_read_name : string;
  row_tax_ids : list Z;
  row_tax_id : Z;
  row_rank : string;
  row_standard_rank : string
}.

(** [s.discard(0)] *)
Definition discard0 (tax_ids : list Z) : list Z :=
  filter (λ x, x ≠ 0) tax_ids.

(** The taxon ID chosen for a non-empty candidate set. *)
Definition resolve (fuel : nat) (tax_ids : list Z)
    (tax_id_to_parent : gmap Z Z) : outcome Z :=
  match tax_ids with
  | [tax_id] => Ok tax_id
  | _ => find_lca fuel (discard0 tax_ids) tax_id_to_parent
  end.

(** Returns [None] for Python's bare [return], else the taxon ID, together
    with the updated [count_per_rank] and the lines of [read_file]. *)
Definition add_rank_count (fuel : nat) (read_name : string)
    (count_per_rank : gmap string Z) (tax_ids : list Z)
    (tax_id_to_rank tax_id_to_standard_rank : gmap Z string)
    (tax_id_to_parent : gmap Z Z) (read_file : list row)
    : outcome (option Z * gmap string Z * list row) :=
  if decide (length tax_ids = 0%nat) then
    Ok (None, count_per_rank, read_file)
  else
    tax_id ← resolve fuel tax_ids tax_id_to_parent;
    rank ← getitem tax_id_to_rank tax_id;
    standard_rank ← getitem tax_id_to_standard_rank tax_id;
    Ok (Some tax_id, incr count_per_rank standard_rank,
        read_file ++ [Row read_name tax_ids tax_id rank standard_rank]).

(** ** main *)

(** The [while True] loop that climbs from a classified read to the root. *)
Fixpoint cumulative_loop (fuel : nat) (tax_id_to_parent : gmap Z Z)
    (tax_id : Z) (cumulative_counts_per_tax_id : gmap Z Z)
    : outcome (gmap Z Z) :=
  match fuel with
  | O => OutOfFuel
  | S fuel' =>
      let cumulative_counts_per_tax_id :=
        incr cumulative_counts_per_tax_id tax_id in
      if decide (tax_id = 1) then Ok cumulative_counts_per_tax_id
      else
        tax_id' ← getitem tax_id_to_parent tax_id;
        cumulative_loop fuel' tax_id_to_parent tax_id'
          cumulative_counts_per_tax_id
  end.

Record tables : Type := Tables {
  count_per_rank : gmap string Z;
  cumulative_counts_per_tax_id : gmap Z Z;
  read_file : list row
}.

(** The [for read_name, tax_ids in tax_ids_per_read.items()] loop.  The
    comparison [tax_id > 0] on [None] is a [TypeError]. *)
Fixpoint main_loop (fuel : nat)
    (tax_id_to_parent : gmap Z Z)
    (tax_id_to_rank tax_id_to_standard_rank : gmap Z string)
    (tax_ids_per_read : list (string * list Z)) (t : tables)
    : outcome tables :=
  match tax_ids_per_read with
  | [] => Ok t
  | (read_name, tax_ids) :: rest =>
      '(ret, cpr, rf) ←
        add_rank_count fuel read_name (count_per_rank t) tax_ids
          tax_id_to_rank tax_id_to_standard_rank tax_id_to_parent
          (read_file t);
      match ret with
      | None => Raise TypeError
      | Some tax_id =>
          cum ← (if decide (tax_id > 0)
                 then cumulative_loop fuel tax_id_to_parent tax_id
                        (cumulative_counts_per_tax_id t)
                 else Ok (cumulative_counts_per_tax_id t));
          main_loop fuel tax_id_to_parent tax_id_to_rank
            tax_id_to_standard_rank rest (Tables cpr cum rf)
      end
  end.

(** ** write_summary *)

Definition ranks : list string :=
  ["unclassified"; "root"; "domain"; "phylum"; "class"; "order"; "family";
   "genus"; "species"].

(** [sum(d.values())] *)
Definition sum_values {K} `{Countable K} (d : gmap K Z) : Z :=
  map_fold (λ _ v acc, v + acc) 0 d.

(** The taxa seen with a positive cumulative count, grouped by rank. *)
Fixpoint rank_tax_ids_loop (items : list (Z * Z))
    (tax_id_to_rank : gmap Z string) (rank_tax_ids : gmap string (gset Z))
    : outcome (gmap string (gset Z)) :=
  match items with
  | [] => Ok rank_tax_ids
  | (tax_id, count) :: rest =>
      if decide (count > 0) then
        rank ← getitem tax_id_to_rank tax_id;
        if decide (rank ∈ ranks) then
          rank_tax_ids_loop rest tax_id_to_rank
            (<[rank := {[tax_id]} ∪ default ∅ (rank_tax_ids !! rank)]>
               rank_tax_ids)
        else rank_tax_ids_loop rest tax_id_to_rank rank_tax_ids
      else rank_tax_ids_loop rest tax_id_to_rank rank_tax_ids
  end.

(** The [for rank in ranks] loop of the summary line: the counts written
    and the running [total_count].  The percentage is only modelled by
    its division by [total]. *)
Fixpoint summary_loop (rs : list string) (count_per_rank : gmap string Z)
    (total total_count : Z) (summary : list Z) : outcome (Z * list Z) :=
  match rs with
  | [] => Ok (total_count, summary)
  | rank :: rest =>
      let count := getdefault count_per_rank rank in
      let total_count := total_count + count in
      if decide (total = 0) then Raise ZeroDivisionError
      else summary_loop rest count_per_rank total total_count
             (summary ++ [count])
  end.

(** The data part of [write_summary]: the taxa counts per rank, the counts
    of the summary line, and the sanity check. *)
Definition write_summary (read_count : Z) (count_per_rank : gmap string Z)
    (cumulative_counts_per_tax_id : gmap Z Z)
    (tax_id_to_rank : gmap Z string)
    : outcome (gmap string (gset Z) * list Z) :=
  rank_tax_ids ←
    rank_tax_ids_loop (map_to_list cumulative_counts_per_tax_id)
      tax_id_to_rank ∅;
  let total := sum_values count_per_rank in
  '(total_count, summary) ← summary_loop ranks count_per_rank total 0 [];
  _ ← assert_that (read_count = total_count);
  Ok (rank_tax_ids, summary).

(** [main] up to and including [write_summary]. *)
Definition main (fuel : nat) (tree_data : list tree_record)
    (lines : list class_record) : outcome (tables * list Z) :=
  '(tax_id_to_parent, tax_id_to_rank, tax_id_to_standard_rank) ←
    load_tax_info fuel tree_data;
  tax_ids_per_read ← load_tax_ids_per_read lines;
  let read_count := Z.of_nat (length tax_ids_per_read) in
  t ← main_loop fuel tax_id_to_parent tax_id_to_rank
        tax_id_to_standard_rank tax_ids_per_read (Tables ∅ ∅ []);
  '(_, summary) ←
    write_summary read_count (count_per_rank t)
      (cumulative_counts_per_tax_id t) tax_id_to_rank;
  Ok (t, summary).

(** ** write_cumulative_count_table *)

Definition rank_ordering_list : list string :=
  ["root"; "domain"; "subdomain"; "hyperkingdom"; "superkingdom"; "kingdom";
   "subkingdom"; "infrakingdom"; "parvkingdom"; "superphylum"; "phylum";
   "subphylum"; "infraphylum"; "microphylum"; "superclass"; "class";
   "subclass"; "infraclass"; "parvclass"; "superdivision"; "division";
   "subdivision"; "infradivision"; "superlegion"; "legion"; "sublegion";
   "infralegion"; "supercohort"; "cohort"; "subcohort"; "infracohort";
   "gigaorder"; "magnorder"; "grandorder"; "mirorder"; "superorder"; "order";
   "nanorder"; "hypoorder"; "minorder"; "suborder"; "infraorder"; "parvorder";
   "microorder"; "gigafamily"; "megafamily"; "grandfamily"; "hyperfamily";
   "superfamily"; "epifamily"; "family"; "subfamily"; "infrafamily";
   "supertribe"; "tribe"; "subtribe"; "infratribe"; "genus"; "subgenus";
   "section"; "subsection"; "series"; "subseries"; "species group";
   "species subgroup"; "superspecies"; "species"; "subspecies"; "varietas";
   "subvarietas"; "forma"; "subforma"; "strain"; "no rank"].

(** [{rank: n for n, rank in enumerate(rank_ordering)}], from index [n]. *)
Fixpoint enumerate_loop (n : Z) (l : list string) (d : gmap string Z)
    : gmap string Z :=
  match l with
  | [] => d
  | rank :: rest => enumerate_loop (n + 1) rest (<[rank := n]> d)
  end.

Definition rank_ordering : gmap string Z :=
  enumerate_loop 0 rank_ordering_list ∅.

(** The sort key [(rank_ordering[tax_id_to_rank[x]], x)]. *)
Definition sort_key (tax_id_to_rank : gmap Z string) (x : Z)
    : outcome (Z * Z) :=
  rank ← getitem tax_id_to_rank x;
  n ← getitem rank_ordering rank;
  Ok (n, x).

Fixpoint sort_keys (tax_id_to_rank : gmap Z string) (tax_ids : list Z)
    : outcome (list (Z * Z)) :=
  match tax_ids with
  | [] => Ok []
  | x :: rest =>
      k ← sort_key tax_id_to_rank x;
      ks ← sort_keys tax_id_to_rank rest;
      Ok (k :: ks)
  end.

(** Python's order on pairs of integers. *)
Definition key_leb (a b : Z * Z) : bool :=
  (a.1 <? b.1) || ((a.1 =? b.1) && (a.2 <=? b.2)).

Definition key_le (a b : Z * Z) : Prop := Is_true (key_leb a b).

#[global] Instance key_le_dec : RelDecision key_le :=
  λ a b, Is_true_dec (key_leb a b).

(** [sorted(tax_ids, key=...)]: the keys are computed first, then the
    taxon IDs are put in the order of their keys (the key ends with the
    taxon ID itself, so the sorted keys carry the sorted IDs). *)
Definition sorted_by_key (tax_id_to_rank : gmap Z string) (tax_ids : list Z)
    : outcome (list Z) :=
  ks ← sort_keys tax_id_to_rank tax_ids;
  Ok ((merge_sort key_le ks).*2).

(** The header cells [rank-tax_id]. *)
Fixpoint count_header (tax_id_to_rank : gmap Z string) (tax_ids : list Z)
    : outcome (list (string * Z)) :=
  match tax_ids with
  | [] => Ok []
  | x :: rest =>
      rank ← getitem tax_id_to_rank x;
      cells ← count_header tax_id_to_rank rest;
      Ok ((rank, x) :: cells)
  end.

(** The value cells: the count over [read_count], kept as the pair of the
    two integers; the division itself only shows by its failure on 0. *)
Fixpoint count_values (cumulative_counts_per_tax_id : gmap Z Z)
    (read_count : Z) (tax_ids : list Z) : outcome (list (Z * Z)) :=
  match tax_ids with
  | [] => Ok []
  | x :: rest =>
      if decide (read_count = 0) then Raise ZeroDivisionError
      else
        cells ← count_values cumulative_counts_per_tax_id read_count rest;
        Ok ((getdefault cumulative_counts_per_tax_id x, read_count) :: cells)
  end.

Definition write_cumulative_count_table
    (cumulative_counts_per_tax_id : gmap Z Z) (read_count : Z)
    (tax_id_to_rank : gmap Z string)
    : outcome (list (string * Z) * list (Z * Z)) :=
  let tax_ids := (map_to_list cumulative_counts_per_tax_id).*1 in
  tax_ids ← sorted_by_key tax_id_to_rank tax_ids;
  header ← count_header tax_id_to_rank tax_ids;
  values ← count_values cumulative_counts_per_tax_id read_count tax_ids;
  Ok (header, values).

(** [main] with both writers. *)
Definition main_complete (fuel : nat) (tree_data : list tree_record)
    (lines : list class_record)
    : outcome (tables * list Z * (list (string * Z) * list (Z * Z))) :=
  '(tax_id_to_parent, tax_id_to_rank, tax_id_to_standard_rank) ←
    load_tax_info fuel tree_data;
  tax_ids_per_read ← load_tax_ids_per_read lines;
  let read_count := Z.of_nat (length tax_ids_per_read) in
  t ← main_loop fuel tax_id_to_parent tax_id_to_rank
        tax_id_to_standard_rank tax_ids_per_read (Tables ∅ ∅ []);
  '(_, summary) ←
    write_summary read_count (count_per_rank t)
      (cumulative_counts_per_tax_id t) tax_id_to_rank;
  table ←
    write_cumulative_count_table (cumulative_counts_per_tax_id t) read_count
      tax_id_to_rank;
  Ok (t, summary, table).

(** ** get_compression_type and get_open_func *)

(** [magic_dict]: each value is a tuple of one-byte strings. *)
Definition magic_dict : list (string * list (list Byte.byte)) :=
  [("gz", [[Byte.x1f]; [Byte.x8b]; [Byte.x08]]);
   ("bz2", [[Byte.x42]; [Byte.x5a]; [Byte.x68]]);
   ("zip", [[Byte.x50]; [Byte.x4b]; [Byte.x03]; [Byte.x04]])].

(** [s.startswith(prefix)] for one prefix. *)
Fixpoint startswith1 (s prefix : list Byte.byte) {struct prefix} : bool :=
  match prefix, s with
  | [], _ => true
  | b :: prefix', c :: s' => Byte.eqb b c && startswith1 s' prefix'
  | _ :: _, [] => false
  end.

(** [s.startswith(prefixes)] for a tuple: true when some member is a
    prefix. *)
Definition startswith (s : list Byte.byte) (prefixes : list (list Byte.byte))
    : bool :=
  existsb (startswith1 s) prefixes.

(** [max(len(x) for x in magic_dict)]: iterating the dictionary gives its
    keys, so these are the lengths of the names. *)
Definition max_len : nat :=
  foldr (λ kv acc, String.length kv.1 `max` acc)%nat 0%nat magic_dict.

Fixpoint magic_loop (items : list (string * list (list Byte.byte)))
    (file_start : list Byte.byte) (compression_type : string) : string :=
  match items with
  | [] => compression_type
  | (file_type, magic_bytes) :: rest =>
      magic_loop rest file_start
        (if startswith file_start magic_bytes then file_type
         else compression_type)
  end.

(** On the bytes of the file; [inl] is the message of [sys.exit]. *)
Definition get_compression_type (content : list Byte.byte)
    : string + string :=
  let file_start := take max_len content in
  let compression_type := magic_loop magic_dict file_start "plain" in
  if decide (compression_type = "bz2") then
    inl "Error: cannot use bzip2 format - use gzip instead"
  else if decide (compression_type = "zip") then
    inl "Error: cannot use zip format - use gzip instead"
  else inr compression_type.

Inductive open_func : Set := gzip_open | builtin_open.

Definition get_open_func (content : list Byte.byte) : string + open_func :=
  match get_compression_type content with
  | inl message => inl message
  | inr compression_type =>
      inr (if decide (compression_type = "gz") then gzip_open
           else builtin_open)
  end.

(** ** Well-formed trees *)

(** [reaches_root p x]: following parent links from [x] arrives at 1. *)
Inductive reaches_root (p : gmap Z Z) : Z → Prop :=
  | reaches_here : reaches_root p 1
  | reaches_up x y :
      x ≠ 1 → p !! x = Some y → reaches_root p y → reaches_root p x.

(** A single-rooted, acyclic tree: the root is its own parent and every
    node is linked to it. *)
Definition well_formed (p : gmap Z Z) : Prop :=
  p !! 1 = Some 1 ∧ ∀ x, is_Some (p !! x) → reaches_root p x.

(** Boolean check of the same, by walking every chain with [size p] fuel. *)
Definition is_ok {A} (o : outcome A) : bool :=
  match o with Ok _ => true | _ => false end.

Definition well_formedb (p : gmap Z Z) : bool :=
  bool_decide (p !! 1 = Some 1) &&
  forallb (λ kv, is_ok (get_all_ancestors (size p) kv.1 p)) (map_to_list p).

(** ** The ancestor chain as a relation *)

(** [walk p x l]: [l] is the chain from [x] up to the root 1. *)
Inductive walk (p : gmap Z Z) : Z → list Z → Prop :=
  | walk_root : walk p 1 [1]
  | walk_step x y l :
      x ≠ 1 → p !! x = Some y → walk p y l → walk p x (x :: l).

(** [ancestor p a x]: [a] is [x] or lies above it (inclusive ancestor). *)
Inductive ancestor (p : gmap Z Z) : Z → Z → Prop :=
  | ancestor_self x : ancestor p x x
  | ancestor_up a x y : p !! x = Some y → ancestor p a y → ancestor p a x.

(** All chains of [tax_ids] exist and fit into [S fuel] elements. *)
Definition walkable (p : gmap Z Z) (fuel : nat) (tax_ids : list Z) : Prop :=
  ∀ x, x ∈ tax_ids → ∃ l, walk p x l ∧ (length l ≤ S fuel)%nat.

(** [c] lies on or above every member of [tax_ids]. *)
Definition common_ancestor (p : gmap Z Z) (tax_ids : list Z) (c : Z) : Prop :=
  ∀ x, x ∈ tax_ids → ancestor p c x.

(** ** Reading the classification records *)

(** The taxon ID a record is entered under: 1 for the category "no rank",
    the reported number otherwise. *)
Definition recorded_tax_id (r : class_record) : Z :=
  if decide (r.1.2 = "no rank") then 1 else r.2.

Definition is_header (r : class_record) : Prop := r.1.1 = "readID".

(** A non-header record entered under taxon ID 0 whose category is not
    "unclassified". *)
Definition integrity_violation (r : class_record) : Prop :=
  ¬ is_header r ∧ recorded_tax_id r = 0 ∧ r.1.2 ≠ "unclassified".

(** ** Standard ranks over the tree *)

Definition tax_ids_of (tree_data : list tree_record) : list Z :=
  (λ r : tree_record, r.1.1) <$> tree_data.

(** A node with a standard rank of its own: the pre-seeded 0, the root, or
    a node whose raw rank is one of the seven labels. *)
Definition has_own_rank (tax_id_to_rank : gmap Z string) (x : Z) : Prop :=
  x = 0 ∨ x = 1 ∨
  ∃ r, tax_id_to_rank !! x = Some r ∧ r ∈ acceptable_ranks.

(** The standard rank a record gives its own node in the first pass. *)
Definition own_rank (x : Z) (rank : string) : option string :=
  if decide (rank ∈ acceptable_ranks) then Some rank
  else if decide (x = 1) then Some "root" else None.

(** The raw rank kept for a record: the root's is overwritten when its
    rank is not one of the seven. *)
Definition kept_rank (x : Z) (rank : string) : string :=
  if decide (rank ∈ acceptable_ranks) then rank
  else if decide (x = 1) then "root" else rank.

(** [nearest p has x a]: climbing parent links from [x] (inclusive), [a]
    is the first node that satisfies [has]. *)
Inductive nearest (p : gmap Z Z) (has : Z → Prop) : Z → Z → Prop :=
  | nearest_here x : has x → nearest p has x x
  | nearest_up x y a :
      ¬ has x → p !! x = Some y → nearest p has y a → nearest p has x a.

(** What the second pass maintains, [S1] being the standard ranks after the
    first pass: nothing is lost, and every entry is the first-pass rank
    of the nearest node that has one. *)
Definition standard_rank_inv (p : gmap Z Z) (S1 sr : gmap Z string) : Prop :=
  (∀ x, is_Some (S1 !! x) → is_Some (sr !! x))
  ∧ (∀ x v, sr !! x = Some v →
       ∃ a, nearest p (λ y, is_Some (S1 !! y)) x a ∧ S1 !! a = Some v).

(** ** Chains that leave the tree *)

(** [dangling p x]: climbing from [x] meets, before the root, a node that
    is no key of the parent map. *)
Inductive dangling (p : gmap Z Z) : Z → Prop :=
  | dangling_here x : x ≠ 1 → p !! x = None → dangling p x
  | dangling_up x y : x ≠ 1 → p !! x = Some y → dangling p y → dangling p x.

(** [on_chain p k x]: the chain of [x] exists and holds [k]. *)
Definition on_chain (p : gmap Z Z) (k x : Z) : Prop :=
  ∃ l, walk p x l ∧ k ∈ l.

(** The same, computed by the walk. *)
Definition on_chainb (fuel : nat) (p : gmap Z Z) (k x : Z) : bool :=
  match get_all_ancestors fuel x p with
  | Ok l => bool_decide (k ∈ l)
  | _ => false
  end.

(** The number of classified reads, among the resolved taxon IDs, whose
    chain holds [k]. *)
Definition count_below (fuel : nat) (p : gmap Z Z) (k : Z)
    (resolved : list Z) : Z :=
  Z.of_nat (length (filter (λ x, x > 0 ∧ on_chainb fuel p k x = true)
                      resolved)).

(** The number of lines of the per-read table with a given standard rank. *)
Definition count_rank (rank : string) (rows : list row) : Z :=
  Z.of_nat (length (filter (λ r, row_standard_rank r = rank) rows)).

(** The insertion-ordered dictionary of reads, as a finite map. *)
Definition od_map (d : list (string * list Z)) : gmap string (list Z) :=
  list_to_map d.

(** [b] is one of the bytes of [l]. *)
Definition byte_in (b : Byte.byte) (l : list Byte.byte) : bool :=
  existsb (Byte.eqb b) l.


(** ** Counting reads *)

(** The number of classified reads among the resolved taxon IDs. *)
Definition count_classified (resolved : list Z) : Z :=
  Z.of_nat (length (filter (λ x, x > 0) resolved)).

(** [sum(count_per_rank[rank] for rank in rs)] *)
Definition sum_over (rs : list string) (count_per_rank : gmap string Z) : Z :=
  foldr (λ rank acc, getdefault count_per_rank rank + acc) 0 rs.

(** ** Worked examples *)

(** The tree of the scenarios: root 1, genus 2, species 3 and 4. *)
Definition demo_parent : gmap Z Z :=
  <[4 := 2]> (<[3 := 2]> (<[2 := 1]> (<[1 := 1]> ∅))).

Definition demo_tree : list tree_record :=
  [(1, 1, "no rank"); (2, 1, "genus"); (3, 2, "species"); (4, 2, "species")].

Definition demo_lines : list class_record :=
  [("readID", "seqID", 0); ("r1", "s3", 3); ("r1", "s4", 4);
   ("r2", "unclassified", 0)].

Definition demo_rank : gmap Z string :=
  <[4 := "species"]> (<[3 := "species"]> (<[2 := "genus"]>
    (<[1 := "root"]> {[0 := "unclassified"]}))).

Definition demo_reads : list (string * list Z) :=
  [("r1", [3; 4]); ("r2", [0])].

(** A tree with two nodes that inherit: 5 (subfamily) and 6 (no rank)
    below the family 2. *)
Definition deep_tree : list tree_record :=
  [(6, 5, "no rank"); (1, 1, "no rank"); (2, 1, "family");
   (5, 2, "subfamily")].

Definition deep_parent : gmap Z Z :=
  <[5 := 2]> (<[2 := 1]> (<[1 := 1]> (<[6 := 5]> ∅))).

Definition deep_rank : gmap Z string :=
  <[5 := "subfamily"]> (<[2 := "family"]> (<[1 := "root"]>
    (<[6 := "no rank"]> {[0 := "unclassified"]}))).

Definition deep_standard_rank : gmap Z string :=
  <[5 := "family"]> (<[6 := "family"]> (<[2 := "family"]>
    (<[1 := "root"]> {[0 := "unclassified"]}))).

Definition demo_tables : tables :=
  Tables (incr (incr ∅ "genus") "unclassified")
    (<[1 := 1]> (<[2 := 1]> ∅))
    [Row "r1" [3; 4] 2 "genus" "genus";
     Row "r2" [0] 0 "unclassified" "unclassified"].

Example deep_load_tax_info :
  load_tax_info 3 deep_tree = Ok (deep_parent, deep_rank, deep_standard_rank).
Proof. vm_compute. reflexivity. Qed.

Example demo_load_tax_info :
  load_tax_info 2 demo_tree = Ok (demo_parent, demo_rank, demo_rank).
Proof. vm_compute. reflexivity. Qed.

Example demo_walk : get_all_ancestors 5 3 demo_parent = Ok [3; 2; 1].
Proof. vm_compute. reflexivity. Qed.

Example demo_lca : find_lca 5 [3; 4] demo_parent = Ok 2.
Proof. vm_compute. reflexivity. Qed.

Example demo_wf : well_formedb demo_parent = true.
Proof. vm_compute. reflexivity. Qed.

(** ** Facts about the ancestor walk *)

Section walk_facts.
Context (p : gmap Z Z).

Lemma walk_head x l : walk p x l → head l = Some x.
Proof. by destruct 1. Qed.

Lemma walk_last x l : walk p x l → last l = Some 1.
Proof.
  induction 1 as [|x y l Hx Hp Hw IH]; [done|].
  destruct l as [|z l]; [inversion Hw | exact IH].
Qed.

Lemma walk_fun x l1 l2 : walk p x l1 → walk p x l2 → l1 = l2.
Proof.
  intros H1. revert l2.
  induction H1 as [|x y l Hx Hp Hw IH]; intros l2 H2; inversion H2; subst;
    try done.
  f_equal. apply IH. congruence.
Qed.

Lemma walk_links x l i a b :
  walk p x l → l !! i = Some a → l !! S i = Some b → p !! a = Some b.
Proof.
  intros Hw. revert i.
  induction Hw as [|x y l Hx Hp Hw IH]; intros i Ha Hb.
  - destruct i; simplify_eq/=.
  - destruct i as [|i]; simpl in *.
    + simplify_eq. apply walk_head in Hw.
      destruct l; simplify_eq/=. done.
    + by eapply IH.
Qed.

Lemma walk_length x l : walk p x l → x ≠ 1 → (2 ≤ length l)%nat.
Proof.
  destruct 1 as [|x y l Hx Hp Hw]; [done|]. intros _.
  destruct Hw; simpl; lia.
Qed.

Lemma walk_suffix x l pre a rest :
  walk p x l → l = pre ++ a :: rest → walk p a (a :: rest).
Proof.
  intros Hw. revert pre.
  induction Hw as [|x y l Hx Hp Hw IH]; intros pre Heq.
  - destruct pre as [|? [|]]; simplify_eq/=. constructor.
  - destruct pre as [|z pre]; simplify_eq/=.
    + by econstructor.
    + by eapply IH.
Qed.

Lemma walk_reaches x l : walk p x l → reaches_root p x.
Proof. induction 1; econstructor; eauto. Qed.

Lemma reaches_walk x : reaches_root p x → ∃ l, walk p x l.
Proof.
  induction 1 as [|x y Hx Hp _ [l Hl]].
  - eexists. constructor.
  - eexists. by econstructor.
Qed.

Lemma walk_ancestor x l a : walk p x l → a ∈ l → ancestor p a x.
Proof.
  induction 1 as [|x y l Hx Hp Hw IH]; intros Ha.
  - apply list_elem_of_singleton in Ha as ->. constructor.
  - apply elem_of_cons in Ha as [->|Ha]; [constructor|].
    econstructor; eauto.
Qed.

Lemma ancestor_walk x l a :
  p !! 1 = Some 1 → ancestor p a x → walk p x l → a ∈ l.
Proof.
  intros H1 Ha. revert l.
  induction Ha as [x|a x y Hp Ha IH]; intros l Hw.
  - apply walk_head in Hw. destruct l; simplify_eq/=. left.
  - inversion Hw; subst.
    + assert (y = 1) as -> by congruence. apply IH. constructor.
    + right. apply IH. congruence.
Qed.

(** The loop computes the chain, appended to what was already there. *)
Lemma ancestors_loop_walk x l :
  walk p x l →
  ∀ fuel acc, (length l ≤ S fuel)%nat →
    ancestors_loop fuel p x (acc ++ [x]) = Ok (acc ++ l).
Proof.
  induction 1 as [|x y l Hx Hp Hw IH]; intros fuel acc Hf.
  - by destruct fuel.
  - destruct fuel as [|fuel]; simpl in *.
    { destruct Hw; simpl in *; lia. }
    rewrite decide_False by done.
    unfold getitem. rewrite Hp. simpl.
    rewrite (IH fuel (acc ++ [x])) by lia.
    by rewrite <- app_assoc.
Qed.

Lemma ancestors_loop_inv fuel x acc l :
  ancestors_loop fuel p x (acc ++ [x]) = Ok l →
  ∃ l', l = acc ++ l' ∧ walk p x l' ∧ (length l' ≤ S fuel)%nat.
Proof.
  revert x acc. induction fuel as [|fuel IH]; intros x acc; simpl.
  - case_decide; [|done]. intros [= <-]. subst.
    exists [1]. split_and!; [done|constructor|simpl; lia].
  - case_decide.
    { intros [= <-]. subst.
      exists [1]. split_and!; [done|constructor|simpl; lia]. }
    unfold getitem. destruct (p !! x) as [y|] eqn:Hp; [|done]. simpl.
    intros Hl. apply IH in Hl as (l' & -> & Hw & Hlen).
    exists (x :: l'). split_and!.
    + by rewrite <- app_assoc.
    + by econstructor.
    + simpl. lia.
Qed.

Lemma get_all_ancestors_walk fuel x l :
  walk p x l → (length l ≤ S fuel)%nat →
  get_all_ancestors fuel x p = Ok l.
Proof.
  intros Hw Hf. unfold get_all_ancestors.
  pose proof (ancestors_loop_walk x l Hw fuel [] Hf) as Hloop.
  simpl in Hloop. rewrite Hloop. simpl.
  by rewrite decide_True by (by eapply walk_last).
Qed.

Lemma get_all_ancestors_inv fuel x l :
  get_all_ancestors fuel x p = Ok l →
  walk p x l ∧ (length l ≤ S fuel)%nat.
Proof.
  unfold get_all_ancestors.
  destruct (ancestors_loop fuel p x [x]) as [l0| |] eqn:Hl; [|done..].
  simpl. case_decide; [|done]. intros [= <-].
  apply (ancestors_loop_inv fuel x []) in Hl as (l' & Heq & Hw & Hlen).
  simpl in Heq. by subst.
Qed.

Lemma ancestors_loop_raise fuel x acc e :
  ancestors_loop fuel p x acc = Raise e → e = KeyError.
Proof.
  revert x acc. induction fuel as [|fuel IH]; intros x acc; simpl.
  - by case_decide.
  - case_decide; [done|]. unfold getitem.
    destruct (p !! x) as [y|]; simpl; [apply IH | congruence].
Qed.

(** The walk never trips its own final assertion. *)
Lemma get_all_ancestors_no_assert fuel x :
  get_all_ancestors fuel x p ≠ Raise AssertionError.
Proof.
  unfold get_all_ancestors.
  destruct (ancestors_loop fuel p x [x]) as [l0|e|] eqn:Hl; [| |done].
  2:{ apply ancestors_loop_raise in Hl as ->. done. }
  apply (ancestors_loop_inv fuel x []) in Hl as (l' & Heq & Hw & Hlen).
  simpl in *. subst. by rewrite decide_True by (by eapply walk_last).
Qed.

Lemma get_all_ancestors_mono fuel fuel' x l :
  get_all_ancestors fuel x p = Ok l → (fuel ≤ fuel')%nat →
  get_all_ancestors fuel' x p = Ok l.
Proof.
  intros [Hw Hlen]%get_all_ancestors_inv Hle.
  apply get_all_ancestors_walk; [done|lia].
Qed.
End walk_facts.

Lemma well_formed_walk p x :
  well_formed p → is_Some (p !! x) → ∃ l, walk p x l.
Proof. intros [_ Hwf] Hx. apply reaches_walk, Hwf, Hx. Qed.

Lemma well_formedb_sound p : well_formedb p = true → well_formed p.
Proof.
  unfold well_formedb. intros [H1 Hall]%andb_prop.
  apply bool_decide_eq_true in H1. split; [done|].
  intros x [y Hy]. rewrite forallb_forall in Hall.
  specialize (Hall (x, y)). simpl in Hall.
  destruct (get_all_ancestors (size p) x p) as [l| |] eqn:Hl.
  - apply get_all_ancestors_inv in Hl as [Hw _]. by eapply walk_reaches.
  - discriminate Hall. apply list_elem_of_In. by apply elem_of_map_to_list.
  - discriminate Hall. apply list_elem_of_In. by apply elem_of_map_to_list.
Qed.

(** ** get_all_ancestors on a well-formed tree *)

(** C4: for a real node of a well-formed tree the ancestor walk returns,
    with any sufficient fuel, one and the same finite list; the list starts
    with the given taxon ID, ends with 1, each later element is the parent
    of the one before it, and for a non-root ID it has at least two
    elements. *)
Theorem get_all_ancestors_chain (p : gmap Z Z) (x : Z) :
  well_formed p → is_Some (p !! x) →
  ∃ l,
    (∃ fuel, ∀ fuel', (fuel ≤ fuel')%nat → get_all_ancestors fuel' x p = Ok l)
    ∧ (∀ fuel' l', get_all_ancestors fuel' x p = Ok l' → l' = l)
    ∧ head l = Some x
    ∧ last l = Some 1
    ∧ (∀ i a b, l !! i = Some a → l !! S i = Some b → p !! a = Some b)
    ∧ (x ≠ 1 → (2 ≤ length l)%nat).
Proof.
  intros Hwf Hx.
  destruct (well_formed_walk p x Hwf Hx) as [l Hw].
  exists l. split_and!.
  - exists (length l). intros fuel' Hle.
    apply get_all_ancestors_walk; [done|lia].
  - intros fuel' l' [Hw' _]%get_all_ancestors_inv. by eapply walk_fun.
  - by eapply walk_head.
  - by eapply walk_last.
  - intros i a b. by eapply walk_links.
  - by eapply walk_length.
Qed.

Lemma get_all_ancestors_chain_witness :
  well_formed demo_parent ∧ is_Some (demo_parent !! 3) ∧
  ∃ l,
    (∃ fuel, ∀ fuel', (fuel ≤ fuel')%nat →
       get_all_ancestors fuel' 3 demo_parent = Ok l)
    ∧ (∀ fuel' l', get_all_ancestors fuel' 3 demo_parent = Ok l' → l' = l)
    ∧ head l = Some 3
    ∧ last l = Some 1
    ∧ (∀ i a b, l !! i = Some a → l !! S i = Some b →
         demo_parent !! a = Some b)
    ∧ (3 ≠ 1 → (2 ≤ length l)%nat).
Proof.
  assert (Hwf : well_formed demo_parent).
  { apply well_formedb_sound. vm_compute. reflexivity. }
  assert (Hx : is_Some (demo_parent !! 3)).
  { exists 2. vm_compute. reflexivity. }
  split; [exact Hwf|]. split; [exact Hx|].
  exact (get_all_ancestors_chain demo_parent 3 Hwf Hx).
Defined.

(** ** find_lca on a well-formed tree *)

Section lca_facts.
Context (p : gmap Z Z).

Lemma walk_NoDup x l : walk p x l → NoDup l.
Proof.
  induction 1 as [|x y l Hx Hp Hw IH].
  - apply NoDup_singleton.
  - constructor; [|done]. intros Hin.
    apply list_elem_of_split in Hin as (pre & rest & ->).
    pose proof (walk_suffix p y _ pre x rest Hw eq_refl) as Hwx.
    inversion Hwx as [|? y' ? ? Hp' Hw' ]; subst; [done|].
    assert (y' = y) as -> by congruence.
    pose proof (walk_fun p y _ _ Hw Hw') as Heq.
    apply (f_equal length) in Heq. rewrite length_app in Heq.
    simpl in Heq. lia.
Qed.

(** Two nodes that lie on each other's chain are the same node. *)
Lemma walk_antisym a b la lb :
  walk p a la → walk p b lb → b ∈ la → a ∈ lb → a = b.
Proof.
  intros Ha Hb Hin1 Hin2.
  apply list_elem_of_split in Hin1 as (pre1 & rest1 & ->).
  apply list_elem_of_split in Hin2 as (pre2 & rest2 & ->).
  pose proof (walk_suffix p a _ pre1 b rest1 Ha eq_refl) as Hb'.
  pose proof (walk_suffix p b _ pre2 a rest2 Hb eq_refl) as Ha'.
  pose proof (walk_fun p _ _ _ Ha Ha') as E1.
  pose proof (walk_fun p _ _ _ Hb Hb') as E2.
  apply (f_equal length) in E1 as L1. apply (f_equal length) in E2 as L2.
  rewrite length_app in L1, L2. simpl in L1, L2.
  destruct pre1 as [|z pre1]; [simpl in E1; congruence|].
  simpl in L1. lia.
Qed.

Lemma walk_suffix_length x l a la :
  walk p x l → a ∈ l → walk p a la → (length la ≤ length l)%nat.
Proof.
  intros Hw Hin Ha.
  apply list_elem_of_split in Hin as (pre & rest & ->).
  pose proof (walk_suffix p x _ pre a rest Hw eq_refl) as Ha'.
  rewrite (walk_fun p _ _ _ Ha Ha'), length_app. lia.
Qed.

Lemma walkable_mono fuel fuel' tax_ids :
  walkable p fuel tax_ids → (fuel ≤ fuel')%nat → walkable p fuel' tax_ids.
Proof.
  intros Hw Hle x Hx. destruct (Hw x Hx) as (l & Hl & Hlen).
  exists l. split; [done|lia].
Qed.

Lemma walkable_exists tax_ids :
  (∀ x, x ∈ tax_ids → ∃ l, walk p x l) → ∃ fuel, walkable p fuel tax_ids.
Proof.
  induction tax_ids as [|x tax_ids IH]; intros Hall.
  - exists O. intros x Hx. by apply elem_of_nil in Hx.
  - destruct IH as [f Hf].
    { intros y Hy. apply Hall. by right. }
    destruct (Hall x) as [l Hl]; [left|].
    exists (f `max` length l)%nat. intros y Hy.
    apply elem_of_cons in Hy as [->|Hy].
    + exists l. split; [done|lia].
    + destruct (Hf y Hy) as (l' & Hl' & Hlen). exists l'. split; [done|lia].
Qed.

(** The intersection loop, started from a set that holds the root. *)
Lemma common_loop_spec fuel tax_ids (common_taxa : gset Z) :
  walkable p fuel tax_ids → 1 ∈ common_taxa →
  ∃ common_taxa',
    common_loop fuel p tax_ids common_taxa = Ok common_taxa'
    ∧ 1 ∈ common_taxa'
    ∧ ∀ a, a ∈ common_taxa' ↔
        a ∈ common_taxa ∧ ∀ x l, x ∈ tax_ids → walk p x l → a ∈ l.
Proof.
  revert common_taxa.
  induction tax_ids as [|x tax_ids IH]; intros C Hall H1; simpl.
  - exists C. split_and!; [done..|]. intros a. split; [|by intros []].
    intros Ha. split; [done|]. intros x l Hx. by apply elem_of_nil in Hx.
  - destruct (Hall x) as (l & Hl & Hlen); [left|].
    rewrite (get_all_ancestors_walk p fuel x l Hl Hlen). simpl.
    rewrite decide_False by set_solver.
    assert (H1l : 1 ∈ l).
    { apply walk_last in Hl. apply last_Some in Hl as [l' ->].
      apply elem_of_app. right. left. }
    destruct (IH (C ∩ list_to_set l)) as (C' & -> & H1' & HC').
    { intros y Hy. apply Hall. by right. }
    { set_solver. }
    exists C'. split_and!; [done..|]. intros a. rewrite HC'.
    rewrite elem_of_intersection, elem_of_list_to_set. split.
    + intros [[HaC Hal] Hrest]. split; [done|].
      intros y ly [->|Hy]%elem_of_cons Hwy.
      * by rewrite (walk_fun p _ _ _ Hwy Hl).
      * by eapply Hrest.
    + intros [HaC Hrest]. split_and!; [done| |].
      * apply (Hrest x l); [left|done].
      * intros y ly Hy. apply Hrest. by right.
Qed.

Lemma first_common_spec l (common_taxa : gset Z) :
  (∃ a, a ∈ l ∧ a ∈ common_taxa) →
  ∃ pre r rest,
    first_common l common_taxa = Ok r ∧ l = pre ++ r :: rest
    ∧ r ∈ common_taxa ∧ ∀ a, a ∈ pre → a ∉ common_taxa.
Proof.
  induction l as [|z l IH]; intros (a & Hal & HaC).
  - by apply elem_of_nil in Hal.
  - simpl. case_decide as Hz.
    + exists [], z, l. split_and!; [done..|].
      intros b Hb. by apply elem_of_nil in Hb.
    + destruct IH as (pre & r & rest & -> & -> & Hr & Hpre).
      { apply elem_of_cons in Hal as [->|Hal]; [done|]. eauto. }
      exists (z :: pre), r, rest. split_and!; [done..|].
      intros b [->|Hb]%elem_of_cons; auto.
Qed.

(** What [find_lca] returns, stated on the chains. *)
Lemma find_lca_spec fuel tax_ids :
  tax_ids ≠ [] → walkable p fuel tax_ids →
  ∃ r,
    find_lca fuel tax_ids p = Ok r
    ∧ (∀ x l, x ∈ tax_ids → walk p x l → r ∈ l)
    ∧ (∀ c, (∀ x l, x ∈ tax_ids → walk p x l → c ∈ l) →
         ∃ lr, walk p r lr ∧ c ∈ lr).
Proof.
  intros Hne Hall. destruct tax_ids as [|one rest]; [done|].
  unfold find_lca. simpl.
  destruct (Hall one) as (l & Hl & Hlen); [left|].
  rewrite (get_all_ancestors_walk p fuel one l Hl Hlen). simpl.
  rewrite decide_True by done.
  assert (H1l : 1 ∈ l).
  { apply walk_last in Hl as Hlast. apply last_Some in Hlast as [l' ->].
    apply elem_of_app. right. left. }
  destruct (common_loop_spec fuel rest (list_to_set l)) as (C & -> & H1 & HC).
  { intros y Hy. apply Hall. by right. }
  { by apply elem_of_list_to_set. }
  simpl.
  destruct (first_common_spec l C) as (pre & r & post & -> & Heq & Hr & Hpre).
  { exists 1. done. }
  assert (Hcommon : ∀ a, a ∈ C ↔ ∀ x lx, x ∈ one :: rest → walk p x lx → a ∈ lx).
  { intros a. rewrite HC, elem_of_list_to_set. split.
    - intros [Hal Hrest] x lx [->|Hx]%elem_of_cons Hwx.
      + by rewrite (walk_fun p _ _ _ Hwx Hl).
      + by eapply Hrest.
    - intros Hx. split.
      + apply (Hx one l); [left|done].
      + intros x lx Hin. apply Hx. by right. }
  exists r. split_and!; [done| |].
  - by apply Hcommon.
  - intros c Hc. exists (r :: post). split.
    + by eapply walk_suffix.
    + assert (Hcl : c ∈ l) by (apply (Hc one l); [left|done]).
      rewrite Heq in Hcl. apply elem_of_app in Hcl as [Hcpre|Hcl]; [|done].
      exfalso. apply (Hpre c Hcpre). by apply Hcommon.
Qed.
End lca_facts.

Lemma ancestor_iff_walk p a x l :
  p !! 1 = Some 1 → walk p x l → ancestor p a x ↔ a ∈ l.
Proof.
  intros H1 Hw. split.
  - intros Ha. by eapply ancestor_walk.
  - by eapply walk_ancestor.
Qed.

Lemma real_nodes_walkable p tax_ids :
  well_formed p → (∀ x, x ∈ tax_ids → is_Some (p !! x)) →
  ∃ fuel, walkable p fuel tax_ids.
Proof.
  intros Hwf Hreal. apply walkable_exists.
  intros x Hx. apply well_formed_walk; auto.
Qed.

(** C1: on a well-formed tree, for a non-empty collection of real nodes,
    [find_lca] returns (with any sufficient fuel) a node that is an
    inclusive ancestor of every member; every common ancestor of the
    members lies on the chain of the returned node and is no farther from
    the root than it; and on the chain of any member the returned node is
    the first element that is a common ancestor. *)
Theorem find_lca_deepest_common (p : gmap Z Z) (tax_ids : list Z) :
  well_formed p → tax_ids ≠ [] → (∀ x, x ∈ tax_ids → is_Some (p !! x)) →
  ∃ r,
    (∃ fuel, ∀ fuel', (fuel ≤ fuel')%nat → find_lca fuel' tax_ids p = Ok r)
    ∧ common_ancestor p tax_ids r
    ∧ (∀ c, common_ancestor p tax_ids c →
         ancestor p c r ∧
         ∀ lc lr, walk p c lc → walk p r lr → (length lc ≤ length lr)%nat)
    ∧ (∀ m lm, m ∈ tax_ids → walk p m lm →
         ∃ pre rest, lm = pre ++ r :: rest ∧
           ∀ a, a ∈ pre → ¬ common_ancestor p tax_ids a).
Proof.
  intros Hwf Hne Hreal. pose proof Hwf as [H1 _].
  destruct (real_nodes_walkable p tax_ids Hwf Hreal) as [fuel Hfuel].
  destruct (find_lca_spec p fuel tax_ids Hne Hfuel) as (r & Hr & Hcom & Hdeep).
  assert (Hcr : common_ancestor p tax_ids r).
  { intros x Hx. destruct (Hfuel x Hx) as (l & Hl & _).
    eapply walk_ancestor; [done|]. by eapply Hcom. }
  assert (Hup : ∀ c, common_ancestor p tax_ids c → ∃ lr, walk p r lr ∧ c ∈ lr).
  { intros c Hc. apply Hdeep. intros x l Hx Hl.
    eapply ancestor_walk; eauto. }
  exists r. split_and!; [|done| |].
  - exists fuel. intros fuel' Hle.
    destruct (find_lca_spec p fuel' tax_ids Hne) as (r' & Hr' & Hcom' & Hdeep').
    { by eapply walkable_mono. }
    rewrite Hr'. f_equal.
    assert (Hcr' : common_ancestor p tax_ids r').
    { intros x Hx. destruct (Hfuel x Hx) as (l & Hl & _).
      eapply walk_ancestor; [done|]. by eapply Hcom'. }
    destruct (Hup r' Hcr') as (lr & Hlr & Hin).
    destruct (Hdeep' r) as (lr' & Hlr' & Hin').
    { intros x l Hx Hl. by eapply Hcom. }
    symmetry. by eapply walk_antisym.
  - intros c Hc. destruct (Hup c Hc) as (lr & Hlr & Hin). split.
    + by eapply walk_ancestor.
    + intros lc lr' Hlc Hlr'. rewrite (walk_fun p _ _ _ Hlr' Hlr).
      by eapply walk_suffix_length.
  - intros m lm Hm Hlm.
    pose proof (Hcom m lm Hm Hlm) as Hin.
    apply list_elem_of_split in Hin as (pre & rest & ->).
    exists pre, rest. split; [done|]. intros a Ha Hca.
    destruct (Hup a Hca) as (lr & Hlr & Hin).
    pose proof (walk_suffix p m _ pre r rest Hlm eq_refl) as Hlr'.
    rewrite (walk_fun p _ _ _ Hlr Hlr') in Hin.
    pose proof (walk_NoDup p _ _ Hlm) as Hnd.
    apply NoDup_app in Hnd as (_ & Hdisj & _). by apply (Hdisj a).
Qed.

Lemma find_lca_deepest_common_witness :
  well_formed demo_parent ∧ [3; 4] ≠ [] ∧
  (∀ x, x ∈ [3; 4] → is_Some (demo_parent !! x)) ∧
  ∃ r,
    (∃ fuel, ∀ fuel', (fuel ≤ fuel')%nat →
       find_lca fuel' [3; 4] demo_parent = Ok r)
    ∧ common_ancestor demo_parent [3; 4] r
    ∧ (∀ c, common_ancestor demo_parent [3; 4] c →
         ancestor demo_parent c r ∧
         ∀ lc lr, walk demo_parent c lc → walk demo_parent r lr →
           (length lc ≤ length lr)%nat)
    ∧ (∀ m lm, m ∈ [3; 4] → walk demo_parent m lm →
         ∃ pre rest, lm = pre ++ r :: rest ∧
           ∀ a, a ∈ pre → ¬ common_ancestor demo_parent [3; 4] a).
Proof.
  assert (Hwf : well_formed demo_parent).
  { apply well_formedb_sound. vm_compute. reflexivity. }
  assert (Hne : [3; 4] ≠ ([] : list Z)) by discriminate.
  assert (Hreal : ∀ x, x ∈ [3; 4] → is_Some (demo_parent !! x)).
  { intros x Hx. exists 2.
    apply elem_of_cons in Hx as [->|Hx]; [vm_compute; reflexivity|].
    apply list_elem_of_singleton in Hx as ->. vm_compute. reflexivity. }
  split; [exact Hwf|]. split; [exact Hne|]. split; [exact Hreal|].
  exact (find_lca_deepest_common demo_parent [3; 4] Hwf Hne Hreal).
Defined.

(** The LCA of a node and one of its ancestors, on bounded chains. *)
Lemma find_lca_of_ancestor p fuel a tax_ids :
  p !! 1 = Some 1 → walkable p fuel tax_ids → a ∈ tax_ids →
  common_ancestor p tax_ids a →
  find_lca fuel tax_ids p = Ok a.
Proof.
  intros H1 Hfuel Ha Hca.
  destruct (find_lca_spec p fuel tax_ids) as (r & Hr & Hcom & Hdeep);
    [intros ->; by apply elem_of_nil in Ha | done |].
  rewrite Hr. f_equal.
  destruct (Hfuel a Ha) as (la & Hla & _).
  destruct (Hdeep a) as (lr & Hlr & Hin).
  { intros x l Hx Hl. eapply ancestor_walk; eauto. }
  symmetry. eapply walk_antisym; eauto.
Qed.

(** C9: on a well-formed tree, if [a] is an inclusive ancestor of [b]
    (both real nodes) then the LCA of the set with exactly the members [a]
    and [b], in any iteration order, is [a]; and the LCA of the singleton
    of a real node [x] is [x], which is also what the singleton shortcut of
    the read classifier picks. *)
Theorem find_lca_ancestor_pair (p : gmap Z Z) (a b x : Z) (tax_ids : list Z) :
  well_formed p →
  is_Some (p !! a) → is_Some (p !! b) → is_Some (p !! x) →
  ancestor p a b →
  (∀ y, y ∈ tax_ids ↔ y = a ∨ y = b) →
  ∃ fuel, ∀ fuel', (fuel ≤ fuel')%nat →
    find_lca fuel' tax_ids p = Ok a
    ∧ find_lca fuel' [x] p = Ok x
    ∧ resolve fuel' [x] p = Ok x.
Proof.
  intros Hwf Ha Hb Hx Hanc Hmem. pose proof Hwf as [H1 _].
  destruct (real_nodes_walkable p (x :: tax_ids) Hwf) as [fuel Hfuel].
  { intros y [->|Hy]%elem_of_cons; [done|].
    apply Hmem in Hy as [->| ->]; done. }
  exists fuel. intros fuel' Hle.
  apply (walkable_mono p fuel fuel') in Hfuel; [|done].
  split_and!; [| |done].
  - apply find_lca_of_ancestor; [done| | |].
    + intros y Hy. apply Hfuel. by right.
    + apply Hmem. by left.
    + intros y Hy. apply Hmem in Hy as [->| ->]; [constructor|done].
  - apply find_lca_of_ancestor; [done| | |].
    + intros y Hy. apply Hfuel.
      apply list_elem_of_singleton in Hy as ->. left.
    + left.
    + intros y Hy. apply list_elem_of_singleton in Hy as ->. constructor.
Qed.

Lemma find_lca_ancestor_pair_witness :
  well_formed demo_parent ∧
  is_Some (demo_parent !! 2) ∧ is_Some (demo_parent !! 3) ∧
  is_Some (demo_parent !! 4) ∧
  ancestor demo_parent 2 3 ∧
  (∀ y, y ∈ [3; 2] ↔ y = 2 ∨ y = 3) ∧
  ∃ fuel, ∀ fuel', (fuel ≤ fuel')%nat →
    find_lca fuel' [3; 2] demo_parent = Ok 2
    ∧ find_lca fuel' [4] demo_parent = Ok 4
    ∧ resolve fuel' [4] demo_parent = Ok 4.
Proof.
  assert (Hwf : well_formed demo_parent).
  { apply well_formedb_sound. vm_compute. reflexivity. }
  assert (H2 : is_Some (demo_parent !! 2)) by (exists 1; vm_compute; reflexivity).
  assert (H3 : is_Some (demo_parent !! 3)) by (exists 2; vm_compute; reflexivity).
  assert (H4 : is_Some (demo_parent !! 4)) by (exists 2; vm_compute; reflexivity).
  assert (Hanc : ancestor demo_parent 2 3).
  { apply (ancestor_up demo_parent 2 3 2); [vm_compute; reflexivity|].
    apply ancestor_self. }
  assert (Hmem : ∀ y, y ∈ [3; 2] ↔ y = 2 ∨ y = 3).
  { intros y. rewrite elem_of_cons, list_elem_of_singleton. tauto. }
  split_and!; try assumption.
  exact (find_lca_ancestor_pair demo_parent 2 3 4 [3; 2] Hwf H2 H3 H4 Hanc Hmem).
Defined.

(** ** load_tax_ids_per_read *)

Lemma load_loop_cons r lines d :
  load_loop (r :: lines) d =
  if decide (is_header r) then load_loop lines d
  else
    _ ← (if decide (recorded_tax_id r = 0)
         then assert_that (r.1.2 = "unclassified") else Ok ());
    load_loop lines (od_add d r.1.1 (recorded_tax_id r)).
Proof. by destruct r as [[read_name seq_id] tax_id]. Qed.

Lemma load_loop_outcome lines d :
  (∃ d', load_loop lines d = Ok d') ∨ load_loop lines d = Raise AssertionError.
Proof.
  revert d. induction lines as [|r lines IH]; intros d.
  - left. by eexists.
  - rewrite load_loop_cons.
    destruct (decide (is_header r)); [apply IH|].
    destruct (decide (recorded_tax_id r = 0)); [|simpl; apply IH].
    unfold assert_that.
    destruct (decide (r.1.2 = "unclassified")); simpl; [apply IH|by right].
Qed.

Lemma load_loop_assert lines d :
  load_loop lines d = Raise AssertionError ↔
  ∃ r, r ∈ lines ∧ integrity_violation r.
Proof.
  revert d. induction lines as [|r lines IH]; intros d.
  - split; [done|]. intros (r & Hr & _). by apply elem_of_nil in Hr.
  - assert (Hcons : (∃ r', r' ∈ r :: lines ∧ integrity_violation r') ↔
      integrity_violation r ∨ ∃ r', r' ∈ lines ∧ integrity_violation r').
    { split.
      - intros (r' & [->|Hr]%elem_of_cons & HP); eauto.
      - intros [HP|(r' & Hr & HP)]; [exists r|exists r'];
          (split; [|done]); [left|by right]. }
    rewrite Hcons, load_loop_cons. unfold integrity_violation at 1.
    destruct (decide (is_header r)) as [Hhead|Hhead].
    { rewrite IH. split; [by right|]. intros [[? _]|?]; done. }
    destruct (decide (recorded_tax_id r = 0)) as [Hzero|Hzero].
    + unfold assert_that.
      destruct (decide (r.1.2 = "unclassified")) as [Hun|Hun]; simpl.
      * rewrite IH. split; [by right|]. intros [(_ & _ & ?)|?]; done.
      * split; [|done]. intros _. by left.
    + simpl. rewrite IH. split; [by right|]. intros [(_ & ? & _)|?]; done.
Qed.

(** C7: loading the classification records raises the integrity assertion
    exactly when some non-header record is entered under taxon ID 0 with a
    category other than "unclassified", the taxon ID being the one after
    the "no rank" mapping to 1; a "no rank" record is never such a record,
    and without such a record the load returns its dictionary. *)
Theorem load_tax_ids_per_read_assert (lines : list class_record) :
  (load_tax_ids_per_read lines = Raise AssertionError ↔
     ∃ r, r ∈ lines ∧ integrity_violation r)
  ∧ (∀ read_name tax_id,
       recorded_tax_id (read_name, "no rank", tax_id) = 1
       ∧ ¬ integrity_violation (read_name, "no rank", tax_id))
  ∧ ((∃ d, load_tax_ids_per_read lines = Ok d) ↔
       ¬ ∃ r, r ∈ lines ∧ integrity_violation r).
Proof.
  unfold load_tax_ids_per_read. split_and!.
  - apply load_loop_assert.
  - intros read_name tax_id. split; [done|]. by intros (_ & ? & _).
  - rewrite <- (load_loop_assert lines []).
    destruct (load_loop_outcome lines []) as [[d Hd]|Hr]; rewrite ?Hd, ?Hr.
    + split; [done|]. intros _. by eexists.
    + split; [by intros [? ?]|done].
Qed.

Lemma set_add_nonempty x s : set_add x s ≠ [].
Proof.
  unfold set_add. case_decide as Hin.
  - intros ->. by apply elem_of_nil in Hin.
  - by destruct s.
Qed.

Lemma od_add_nonempty d read_name tax_id :
  Forall (λ kv, kv.2 ≠ []) d →
  Forall (λ kv : string * list Z, kv.2 ≠ []) (od_add d read_name tax_id).
Proof.
  induction 1 as [|[k s] d Hs Hd IH]; simpl.
  - constructor; [apply set_add_nonempty|constructor].
  - case_decide; constructor; simpl; auto using set_add_nonempty.
Qed.

Lemma load_loop_nonempty lines d d' :
  Forall (λ kv, kv.2 ≠ []) d → load_loop lines d = Ok d' →
  Forall (λ kv : string * list Z, kv.2 ≠ []) d'.
Proof.
  revert d. induction lines as [|r lines IH]; intros d Hd.
  - by intros [= <-].
  - rewrite load_loop_cons.
    destruct (decide (is_header r)); [by apply IH|].
    destruct (decide (recorded_tax_id r = 0)); simpl.
    + unfold assert_that.
      destruct (decide (r.1.2 = "unclassified")); simpl; [|done].
      apply IH. by apply od_add_nonempty.
    + apply IH. by apply od_add_nonempty.
Qed.

(** ** Which exceptions the loops can raise *)

Lemma getitem_raise {K V} `{Countable K} (d : gmap K V) k e :
  getitem d k = Raise e → e = KeyError.
Proof. unfold getitem. destruct (d !! k); congruence. Qed.

Lemma get_all_ancestors_raise fuel x p e :
  get_all_ancestors fuel x p = Raise e → e = KeyError.
Proof.
  intros He. pose proof (get_all_ancestors_no_assert p fuel x) as Hna.
  unfold get_all_ancestors in *.
  destruct (ancestors_loop fuel p x [x]) as [l|e'|] eqn:Hl; simpl in *.
  - case_decide; congruence.
  - apply ancestors_loop_raise in Hl. congruence.
  - done.
Qed.

Lemma common_loop_raise fuel p tax_ids common_taxa e :
  common_loop fuel p tax_ids common_taxa = Raise e → e = KeyError.
Proof.
  revert common_taxa. induction tax_ids as [|x tax_ids IH]; intros C; simpl.
  - done.
  - destruct (get_all_ancestors fuel x p) as [l|e'|] eqn:Hl; simpl.
    + apply IH.
    + intros [= <-]. by eapply get_all_ancestors_raise.
    + done.
Qed.

Lemma first_common_raise l common_taxa e :
  first_common l common_taxa = Raise e → e = AssertionError.
Proof.
  induction l as [|a l IH]; simpl; [congruence|].
  case_decide; [done|apply IH].
Qed.

Lemma find_lca_raise fuel tax_ids p e :
  find_lca fuel tax_ids p = Raise e → e ≠ TypeError.
Proof.
  unfold find_lca.
  destruct (common_loop fuel p tax_ids ∅) as [C|e'|] eqn:HC; simpl.
  - destruct tax_ids as [|one rest]; [congruence|].
    destruct (get_all_ancestors fuel one p) as [l|e'|] eqn:Hl; simpl.
    + intros ->%first_common_raise. done.
    + intros [= <-]. apply get_all_ancestors_raise in Hl as ->. done.
    + done.
  - intros [= <-]. apply common_loop_raise in HC as ->. done.
  - done.
Qed.

Lemma resolve_raise fuel tax_ids p e :
  resolve fuel tax_ids p = Raise e → e ≠ TypeError.
Proof.
  unfold resolve. destruct tax_ids as [|x [|y rest]];
    [apply find_lca_raise|done|apply find_lca_raise].
Qed.

Lemma add_rank_count_raise fuel read_name cpr tax_ids rk sr p rf e :
  add_rank_count fuel read_name cpr tax_ids rk sr p rf = Raise e →
  e ≠ TypeError.
Proof.
  unfold add_rank_count. case_decide; [done|].
  destruct (resolve fuel tax_ids p) as [t|e'|] eqn:Hres; simpl.
  - destruct (getitem rk t) as [r|e'|] eqn:Hrk; simpl.
    + destruct (getitem sr t) as [s|e'|] eqn:Hsr; simpl; [done| |done].
      intros [= <-]. apply getitem_raise in Hsr as ->. done.
    + intros [= <-]. apply getitem_raise in Hrk as ->. done.
    + done.
  - intros [= <-]. by eapply resolve_raise.
  - done.
Qed.

Lemma add_rank_count_ret fuel read_name cpr tax_ids rk sr p rf ret cpr' rf' :
  add_rank_count fuel read_name cpr tax_ids rk sr p rf = Ok (ret, cpr', rf') →
  tax_ids ≠ [] → is_Some ret.
Proof.
  unfold add_rank_count. case_decide as Hlen.
  { intros _ Hne. by destruct tax_ids. }
  destruct (resolve fuel tax_ids p) as [t|e'|]; simpl; [|done..].
  destruct (getitem rk t) as [r|e'|]; simpl; [|done..].
  destruct (getitem sr t) as [s|e'|]; simpl; [|done..].
  intros [= <- _ _] _. by eexists.
Qed.

Lemma cumulative_loop_raise fuel p x cum e :
  cumulative_loop fuel p x cum = Raise e → e = KeyError.
Proof.
  revert x cum. induction fuel as [|fuel IH]; intros x cum; simpl; [done|].
  case_decide; [done|].
  destruct (getitem p x) as [y|e'|] eqn:Hy; simpl; [apply IH| |done].
  intros [= <-]. by eapply getitem_raise.
Qed.

Lemma main_loop_no_type_error fuel p rk sr reads t :
  Forall (λ kv : string * list Z, kv.2 ≠ []) reads →
  main_loop fuel p rk sr reads t ≠ Raise TypeError.
Proof.
  intros Hall. revert t.
  induction Hall as [|[read_name tax_ids] reads Hne Hall IH]; intros t; simpl.
  - done.
  - destruct (add_rank_count fuel read_name (count_per_rank t) tax_ids rk sr p
                (read_file t)) as [[[ret cpr] rf]|e|] eqn:Hadd; simpl.
    + destruct (add_rank_count_ret _ _ _ _ _ _ _ _ _ _ _ Hadd Hne) as [x ->].
      case_decide.
      * destruct (cumulative_loop fuel p x (cumulative_counts_per_tax_id t))
          as [cum|e|] eqn:Hcum; simpl; [apply IH| |done].
        apply cumulative_loop_raise in Hcum as ->. done.
      * simpl. apply IH.
    + apply add_rank_count_raise in Hadd. congruence.
    + done.
Qed.

(** C10: every candidate set in the dictionary returned by the load is
    non-empty; hence [add_rank_count] on such a set never takes its bare
    [return], and the loop of [main] never compares [None] with 0. *)
Theorem loaded_reads_nonempty (lines : list class_record)
    (d : list (string * list Z)) :
  load_tax_ids_per_read lines = Ok d →
  (∀ read_name tax_ids, (read_name, tax_ids) ∈ d → tax_ids ≠ [])
  ∧ (∀ read_name tax_ids, (read_name, tax_ids) ∈ d →
       ∀ fuel name cpr rk sr p rf ret cpr' rf',
         add_rank_count fuel name cpr tax_ids rk sr p rf = Ok (ret, cpr', rf') →
         is_Some ret)
  ∧ (∀ fuel p rk sr t, main_loop fuel p rk sr d t ≠ Raise TypeError).
Proof.
  intros Hload. unfold load_tax_ids_per_read in Hload.
  apply load_loop_nonempty in Hload; [|constructor].
  assert (Hne : ∀ read_name tax_ids, (read_name, tax_ids) ∈ d → tax_ids ≠ []).
  { intros read_name tax_ids Hin.
    rewrite Forall_forall in Hload. apply (Hload _ Hin). }
  split_and!; [done| |].
  - intros read_name tax_ids Hin fuel name cpr rk sr p rf ret cpr' rf' Hadd.
    eapply add_rank_count_ret; eauto.
  - intros fuel p rk sr t. by apply main_loop_no_type_error.
Qed.

Lemma loaded_reads_nonempty_witness :
  load_tax_ids_per_read demo_lines = Ok [("r1", [3; 4]); ("r2", [0])] ∧
  (∀ read_name tax_ids,
     (read_name, tax_ids) ∈ [("r1", [3; 4]); ("r2", [0])] → tax_ids ≠ [])
  ∧ (∀ read_name tax_ids,
       (read_name, tax_ids) ∈ [("r1", [3; 4]); ("r2", [0])] →
       ∀ fuel name cpr rk sr p rf ret cpr' rf',
         add_rank_count fuel name cpr tax_ids rk sr p rf = Ok (ret, cpr', rf') →
         is_Some ret)
  ∧ (∀ fuel p rk sr t,
       main_loop fuel p rk sr [("r1", [3; 4]); ("r2", [0])] t
       ≠ Raise TypeError).
Proof.
  assert (Hload : load_tax_ids_per_read demo_lines
                  = Ok [("r1", [3; 4]); ("r2", [0])]).
  { vm_compute. reflexivity. }
  split; [exact Hload|].
  exact (loaded_reads_nonempty demo_lines _ Hload).
Defined.

(** ** add_rank_count *)

Lemma elem_of_discard0 tax_ids y :
  y ∈ discard0 tax_ids ↔ y ∈ tax_ids ∧ y ≠ 0.
Proof. unfold discard0. rewrite list_elem_of_filter. tauto. Qed.

Lemma resolve_cases fuel tax_ids p tax_id :
  tax_ids ≠ [] →
  resolve fuel tax_ids p = Ok tax_id ↔
  tax_ids = [tax_id] ∨
  ((2 ≤ length tax_ids)%nat ∧ find_lca fuel (discard0 tax_ids) p = Ok tax_id).
Proof.
  intros Hne. destruct tax_ids as [|x [|y rest]]; [done| |]; simpl.
  - split.
    + intros [= ->]. by left.
    + intros [[= ->]|[Hlen _]]; [done|simpl in Hlen; lia].
  - split.
    + intros Hl. right. split; [lia|done].
    + intros [?|[_ Hl]]; done.
Qed.

(** C8: for a non-empty candidate set, [add_rank_count] succeeds exactly
    when a taxon ID is resolved and both rank maps hold it: the resolved ID
    is the sole member of a one-element set (0 included), and for a larger
    set it is the LCA of the set with 0 discarded; the raw and standard
    rank are then the entries of the two rank maps at the resolved ID, the
    ID is returned, the per-rank count of its standard rank goes up by one
    and one line is written. *)
Theorem add_rank_count_rule (fuel : nat) (read_name : string)
    (cpr : gmap string Z) (tax_ids : list Z) (rk sr : gmap Z string)
    (p : gmap Z Z) (rf : list row)
    (ret : option Z) (cpr' : gmap string Z) (rf' : list row) :
  tax_ids ≠ [] →
  (∀ y, y ∈ discard0 tax_ids ↔ y ∈ tax_ids ∧ y ≠ 0)
  ∧ (add_rank_count fuel read_name cpr tax_ids rk sr p rf = Ok (ret, cpr', rf')
     ↔ ∃ tax_id rank standard_rank,
         (tax_ids = [tax_id] ∨
          ((2 ≤ length tax_ids)%nat ∧
           find_lca fuel (discard0 tax_ids) p = Ok tax_id))
         ∧ rk !! tax_id = Some rank
         ∧ sr !! tax_id = Some standard_rank
         ∧ ret = Some tax_id
         ∧ cpr' = incr cpr standard_rank
         ∧ rf' = rf ++ [Row read_name tax_ids tax_id rank standard_rank]).
Proof.
  intros Hne. split; [apply elem_of_discard0|].
  unfold add_rank_count.
  rewrite decide_False by (by destruct tax_ids).
  split.
  - destruct (resolve fuel tax_ids p) as [t|e|] eqn:Hres; simpl; [|done..].
    unfold getitem.
    destruct (rk !! t) as [r|] eqn:Hrk; simpl; [|done].
    destruct (sr !! t) as [s|] eqn:Hsr; simpl; [|done].
    intros [= <- <- <-]. exists t, r, s.
    apply resolve_cases in Hres; done.
  - intros (t & r & s & Hres & Hrk & Hsr & -> & -> & ->).
    apply resolve_cases in Hres; [|done].
    rewrite Hres. simpl. unfold getitem. rewrite Hrk. simpl.
    by rewrite Hsr.
Qed.

Lemma add_rank_count_rule_witness :
  [3; 4] ≠ ([] : list Z) ∧
  (∀ y, y ∈ discard0 [3; 4] ↔ y ∈ [3; 4] ∧ y ≠ 0)
  ∧ (add_rank_count 2 "r1" ∅ [3; 4] demo_rank demo_rank demo_parent []
       = Ok (Some 2, incr ∅ "genus", [] ++ [Row "r1" [3; 4] 2 "genus" "genus"])
     ↔ ∃ tax_id rank standard_rank,
         ([3; 4] = [tax_id] ∨
          ((2 ≤ length [3; 4])%nat ∧
           find_lca 2 (discard0 [3; 4]) demo_parent = Ok tax_id))
         ∧ demo_rank !! tax_id = Some rank
         ∧ demo_rank !! tax_id = Some standard_rank
         ∧ Some 2 = Some tax_id
         ∧ incr ∅ "genus" = incr ∅ standard_rank
         ∧ [] ++ [Row "r1" [3; 4] 2 "genus" "genus"]
           = [] ++ [Row "r1" [3; 4] tax_id rank standard_rank]).
Proof.
  assert (Hne : [3; 4] ≠ ([] : list Z)) by discriminate.
  split; [exact Hne|].
  exact (add_rank_count_rule 2 "r1" ∅ [3; 4] demo_rank demo_rank demo_parent
           [] (Some 2) (incr ∅ "genus")
           ([] ++ [Row "r1" [3; 4] 2 "genus" "genus"]) Hne).
Defined.

Example demo_add_rank_count :
  add_rank_count 2 "r1" ∅ [3; 4] demo_rank demo_rank demo_parent []
  = Ok (Some 2, incr ∅ "genus", [Row "r1" [3; 4] 2 "genus" "genus"]).
Proof. vm_compute. reflexivity. Qed.

Example demo_add_rank_count_zero :
  add_rank_count 0 "r2" ∅ [0] demo_rank demo_rank demo_parent []
  = Ok (Some 0, incr ∅ "unclassified",
        [Row "r2" [0] 0 "unclassified" "unclassified"]).
Proof. vm_compute. reflexivity. Qed.

Example demo_add_rank_count_discard :
  add_rank_count 2 "r3" ∅ [0; 3] demo_rank demo_rank demo_parent []
  = Ok (Some 3, incr ∅ "species", [Row "r3" [0; 3] 3 "species" "species"]).
Proof. vm_compute. reflexivity. Qed.

(** ** load_tax_info: the parent map and the first pass *)

Lemma parent_loop_app a b m :
  parent_loop (a ++ b) m = parent_loop b (parent_loop a m).
Proof.
  revert m. induction a as [|[[x par] r] a IH]; intros m; simpl; [done|].
  apply IH.
Qed.

Lemma parent_loop_other data m x :
  x ∉ tax_ids_of data → parent_loop data m !! x = m !! x.
Proof.
  revert m. induction data as [|[[y par] r] data IH]; intros m Hx; simpl.
  - done.
  - unfold tax_ids_of in Hx. simpl in Hx. apply not_elem_of_cons in Hx as [Hne Hx].
    rewrite IH by done. by rewrite lookup_insert_ne.
Qed.

Lemma parent_loop_last pre post x par r m :
  x ∉ tax_ids_of post →
  parent_loop (pre ++ (x, par, r) :: post) m !! x = Some par.
Proof.
  intros Hx. rewrite parent_loop_app. simpl.
  rewrite parent_loop_other by done. apply lookup_insert_eq.
Qed.

Lemma parent_loop_dom data m x :
  is_Some (parent_loop data m !! x) ↔ x ∈ tax_ids_of data ∨ is_Some (m !! x).
Proof.
  revert m. induction data as [|[[y par] r] data IH]; intros m; simpl.
  - unfold tax_ids_of. simpl. rewrite elem_of_nil. tauto.
  - rewrite IH. unfold tax_ids_of. simpl. rewrite elem_of_cons.
    destruct (decide (y = x)) as [->|Hne].
    + rewrite lookup_insert_eq. split; [auto|]. intros _. right. by eexists.
    + rewrite lookup_insert_ne by done. split; intros [H|H]; auto.
      destruct H as [H|H]; [congruence|auto].
Qed.

Lemma first_pass_cons r data rk sr :
  first_pass (r :: data) rk sr =
  '(rk', sr') ← first_pass_step r rk sr; first_pass data rk' sr'.
Proof.
  destruct r as [[x par] rank]. unfold first_pass_step. simpl.
  repeat case_decide; done.
Qed.

Lemma first_pass_app a b rk sr :
  first_pass (a ++ b) rk sr =
  '(rk', sr') ← first_pass a rk sr; first_pass b rk' sr'.
Proof.
  revert rk sr. induction a as [|r a IH]; intros rk sr; [done|].
  rewrite <- app_comm_cons, !first_pass_cons.
  destruct (first_pass_step r rk sr) as [[rk1 sr1]|e|]; simpl; [apply IH|done..].
Qed.

Lemma first_pass_raise data rk sr e :
  first_pass data rk sr = Raise e → e = AssertionError.
Proof.
  revert rk sr. induction data as [|[[x par] rank] data IH]; intros rk sr;
    simpl; [done|].
  repeat case_decide; try apply IH. congruence.
Qed.

Lemma first_pass_fuel data rk sr : first_pass data rk sr ≠ OutOfFuel.
Proof.
  revert rk sr. induction data as [|[[x par] rank] data IH]; intros rk sr;
    simpl; [done|].
  repeat case_decide; try apply IH. done.
Qed.

Lemma first_pass_other data rk sr rk' sr' x :
  x ∉ tax_ids_of data → first_pass data rk sr = Ok (rk', sr') →
  rk' !! x = rk !! x ∧ sr' !! x = sr !! x.
Proof.
  revert rk sr. induction data as [|[[y par] rank] data IH]; intros rk sr Hx;
    simpl.
  - by intros [= <- <-].
  - unfold tax_ids_of in Hx. simpl in Hx.
    apply not_elem_of_cons in Hx as [Hne Hx].
    repeat case_decide; try done; intros Hfp; apply IH in Hfp as [-> ->];
      try done; by rewrite ?lookup_insert_ne by done.
Qed.

(** The standard ranks are only ever added to by the second pass. *)
Lemma inherit_loop_keeps tax_id l sr x :
  sr !! tax_id = None → x ≠ tax_id →
  inherit_loop tax_id l sr !! x = sr !! x.
Proof.
  intros Hnone Hne. induction l as [|a l IH]; simpl; [done|].
  destruct (sr !! a); [by rewrite lookup_insert_ne|done].
Qed.

Lemma second_pass_keeps fuel data p sr sr' x v :
  second_pass fuel data p sr = Ok sr' → sr !! x = Some v → sr' !! x = Some v.
Proof.
  revert sr. induction data as [|[[y par] rank] data IH]; intros sr; simpl.
  - by intros [= <-].
  - case_decide as Hy; [apply IH|].
    case_decide; [done|].
    destruct (get_all_ancestors fuel y p) as [l|e|]; simpl; [|done..].
    case_decide; [|done].
    intros Hsp Hx. apply (IH _ Hsp).
    rewrite inherit_loop_keeps; [done| |].
    + by apply eq_None_not_Some.
    + intros ->. apply Hy. by eexists.
Qed.

Lemma first_pass_split pre r post rk sr :
  first_pass (pre ++ r :: post) rk sr =
  '(rk0, sr0) ← first_pass pre rk sr;
  '(rk1, sr1) ← first_pass_step r rk0 sr0;
  first_pass post rk1 sr1.
Proof.
  rewrite first_pass_app.
  destruct (first_pass pre rk sr) as [[rk0 sr0]|e|]; [|done..].
  cbn -[first_pass first_pass_step]. apply first_pass_cons.
Qed.

Lemma first_pass_step_root par rank rk sr :
  first_pass_step (1, par, rank) rk sr =
  if decide (rank ∈ acceptable_ranks)
  then Ok (<[1 := rank]> rk, <[1 := rank]> sr)
  else if decide (1 = par)
       then Ok (<[1 := "root"]> (<[1 := rank]> rk), <[1 := "root"]> sr)
       else Raise AssertionError.
Proof.
  unfold first_pass_step. simpl. repeat case_decide; done.
Qed.

(** C3 (as amended): when construction succeeds, the root's parent entry
    is the parent of its last record; if the rank of that record is not
    one of the seven standard labels, that parent is 1 and taxon ID 1 has
    raw and standard rank "root", and if it is one of the seven the root
    keeps it as raw and as standard rank; a root record with a rank
    outside the seven and a parent other than 1 makes construction fail
    its assertion. *)
Theorem load_tax_info_root (fuel : nat) (pre post : list tree_record)
    (par : Z) (rank : string) :
  1 ∉ tax_ids_of post →
  (∀ p rk sr,
     load_tax_info fuel (pre ++ (1, par, rank) :: post) = Ok (p, rk, sr) →
     p !! 1 = Some par ∧
     (if decide (rank ∈ acceptable_ranks)
      then rk !! 1 = Some rank ∧ sr !! 1 = Some rank
      else par = 1 ∧ rk !! 1 = Some "root" ∧ sr !! 1 = Some "root"))
  ∧ (rank ∉ acceptable_ranks → par ≠ 1 →
     load_tax_info fuel (pre ++ (1, par, rank) :: post)
     = Raise AssertionError).
Proof.
  intros Hpost. unfold load_tax_info.
  rewrite first_pass_split. split.
  - intros p rk sr.
    destruct (first_pass pre _ _) as [[rk0 sr0]|e|]; [|done..].
    cbn -[first_pass first_pass_step]. rewrite first_pass_step_root.
    destruct (decide (rank ∈ acceptable_ranks)) as [Hacc|Hacc]; simpl.
    + destruct (first_pass post _ _) as [[rk1 sr1]|e|] eqn:H1; simpl; [|done..].
      destruct (second_pass _ _ _ _) as [sr2|e|] eqn:H2; simpl; [|done..].
      intros [= <- <- <-].
      apply (first_pass_other _ _ _ _ _ 1) in H1 as [Hrk Hsr]; [|done].
      rewrite lookup_insert_eq in Hrk, Hsr.
      split_and!; [by apply parent_loop_last|done|].
      by eapply second_pass_keeps.
    + destruct (decide (1 = par)) as [<-|Hpar]; [|done]. simpl.
      destruct (first_pass post _ _) as [[rk1 sr1]|e|] eqn:H1; simpl; [|done..].
      destruct (second_pass _ _ _ _) as [sr2|e|] eqn:H2; simpl; [|done..].
      intros [= <- <- <-].
      apply (first_pass_other _ _ _ _ _ 1) in H1 as [Hrk Hsr]; [|done].
      rewrite lookup_insert_eq in Hrk, Hsr.
      split_and!; [by apply parent_loop_last|done..|].
      by eapply second_pass_keeps.
  - intros Hacc Hpar.
    destruct (first_pass pre _ _) as [[rk0 sr0]|e|] eqn:H0.
    + cbn -[first_pass first_pass_step]. rewrite first_pass_step_root.
      rewrite decide_False by done. by rewrite decide_False by done.
    + by apply first_pass_raise in H0 as ->.
    + by apply first_pass_fuel in H0.
Qed.

Lemma load_tax_info_root_witness :
  (1 ∉ tax_ids_of [(2, 1, "genus"); (3, 2, "species"); (4, 2, "species")]) ∧
  (∀ p rk sr,
     load_tax_info 2 ([] ++ ((1, 1, "no rank") ::
       [(2, 1, "genus"); (3, 2, "species"); (4, 2, "species")]))
     = Ok (p, rk, sr) →
     p !! 1 = Some 1 ∧
     (if decide ("no rank" ∈ acceptable_ranks)
      then rk !! 1 = Some "no rank" ∧ sr !! 1 = Some "no rank"
      else 1 = 1 ∧ rk !! 1 = Some "root" ∧ sr !! 1 = Some "root"))
  ∧ ("no rank" ∉ acceptable_ranks → 1 ≠ 1 →
     load_tax_info 2 ([] ++ ((1, 1, "no rank") ::
       [(2, 1, "genus"); (3, 2, "species"); (4, 2, "species")]))
     = Raise AssertionError).
Proof.
  assert (Hpost :
    1 ∉ tax_ids_of [(2, 1, "genus"); (3, 2, "species"); (4, 2, "species")]).
  { unfold tax_ids_of. simpl.
    repeat (apply not_elem_of_cons; split; [done|]). apply not_elem_of_nil. }
  split; [exact Hpost|].
  exact (load_tax_info_root 2 [] _ 1 "no rank" Hpost).
Defined.

(** The claim as first stated fails on a root record whose rank is one of
    the seven labels: the root is then "domain", not "root", and a parent
    other than 1 passes unchecked. *)
Lemma load_tax_info_root_counterexample :
  ¬ (∀ (tree_data : list tree_record) fuel p rk sr,
       load_tax_info fuel tree_data = Ok (p, rk, sr) →
       is_Some (rk !! 1) →
       rk !! 1 = Some "root" ∧ sr !! 1 = Some "root" ∧ p !! 1 = Some 1).
Proof.
  intros Hclaim.
  destruct (Hclaim [(1, 5, "domain")] O
              {[1 := 5]} (<[1 := "domain"]> {[0 := "unclassified"]})
              (<[1 := "domain"]> {[0 := "unclassified"]}))
    as (Hrk & _ & _).
  - vm_compute. reflexivity.
  - exists "domain". vm_compute. reflexivity.
  - vm_compute in Hrk. discriminate Hrk.
Qed.

(** ** load_tax_info: standard ranks *)

Lemma first_pass_step_eq x par rank rk sr rk' sr' :
  first_pass_step (x, par, rank) rk sr = Ok (rk', sr') →
  rk' !! x = Some (kept_rank x rank)
  ∧ sr' !! x = match own_rank x rank with Some l => Some l | None => sr !! x end.
Proof.
  unfold first_pass_step, kept_rank, own_rank. simpl.
  repeat case_decide; try done; intros [= <- <-]; subst;
    by rewrite ?lookup_insert_eq.
Qed.

Lemma tax_ids_of_app a b : tax_ids_of (a ++ b) = tax_ids_of a ++ tax_ids_of b.
Proof. unfold tax_ids_of. apply fmap_app. Qed.

Lemma elem_of_tax_ids_of data x :
  x ∈ tax_ids_of data ↔ ∃ par rank, (x, par, rank) ∈ data.
Proof.
  unfold tax_ids_of. rewrite list_elem_of_fmap. split.
  - intros ([[y par] rank] & -> & Hin). by exists par, rank.
  - intros (par & rank & Hin). by exists (x, par, rank).
Qed.

Lemma record_split data x par rank :
  NoDup (tax_ids_of data) → (x, par, rank) ∈ data →
  ∃ pre post, data = pre ++ ((x, par, rank) :: post)
    ∧ (x ∉ tax_ids_of pre) ∧ (x ∉ tax_ids_of post).
Proof.
  intros Hnd Hin. apply list_elem_of_split in Hin as (pre & post & ->).
  exists pre, post. split; [done|].
  rewrite tax_ids_of_app in Hnd. apply NoDup_app in Hnd as (_ & Hdisj & Hpost).
  unfold tax_ids_of in Hpost at 1. simpl in Hpost.
  apply NoDup_cons in Hpost as [Hpost _]. split; [|done].
  intros Hpre. apply (Hdisj x Hpre). left.
Qed.

(** What the first pass leaves at the node of a record. *)
Lemma first_pass_record data x par rank rk sr rk' sr' :
  NoDup (tax_ids_of data) → (x, par, rank) ∈ data →
  first_pass data rk sr = Ok (rk', sr') →
  rk' !! x = Some (kept_rank x rank)
  ∧ sr' !! x = match own_rank x rank with Some l => Some l | None => sr !! x end.
Proof.
  intros Hnd Hin Hfp.
  destruct (record_split data x par rank Hnd Hin)
    as (pre & post & -> & Hpre & Hpost).
  rewrite first_pass_split in Hfp.
  destruct (first_pass pre rk sr) as [[rk0 sr0]|e|] eqn:H0; [|done..].
  cbn -[first_pass first_pass_step] in Hfp.
  destruct (first_pass_step (x, par, rank) rk0 sr0) as [[rk1 sr1]|e|] eqn:H1;
    [|done..].
  cbn -[first_pass first_pass_step] in Hfp.
  apply (first_pass_other _ _ _ _ _ x) in H0 as [_ Hsr0]; [|done].
  apply (first_pass_other _ _ _ _ _ x) in Hfp as [-> ->]; [|done].
  apply first_pass_step_eq in H1 as [-> ->]. by rewrite Hsr0.
Qed.

Lemma parent_loop_record data x par rank :
  NoDup (tax_ids_of data) → (x, par, rank) ∈ data →
  parent_loop data ∅ !! x = Some par.
Proof.
  intros Hnd Hin.
  destruct (record_split data x par rank Hnd Hin)
    as (pre & post & -> & Hpre & Hpost).
  by apply parent_loop_last.
Qed.

Lemma acceptable_in_ranks r : r ∈ acceptable_ranks → r ∈ ranks.
Proof. intros Hr. by do 2 apply list_elem_of_further. Qed.

Lemma root_in_ranks : "root" ∈ ranks.
Proof. apply list_elem_of_further, list_elem_of_here. Qed.

Lemma unclassified_in_ranks : "unclassified" ∈ ranks.
Proof. apply list_elem_of_here. Qed.

Lemma root_not_acceptable : "root" ∉ acceptable_ranks.
Proof.
  intros H. repeat (apply elem_of_cons in H as [H|H]; [discriminate|]).
  by apply elem_of_nil in H.
Qed.

Lemma unclassified_not_acceptable : "unclassified" ∉ acceptable_ranks.
Proof.
  intros H. repeat (apply elem_of_cons in H as [H|H]; [discriminate|]).
  by apply elem_of_nil in H.
Qed.

Section first_pass_result.
Context (data : list tree_record) (rk S1 : gmap Z string).
Context (Hnd : NoDup (tax_ids_of data)).
Context (Hroot : 1 ∈ tax_ids_of data).
Context (Hfp : first_pass data {[0 := "unclassified"]} {[0 := "unclassified"]}
               = Ok (rk, S1)).

Lemma first_pass_absent x :
  x ∉ tax_ids_of data →
  rk !! x = ({[0 := "unclassified"]} : gmap Z string) !! x
  ∧ S1 !! x = ({[0 := "unclassified"]} : gmap Z string) !! x.
Proof. intros Hx. by eapply first_pass_other. Qed.

(** After the first pass the nodes with a standard rank are exactly
    those with [has_own_rank]. *)
Lemma first_pass_has x : is_Some (S1 !! x) ↔ has_own_rank rk x.
Proof.
  destruct (decide (x ∈ tax_ids_of data)) as [Hin|Hout].
  - apply elem_of_tax_ids_of in Hin as (par & rank & Hin).
    destruct (first_pass_record _ _ _ _ _ _ _ _ Hnd Hin Hfp) as [Hrk HS].
    rewrite HS. unfold has_own_rank. rewrite Hrk.
    unfold own_rank, kept_rank.
    destruct (decide (rank ∈ acceptable_ranks)) as [Hacc|Hacc].
    { split; [|by eexists]. intros _. right. right. by exists rank. }
    destruct (decide (x = 1)) as [->|Hx1].
    { split; [|by eexists]. intros _. right. by left. }
    destruct (decide (x = 0)) as [->|Hx0].
    { rewrite lookup_singleton_eq. split; [|by eexists]. intros _. by left. }
    rewrite lookup_singleton_ne by done. split.
    + by intros [? ?].
    + intros [?|[?|(r & [= <-] & ?)]]; done.
  - destruct (first_pass_absent x Hout) as [Hrk HS].
    rewrite HS. unfold has_own_rank. rewrite Hrk.
    destruct (decide (x = 0)) as [->|Hx0].
    { rewrite lookup_singleton_eq. split; [|by eexists]. intros _. by left. }
    rewrite lookup_singleton_ne by done. split.
    + by intros [? ?].
    + intros [?|[->|(r & [=] & ?)]]; done.
Qed.

(** The standard rank given by the first pass, case by case. *)
Lemma first_pass_own x label :
  S1 !! x = Some label →
  (∃ raw, raw ∈ acceptable_ranks ∧ rk !! x = Some raw ∧ label = raw)
  ∨ (x = 1 ∧ label = "root" ∧ rk !! 1 = Some "root")
  ∨ (x = 0 ∧ label = "unclassified").
Proof.
  destruct (decide (x ∈ tax_ids_of data)) as [Hin|Hout].
  - apply elem_of_tax_ids_of in Hin as (par & rank & Hin).
    destruct (first_pass_record _ _ _ _ _ _ _ _ Hnd Hin Hfp) as [Hrk HS].
    rewrite HS. revert Hrk. unfold own_rank, kept_rank.
    destruct (decide (rank ∈ acceptable_ranks)) as [Hacc|Hacc].
    { intros Hrk [= <-]. left. by exists rank. }
    destruct (decide (x = 1)) as [->|Hx1].
    { intros Hrk [= <-]. right. by left. }
    intros _ Hl. apply lookup_singleton_Some in Hl as [<- <-].
    right. by right.
  - destruct (first_pass_absent x Hout) as [_ HS]. rewrite HS.
    intros Hl. apply lookup_singleton_Some in Hl as [<- <-].
    right. by right.
Qed.

Lemma first_pass_label_in_ranks x label : S1 !! x = Some label → label ∈ ranks.
Proof.
  intros [(raw & Hacc & _ & ->)|[(_ & -> & _)|(_ & ->)]]%first_pass_own.
  - by apply acceptable_in_ranks.
  - apply root_in_ranks.
  - apply unclassified_in_ranks.
Qed.

(** A raw rank among the seven is the first-pass standard rank. *)
Lemma first_pass_acceptable x raw :
  rk !! x = Some raw → raw ∈ acceptable_ranks → S1 !! x = Some raw.
Proof.
  intros Hrk Hacc.
  assert (Hhas : is_Some (S1 !! x)).
  { apply first_pass_has. right. right. by exists raw. }
  destruct Hhas as [label Hl]. rewrite Hl. f_equal.
  destruct (first_pass_own _ _ Hl)
    as [(raw' & _ & Hrk' & ->)|[(-> & -> & Hr)|(-> & ->)]].
  - congruence.
  - rewrite Hr in Hrk. injection Hrk as <-.
    by apply root_not_acceptable in Hacc.
  - destruct (decide (0 ∈ tax_ids_of data)) as [Hin|Hout].
    + apply elem_of_tax_ids_of in Hin as (par & rank & Hin).
      destruct (first_pass_record _ _ _ _ _ _ _ _ Hnd Hin Hfp) as [Hrk0 HS].
      rewrite Hrk0 in Hrk. injection Hrk as <-.
      revert HS Hacc. unfold own_rank, kept_rank.
      destruct (decide (rank ∈ acceptable_ranks)); [|done].
      rewrite Hl. by intros [= ->].
    + destruct (first_pass_absent 0 Hout) as [Hrk0 _].
      rewrite Hrk0, lookup_singleton_eq in Hrk. injection Hrk as <-.
      by apply unclassified_not_acceptable in Hacc.
Qed.
End first_pass_result.

Lemma nearest_iff p (has has' : Z → Prop) x a :
  (∀ y, has y ↔ has' y) → nearest p has x a → nearest p has' x a.
Proof.
  intros Hiff. induction 1 as [x Hx|x y a Hx Hp Hn IH].
  - apply nearest_here. by apply Hiff.
  - eapply nearest_up; [|done..]. by rewrite <- Hiff.
Qed.

Lemma nearest_fun p has x a b :
  nearest p has x a → nearest p has x b → a = b.
Proof.
  intros Ha. revert b. induction Ha as [x Hx|x y a Hx Hp Hn IH]; intros b Hb.
  - by destruct Hb.
  - destruct Hb as [x Hx'|x y' b Hx' Hp' Hb]; [done|].
    apply IH. congruence.
Qed.

Lemma nearest_has p has x a : nearest p has x a → has a.
Proof. by induction 1. Qed.

Section second_pass_result.
Context (p : gmap Z Z) (S1 : gmap Z string).

Lemma standard_rank_inv_init : standard_rank_inv p S1 S1.
Proof.
  split; [done|]. intros x v Hx. exists x. split; [|done].
  apply nearest_here. by eexists.
Qed.

(** The inner loop over a chain either finds nothing or copies the rank of
    the nearest node that has one. *)
Lemma inherit_walk tax_id y l sr :
  walk p y l → standard_rank_inv p S1 sr → sr !! tax_id = None →
  is_Some (inherit_loop tax_id l sr !! tax_id) →
  ∃ a v, nearest p (λ z, is_Some (S1 !! z)) y a ∧ S1 !! a = Some v
         ∧ inherit_loop tax_id l sr = <[tax_id := v]> sr.
Proof.
  intros Hw [Hsub Hinv] Hnone.
  induction Hw as [|y z l Hy Hp Hw IH]; simpl.
  - destruct (sr !! 1) as [v|] eqn:H1.
    + intros _. destruct (Hinv 1 v H1) as (a & Ha & HS). by exists a, v.
    + rewrite Hnone. by intros [? ?].
  - destruct (sr !! y) as [v|] eqn:Hsr.
    + intros _. destruct (Hinv y v Hsr) as (a & Ha & HS). by exists a, v.
    + intros Hsome. destruct (IH Hsome) as (a & v & Ha & HS & Heq).
      exists a, v. split_and!; [|done..].
      eapply nearest_up; [|done..].
      intros Hhas. apply Hsub in Hhas. rewrite Hsr in Hhas. by destruct Hhas.
Qed.

Lemma second_pass_inv fuel data sr sr' :
  second_pass fuel data p sr = Ok sr' →
  standard_rank_inv p S1 sr → standard_rank_inv p S1 sr'.
Proof.
  revert sr. induction data as [|[[x par] rank] data IH]; intros sr; simpl.
  - by intros [= <-].
  - case_decide as Hx; [apply IH|].
    case_decide; [done|].
    destruct (get_all_ancestors fuel x p) as [l|e|] eqn:Hl; simpl; [|done..].
    case_decide as Hfound; [|done].
    intros Hsp Hinv. apply (IH _ Hsp).
    apply get_all_ancestors_inv in Hl as [Hw _].
    apply eq_None_not_Some in Hx.
    destruct (inherit_walk x x l sr Hw Hinv Hx Hfound)
      as (a & v & Ha & HS & ->).
    destruct Hinv as [Hsub Hinv]. split.
    + intros z Hz. destruct (decide (z = x)) as [->|Hne].
      * rewrite lookup_insert_eq. by eexists.
      * rewrite lookup_insert_ne by done. by apply Hsub.
    + intros z w. destruct (decide (z = x)) as [->|Hne].
      * rewrite lookup_insert_eq. intros [= <-]. by exists a.
      * rewrite lookup_insert_ne by done. apply Hinv.
Qed.

Lemma second_pass_dom fuel data sr sr' x :
  second_pass fuel data p sr = Ok sr' → x ∈ tax_ids_of data →
  is_Some (sr' !! x).
Proof.
  revert sr. induction data as [|[[y par] rank] data IH]; intros sr; simpl.
  - intros _ Hx. by apply elem_of_nil in Hx.
  - unfold tax_ids_of. simpl. fold (tax_ids_of data).
    case_decide as Hy.
    { intros Hsp [->|Hx]%elem_of_cons; [|by eapply IH].
      destruct Hy as [v Hv]. exists v. by eapply second_pass_keeps. }
    case_decide; [done|].
    destruct (get_all_ancestors fuel y p) as [l|e|] eqn:Hl; simpl; [|done..].
    case_decide as Hfound; [|done].
    intros Hsp [->|Hx]%elem_of_cons; [|by eapply IH].
    destruct Hfound as [v Hv]. exists v. by eapply second_pass_keeps.
Qed.
End second_pass_result.

(** C2: after construction from records with pairwise distinct taxon IDs
    that include the root, every taxon ID of the records, and 0, has a
    standard rank among the nine labels; it is the node's raw rank when
    that is one of the seven standard labels, and in every case it is the
    standard rank of the nearest node, climbing parent links from the node
    itself, that has a standard rank of its own (one of the seven as raw
    rank, or the root with "root", or 0 with "unclassified"). *)
Theorem load_tax_info_standard_rank (fuel : nat) (tree_data : list tree_record)
    (p : gmap Z Z) (rk sr : gmap Z string) (x : Z) :
  NoDup (tax_ids_of tree_data) → 1 ∈ tax_ids_of tree_data →
  load_tax_info fuel tree_data = Ok (p, rk, sr) →
  x ∈ tax_ids_of tree_data ∨ x = 0 →
  ∃ label,
    sr !! x = Some label
    ∧ label ∈ ranks
    ∧ (∀ raw, rk !! x = Some raw → raw ∈ acceptable_ranks → label = raw)
    ∧ ∃ a,
        nearest p (has_own_rank rk) x a
        ∧ (∀ b, nearest p (has_own_rank rk) x b → b = a)
        ∧ sr !! a = Some label
        ∧ ((∃ raw, raw ∈ acceptable_ranks ∧ rk !! a = Some raw ∧ label = raw)
           ∨ (a = 1 ∧ label = "root" ∧ rk !! 1 = Some "root")
           ∨ (a = 0 ∧ label = "unclassified")).
Proof.
  intros Hnd Hroot Hload Hx. unfold load_tax_info in Hload.
  destruct (first_pass tree_data _ _) as [[rk1 S1]|e|] eqn:Hfp; [|done..].
  cbn -[first_pass second_pass] in Hload.
  destruct (second_pass fuel tree_data _ S1) as [sr2|e|] eqn:Hsp; [|done..].
  cbn in Hload. injection Hload as <- <- <-.
  pose proof (second_pass_inv _ S1 _ _ _ _ Hsp (standard_rank_inv_init _ S1))
    as [Hsub Hinv].
  assert (Hsome : is_Some (sr2 !! x)).
  { destruct Hx as [Hx| ->]; [by eapply second_pass_dom|].
    apply Hsub. eapply first_pass_has; eauto. by left. }
  destruct Hsome as [label Hlabel]. exists label.
  destruct (Hinv x label Hlabel) as (a & Ha & HS).
  split_and!; [done| | |].
  - by eapply first_pass_label_in_ranks.
  - intros raw Hraw Hacc.
    assert (HS1 : S1 !! x = Some raw) by (eapply first_pass_acceptable; eauto).
    pose proof (second_pass_keeps _ _ _ _ _ _ _ Hsp HS1). congruence.
  - assert (Ha' : nearest (parent_loop tree_data ∅) (has_own_rank rk1) x a).
    { eapply nearest_iff; [|exact Ha]. intros y. by eapply first_pass_has. }
    exists a. split_and!; [done| | |].
    + intros b Hb. by eapply nearest_fun.
    + by eapply second_pass_keeps.
    + by eapply first_pass_own.
Qed.

Lemma load_tax_info_standard_rank_witness :
  NoDup (tax_ids_of deep_tree) ∧ 1 ∈ tax_ids_of deep_tree ∧
  load_tax_info 3 deep_tree = Ok (deep_parent, deep_rank, deep_standard_rank) ∧
  (6 ∈ tax_ids_of deep_tree ∨ 6 = 0) ∧
  ∃ label,
    deep_standard_rank !! 6 = Some label
    ∧ label ∈ ranks
    ∧ (∀ raw, deep_rank !! 6 = Some raw → raw ∈ acceptable_ranks → label = raw)
    ∧ ∃ a,
        nearest deep_parent (has_own_rank deep_rank) 6 a
        ∧ (∀ b, nearest deep_parent (has_own_rank deep_rank) 6 b → b = a)
        ∧ deep_standard_rank !! a = Some label
        ∧ ((∃ raw, raw ∈ acceptable_ranks ∧ deep_rank !! a = Some raw
                   ∧ label = raw)
           ∨ (a = 1 ∧ label = "root" ∧ deep_rank !! 1 = Some "root")
           ∨ (a = 0 ∧ label = "unclassified")).
Proof.
  assert (Hnd : NoDup (tax_ids_of deep_tree)).
  { unfold tax_ids_of, deep_tree. simpl.
    repeat (apply NoDup_cons; split;
      [repeat (apply not_elem_of_cons; split; [done|]); apply not_elem_of_nil|]).
    apply NoDup_nil_2. }
  assert (Hroot : 1 ∈ tax_ids_of deep_tree).
  { unfold tax_ids_of, deep_tree. simpl.
    apply list_elem_of_further, list_elem_of_here. }
  assert (Hload : load_tax_info 3 deep_tree
                  = Ok (deep_parent, deep_rank, deep_standard_rank)).
  { vm_compute. reflexivity. }
  assert (Hx : 6 ∈ tax_ids_of deep_tree ∨ 6 = 0).
  { left. unfold tax_ids_of, deep_tree. simpl. apply list_elem_of_here. }
  split; [exact Hnd|]. split; [exact Hroot|]. split; [exact Hload|].
  split; [exact Hx|].
  exact (load_tax_info_standard_rank 3 deep_tree deep_parent deep_rank
           deep_standard_rank 6 Hnd Hroot Hload Hx).
Defined.

(** ** The loop of main: cumulative counts *)

Lemma getdefault_incr_eq {K} `{Countable K} (d : gmap K Z) k :
  getdefault (incr d k) k = getdefault d k + 1.
Proof. unfold incr, getdefault at 1. by rewrite lookup_insert_eq. Qed.

Lemma getdefault_incr_ne {K} `{Countable K} (d : gmap K Z) k k' :
  k ≠ k' → getdefault (incr d k) k' = getdefault d k'.
Proof.
  intros Hne. unfold incr, getdefault at 1. by rewrite lookup_insert_ne.
Qed.

(** One classified read adds exactly one to the root's count. *)
Lemma cumulative_loop_root fuel p x cum cum' :
  cumulative_loop fuel p x cum = Ok cum' →
  getdefault cum' 1 = getdefault cum 1 + 1.
Proof.
  revert x cum. induction fuel as [|fuel IH]; intros x cum; simpl; [done|].
  case_decide as Hx.
  - intros [= <-]. subst. apply getdefault_incr_eq.
  - destruct (getitem p x) as [y|e|]; simpl; [|done..].
    intros Hrec. apply IH in Hrec. by rewrite getdefault_incr_ne in Hrec.
Qed.

Lemma main_loop_cons fuel p rk sr read_name tax_ids rest t :
  main_loop fuel p rk sr ((read_name, tax_ids) :: rest) t =
  '(ret, cpr, rf) ←
    add_rank_count fuel read_name (count_per_rank t) tax_ids rk sr p
      (read_file t);
  match ret with
  | None => Raise TypeError
  | Some tax_id =>
      cum ← (if decide (tax_id > 0)
             then cumulative_loop fuel p tax_id (cumulative_counts_per_tax_id t)
             else Ok (cumulative_counts_per_tax_id t));
      main_loop fuel p rk sr rest (Tables cpr cum rf)
  end.
Proof. done. Qed.

(** What one iteration of the loop does to the tables. *)
Lemma main_loop_step fuel p rk sr read_name tax_ids rest t t' :
  main_loop fuel p rk sr ((read_name, tax_ids) :: rest) t = Ok t' →
  ∃ x rank standard_rank cum,
    resolve fuel tax_ids p = Ok x
    ∧ tax_ids ≠ []
    ∧ rk !! x = Some rank ∧ sr !! x = Some standard_rank
    ∧ (if decide (x > 0)
       then cumulative_loop fuel p x (cumulative_counts_per_tax_id t) = Ok cum
       else cum = cumulative_counts_per_tax_id t)
    ∧ main_loop fuel p rk sr rest
        (Tables (incr (count_per_rank t) standard_rank) cum
           (read_file t ++ [Row read_name tax_ids x rank standard_rank]))
      = Ok t'.
Proof.
  rewrite main_loop_cons. unfold add_rank_count.
  case_decide as Hlen; [done|].
  destruct (resolve fuel tax_ids p) as [x|e|] eqn:Hres; [|done..].
  cbn -[main_loop]. unfold getitem.
  destruct (rk !! x) as [rank|] eqn:Hrk; [|done]. cbn -[main_loop].
  destruct (sr !! x) as [standard_rank|] eqn:Hsr; [|done]. cbn -[main_loop].
  intros Hrest.
  assert (Hne : tax_ids ≠ []) by (by intros ->).
  destruct (decide (x > 0)) as [Hpos|Hpos].
  - destruct (cumulative_loop fuel p x _) as [cum|e|] eqn:Hcum; [|done..].
    exists x, rank, standard_rank, cum. by rewrite decide_True by done.
  - exists x, rank, standard_rank, (cumulative_counts_per_tax_id t).
    by rewrite decide_False by done.
Qed.

Lemma count_classified_cons x resolved :
  count_classified (x :: resolved) =
  (if decide (x > 0) then 1 else 0) + count_classified resolved.
Proof.
  unfold count_classified. rewrite filter_cons.
  case_decide; simpl length; lia.
Qed.

(** The root's count and the lines written, from any starting tables. *)
Lemma main_loop_root fuel p rk sr reads t t' :
  main_loop fuel p rk sr reads t = Ok t' →
  ∃ resolved,
    Forall2 (λ (kv : string * list Z) x, resolve fuel kv.2 p = Ok x)
      reads resolved
    ∧ row_tax_id <$> read_file t' = (row_tax_id <$> read_file t) ++ resolved
    ∧ getdefault (cumulative_counts_per_tax_id t') 1
      = getdefault (cumulative_counts_per_tax_id t) 1
        + count_classified resolved.
Proof.
  revert t. induction reads as [|[read_name tax_ids] reads IH]; intros t.
  - intros [= <-]. exists []. split_and!; [constructor| |].
    + by rewrite app_nil_r.
    + unfold count_classified. simpl. lia.
  - intros (x & rank & standard_rank & cum & Hres & _ & _ & _ & Hcum & Hrest)
      %main_loop_step.
    apply IH in Hrest as (resolved & Hall & Hrows & Hroot).
    simpl in Hrows, Hroot.
    exists (x :: resolved). split_and!.
    + by constructor.
    + rewrite Hrows, fmap_app, <- app_assoc. done.
    + rewrite Hroot, count_classified_cons.
      destruct (decide (x > 0)) as [Hpos|Hpos].
      * apply cumulative_loop_root in Hcum. lia.
      * subst cum. lia.
Qed.

(** C5: after the loop of [main] has processed every read, starting from
    empty tables, the cumulative count of taxon ID 1 is the number of
    reads whose resolved taxon ID is positive, the resolved IDs being
    those written to the per-read table; a read whose resolved taxon ID
    is 0 (or negative) leaves the cumulative table as it was. *)
Theorem cumulative_root_count (fuel : nat) (p : gmap Z Z)
    (rk sr : gmap Z string) (reads : list (string * list Z)) (t : tables) :
  main_loop fuel p rk sr reads (Tables ∅ ∅ []) = Ok t →
  (∃ resolved,
     Forall2 (λ (kv : string * list Z) x, resolve fuel kv.2 p = Ok x)
       reads resolved
     ∧ row_tax_id <$> read_file t = resolved
     ∧ getdefault (cumulative_counts_per_tax_id t) 1
       = count_classified resolved)
  ∧ (∀ read_name tax_ids t0 t1 x,
       main_loop fuel p rk sr [(read_name, tax_ids)] t0 = Ok t1 →
       resolve fuel tax_ids p = Ok x → x ≤ 0 →
       cumulative_counts_per_tax_id t1 = cumulative_counts_per_tax_id t0).
Proof.
  intros Hmain. split.
  - apply main_loop_root in Hmain as (resolved & Hall & Hrows & Hroot).
    exists resolved. split_and!; [done..|].
    rewrite Hroot. simpl. unfold getdefault. by rewrite lookup_empty.
  - intros read_name tax_ids t0 t1 x
      (x' & rank & standard_rank & cum & Hres & _ & _ & _ & Hcum & Hrest)
      %main_loop_step Hx Hle.
    simpl in Hrest. injection Hrest as <-. simpl.
    assert (x' = x) as -> by congruence.
    by rewrite decide_False in Hcum by lia.
Qed.

Lemma cumulative_root_count_witness :
  main_loop 2 demo_parent demo_rank demo_rank demo_reads (Tables ∅ ∅ [])
  = Ok demo_tables ∧
  (∃ resolved,
     Forall2 (λ (kv : string * list Z) x, resolve 2 kv.2 demo_parent = Ok x)
       demo_reads resolved
     ∧ row_tax_id <$> read_file demo_tables = resolved
     ∧ getdefault (cumulative_counts_per_tax_id demo_tables) 1
       = count_classified resolved)
  ∧ (∀ read_name tax_ids t0 t1 x,
       main_loop 2 demo_parent demo_rank demo_rank [(read_name, tax_ids)] t0
       = Ok t1 →
       resolve 2 tax_ids demo_parent = Ok x → x ≤ 0 →
       cumulative_counts_per_tax_id t1 = cumulative_counts_per_tax_id t0).
Proof.
  assert (Hmain :
    main_loop 2 demo_parent demo_rank demo_rank demo_reads (Tables ∅ ∅ [])
    = Ok demo_tables).
  { vm_compute. reflexivity. }
  split; [exact Hmain|].
  exact (cumulative_root_count 2 demo_parent demo_rank demo_rank demo_reads
           demo_tables Hmain).
Defined.

(** ** The per-rank counts *)

Lemma sum_values_insert {K} `{Countable K} (d : gmap K Z) k v :
  d !! k = None → sum_values (<[k := v]> d) = v + sum_values d.
Proof.
  intros Hk. unfold sum_values.
  rewrite map_fold_insert_L; [done| |done]. intros. lia.
Qed.

Lemma sum_values_delete {K} `{Countable K} (d : gmap K Z) k :
  sum_values d = getdefault d k + sum_values (delete k d).
Proof.
  unfold getdefault. destruct (d !! k) as [v|] eqn:Hk; simpl.
  - unfold sum_values. rewrite (map_fold_delete_L _ _ k v d); [done| |done].
    intros. lia.
  - by rewrite delete_id.
Qed.

Lemma sum_values_incr {K} `{Countable K} (d : gmap K Z) k :
  sum_values (incr d k) = sum_values d + 1.
Proof.
  unfold incr. rewrite <- (insert_delete_eq d).
  rewrite sum_values_insert by apply lookup_delete_eq.
  rewrite (sum_values_delete d k). lia.
Qed.

Lemma sum_over_delete_notin rs (d : gmap string Z) k :
  k ∉ rs → sum_over rs (delete k d) = sum_over rs d.
Proof.
  induction rs as [|r rs IH]; intros Hk; simpl; [done|].
  apply not_elem_of_cons in Hk as [Hne Hk]. rewrite IH by done.
  unfold getdefault. by rewrite lookup_delete_ne.
Qed.

(** Summing over a duplicate-free list of keys that covers the dictionary
    is summing its values. *)
Lemma sum_values_sum_over rs (d : gmap string Z) :
  NoDup rs → (∀ k, is_Some (d !! k) → k ∈ rs) →
  sum_values d = sum_over rs d.
Proof.
  intros Hnd. revert d. induction Hnd as [|r rs Hr Hnd IH]; intros d Hdom.
  - assert (d = ∅) as ->.
    { apply map_empty. intros k. apply eq_None_not_Some. intros Hk.
      apply Hdom in Hk. by apply elem_of_nil in Hk. }
    unfold sum_values. by rewrite map_fold_empty.
  - simpl. rewrite (sum_values_delete d r). f_equal.
    rewrite (IH (delete r d)).
    + by apply sum_over_delete_notin.
    + intros k [v Hk]. apply lookup_delete_Some in Hk as [Hne Hk].
      assert (Hin : k ∈ r :: rs) by (apply Hdom; by eexists).
      apply elem_of_cons in Hin as [->|Hin]; done.
Qed.

Lemma ranks_NoDup : NoDup ranks.
Proof.
  unfold ranks.
  repeat (apply NoDup_cons; split;
    [intros H; repeat (apply elem_of_cons in H as [H|H]; [discriminate|]);
     by apply elem_of_nil in H|]).
  apply NoDup_nil_2.
Qed.

(** The loop of the summary line. *)
Lemma summary_loop_spec rs cpr total tc0 s0 :
  summary_loop rs cpr total tc0 s0 =
  if decide (total = 0 ∧ rs ≠ []) then Raise ZeroDivisionError
  else Ok (tc0 + sum_over rs cpr, s0 ++ (getdefault cpr <$> rs)).
Proof.
  revert tc0 s0. induction rs as [|r rs IH]; intros tc0 s0; simpl.
  - rewrite decide_False by (by intros [_ ?]).
    by rewrite Z.add_0_r, app_nil_r.
  - destruct (decide (total = 0)) as [->|Hne].
    + by rewrite decide_True.
    + rewrite IH. rewrite !decide_False by (by intros [? _]).
      by rewrite Z.add_assoc, <- app_assoc.
Qed.

Lemma rank_tax_ids_loop_raise items rk acc e :
  rank_tax_ids_loop items rk acc = Raise e → e = KeyError.
Proof.
  revert acc. induction items as [|[x c] items IH]; intros acc; simpl; [done|].
  case_decide; [|apply IH].
  destruct (getitem rk x) as [r|e'|] eqn:Hr; simpl.
  - case_decide; apply IH.
  - intros [= <-]. by eapply getitem_raise.
  - done.
Qed.

(** The sanity check of [write_summary] passes whenever the counted
    standard ranks are among the nine and add up to the read count. *)
Lemma write_summary_no_assert read_count cpr cum rk :
  (∀ k, is_Some (cpr !! k) → k ∈ ranks) → sum_values cpr = read_count →
  write_summary read_count cpr cum rk ≠ Raise AssertionError.
Proof.
  intros Hdom Hsum. unfold write_summary.
  destruct (rank_tax_ids_loop _ rk ∅) as [rti|e|] eqn:Hrti.
  - cbn -[summary_loop]. rewrite summary_loop_spec.
    case_decide; [done|]. cbn -[sum_over].
    rewrite <- (sum_values_sum_over ranks cpr ranks_NoDup Hdom).
    unfold assert_that. by rewrite decide_True by lia.
  - apply rank_tax_ids_loop_raise in Hrti as ->. done.
  - done.
Qed.

(** Every standard rank that construction hands out is one of the nine. *)
Lemma first_pass_values data rk sr rk' sr' :
  first_pass data rk sr = Ok (rk', sr') →
  map_Forall (λ _ v, v ∈ ranks) sr → map_Forall (λ _ v, v ∈ ranks) sr'.
Proof.
  revert rk sr. induction data as [|[[x par] rank] data IH]; intros rk sr;
    simpl.
  - by intros [= <- <-].
  - case_decide as Hacc.
    { intros Hfp Hall. apply (IH _ _ Hfp).
      apply map_Forall_insert_2; [by apply acceptable_in_ranks|done]. }
    case_decide; [|apply IH].
    case_decide; [|done].
    intros Hfp Hall. apply (IH _ _ Hfp).
    apply map_Forall_insert_2; [apply root_in_ranks|done].
Qed.

Lemma inherit_loop_values tax_id l sr :
  map_Forall (λ _ v, v ∈ ranks) sr →
  map_Forall (λ _ v, v ∈ ranks) (inherit_loop tax_id l sr).
Proof.
  intros Hall. induction l as [|a l IH]; simpl; [done|].
  destruct (sr !! a) as [v|] eqn:Ha; [|done].
  apply map_Forall_insert_2; [|done]. by apply (Hall a).
Qed.

Lemma second_pass_values fuel data p sr sr' :
  second_pass fuel data p sr = Ok sr' →
  map_Forall (λ _ v, v ∈ ranks) sr → map_Forall (λ _ v, v ∈ ranks) sr'.
Proof.
  revert sr. induction data as [|[[x par] rank] data IH]; intros sr; simpl.
  - by intros [= <-].
  - case_decide; [apply IH|].
    case_decide; [done|].
    destruct (get_all_ancestors fuel x p) as [l|e|]; simpl; [|done..].
    case_decide; [|done].
    intros Hsp Hall. apply (IH _ Hsp). by apply inherit_loop_values.
Qed.

Lemma load_tax_info_values fuel tree_data p rk sr :
  load_tax_info fuel tree_data = Ok (p, rk, sr) →
  map_Forall (λ _ v, v ∈ ranks) sr.
Proof.
  unfold load_tax_info.
  destruct (first_pass tree_data _ _) as [[rk1 S1]|e|] eqn:Hfp; [|done..].
  cbn -[first_pass second_pass].
  destruct (second_pass fuel tree_data _ S1) as [sr2|e|] eqn:Hsp; [|done..].
  cbn. intros [= <- <- <-].
  apply (second_pass_values _ _ _ _ _ Hsp).
  apply (first_pass_values _ _ _ _ _ Hfp).
  apply map_Forall_singleton, unclassified_in_ranks.
Qed.

(** Each read adds one to the per-rank counts, under a standard rank of
    the tree. *)
Lemma main_loop_counts fuel p rk sr reads t t' :
  map_Forall (λ _ v, v ∈ ranks) sr →
  main_loop fuel p rk sr reads t = Ok t' →
  sum_values (count_per_rank t')
  = sum_values (count_per_rank t) + Z.of_nat (length reads)
  ∧ ((∀ k, is_Some (count_per_rank t !! k) → k ∈ ranks) →
     ∀ k, is_Some (count_per_rank t' !! k) → k ∈ ranks).
Proof.
  intros Hsr. revert t.
  induction reads as [|[read_name tax_ids] reads IH]; intros t.
  - intros [= <-]. simpl. split; [lia|done].
  - intros (x & rank & standard_rank & cum & _ & _ & _ & Hx & _ & Hrest)
      %main_loop_step.
    apply IH in Hrest as [Hsum Hdom]. simpl in Hsum, Hdom. split.
    + rewrite Hsum, sum_values_incr. simpl length. lia.
    + intros Hk. apply Hdom. intros k. unfold incr.
      destruct (decide (standard_rank = k)) as [<-|Hne].
      * intros _. by apply (Hsr x).
      * rewrite lookup_insert_ne by done. apply Hk.
Qed.

(** ** The reads of the classification input *)

Lemma od_add_keys d read_name tax_id :
  (od_add d read_name tax_id).*1 =
  if decide (read_name ∈ d.*1) then d.*1 else d.*1 ++ [read_name].
Proof.
  induction d as [|[k s] d IH].
  - destruct (decide (read_name ∈ ([] : list (string * list Z)).*1))
      as [Hin|_]; [|done].
    by apply elem_of_nil in Hin.
  - cbn [od_add]. destruct (decide (k = read_name)) as [->|Hne].
    + destruct (decide (read_name ∈ ((read_name, s) :: d).*1)) as [_|Hout];
        [done|].
      exfalso. apply Hout. left.
    + rewrite fmap_cons, IH. cbn [fst].
      destruct (decide (read_name ∈ d.*1)) as [Hin|Hout];
        destruct (decide (read_name ∈ ((k, s) :: d).*1)) as [Hin'|Hout'];
        try done.
      * exfalso. apply Hout'. by right.
      * rewrite fmap_cons in Hin'.
        apply elem_of_cons in Hin' as [?|?]; simpl in *; [congruence|done].
Qed.

Lemma od_add_keys_NoDup d read_name tax_id :
  NoDup d.*1 → NoDup (od_add d read_name tax_id).*1.
Proof.
  intros Hnd. rewrite od_add_keys. case_decide as Hin; [done|].
  apply NoDup_app. split_and!; [done| |apply NoDup_singleton].
  intros k Hk ->%list_elem_of_singleton. done.
Qed.

Lemma od_add_keys_elem d read_name tax_id k :
  k ∈ (od_add d read_name tax_id).*1 ↔ k ∈ d.*1 ∨ k = read_name.
Proof.
  rewrite od_add_keys. case_decide as Hin.
  - split; [by left|]. intros [?| ->]; done.
  - rewrite elem_of_app, list_elem_of_singleton. done.
Qed.

(** The keys of the loaded dictionary are the distinct names of the
    non-header records. *)
Lemma load_loop_keys lines d d' :
  load_loop lines d = Ok d' → NoDup d.*1 →
  NoDup d'.*1
  ∧ ∀ k, k ∈ d'.*1 ↔
      k ∈ d.*1 ∨ ∃ r, r ∈ lines ∧ ¬ is_header r ∧ r.1.1 = k.
Proof.
  revert d. induction lines as [|r lines IH]; intros d.
  - intros [= <-] Hnd. split; [done|]. intros k. split; [by left|].
    intros [?|(r & Hr & _)]; [done|]. by apply elem_of_nil in Hr.
  - rewrite load_loop_cons.
    assert (Hcons : ∀ (d0 : list (string * list Z)) k,
      (k ∈ d0.*1 ∨ ∃ r', r' ∈ lines ∧ ¬ is_header r' ∧ r'.1.1 = k)
      ∨ (¬ is_header r ∧ r.1.1 = k) ↔
      k ∈ d0.*1 ∨ ∃ r', r' ∈ r :: lines ∧ ¬ is_header r' ∧ r'.1.1 = k).
    { intros d0 k. split.
      - intros [[?|(r' & Hr' & ?)]|[? ?]]; [by left| |].
        + right. exists r'. split; [by right|done].
        + right. exists r. split; [left|done].
      - intros [?|(r' & [->|Hr']%elem_of_cons & ?)];
          [by left; left|by right|].
        left. right. by exists r'. }
    destruct (decide (is_header r)) as [Hhead|Hhead].
    { intros Hl Hnd. destruct (IH _ Hl Hnd) as [Hnd' Hk]. split; [done|].
      intros k. rewrite Hk, <- Hcons. split; [by left|].
      intros [?|[? _]]; done. }
    intros Hl Hnd.
    assert (Hl' : load_loop lines (od_add d r.1.1 (recorded_tax_id r)) = Ok d').
    { destruct (decide (recorded_tax_id r = 0)); [|done].
      unfold assert_that in Hl.
      by destruct (decide (r.1.2 = "unclassified")). }
    destruct (IH _ Hl' (od_add_keys_NoDup _ _ _ Hnd)) as [Hnd' Hk].
    split; [done|]. intros k.
    rewrite Hk, od_add_keys_elem, <- Hcons. split.
    + intros [[?| ->]|?]; [by left; left|by right|by left; right].
    + intros [[?|?]|[_ <-]]; [by left; left|by right|by left; right].
Qed.

(** C6: when the tree and the reads are loaded and the loop of [main]
    has run over them from empty tables, the per-rank counts add up to the
    number of reads, which are the distinct read names of the non-header
    records, each with a non-empty candidate set; the same total is
    reached over the nine ranks of the summary line, so the sanity check
    of [write_summary] does not fail. *)
Theorem per_rank_counts_total (fuel : nat) (tree_data : list tree_record)
    (lines : list class_record) (p : gmap Z Z) (rk sr : gmap Z string)
    (reads : list (string * list Z)) (t : tables) :
  load_tax_info fuel tree_data = Ok (p, rk, sr) →
  load_tax_ids_per_read lines = Ok reads →
  main_loop fuel p rk sr reads (Tables ∅ ∅ []) = Ok t →
  NoDup reads.*1
  ∧ (∀ k, k ∈ reads.*1 ↔ ∃ r, r ∈ lines ∧ ¬ is_header r ∧ r.1.1 = k)
  ∧ (∀ k tax_ids, (k, tax_ids) ∈ reads → tax_ids ≠ [])
  ∧ sum_values (count_per_rank t) = Z.of_nat (length reads)
  ∧ sum_over ranks (count_per_rank t) = Z.of_nat (length reads)
  ∧ write_summary (Z.of_nat (length reads)) (count_per_rank t)
      (cumulative_counts_per_tax_id t) rk ≠ Raise AssertionError.
Proof.
  intros Htree Hreads Hmain.
  pose proof (load_tax_info_values _ _ _ _ _ Htree) as Hsr.
  destruct (main_loop_counts _ _ _ _ _ _ _ Hsr Hmain) as [Hsum Hdom].
  simpl in Hsum, Hdom. unfold sum_values in Hsum at 2.
  rewrite map_fold_empty in Hsum.
  assert (Hdom' : ∀ k, is_Some (count_per_rank t !! k) → k ∈ ranks).
  { apply Hdom. intros k. rewrite lookup_empty. by intros [? ?]. }
  unfold load_tax_ids_per_read in Hreads.
  destruct (load_loop_keys _ _ _ Hreads) as [Hnd Hkeys]; [apply NoDup_nil_2|].
  pose proof (load_loop_nonempty _ _ _ (Forall_nil_2 _) Hreads) as Hne.
  split_and!.
  - done.
  - intros k. rewrite Hkeys. split; [|by right].
    intros [Hk|?]; [|done]. by apply elem_of_nil in Hk.
  - intros k tax_ids Hin. rewrite Forall_forall in Hne. apply (Hne _ Hin).
  - lia.
  - rewrite <- (sum_values_sum_over ranks _ ranks_NoDup Hdom'). lia.
  - apply write_summary_no_assert; [done|lia].
Qed.

Lemma per_rank_counts_total_witness :
  load_tax_info 2 demo_tree = Ok (demo_parent, demo_rank, demo_rank) ∧
  load_tax_ids_per_read demo_lines = Ok demo_reads ∧
  main_loop 2 demo_parent demo_rank demo_rank demo_reads (Tables ∅ ∅ [])
  = Ok demo_tables ∧
  NoDup demo_reads.*1
  ∧ (∀ k, k ∈ demo_reads.*1 ↔
       ∃ r, r ∈ demo_lines ∧ ¬ is_header r ∧ r.1.1 = k)
  ∧ (∀ k tax_ids, (k, tax_ids) ∈ demo_reads → tax_ids ≠ [])
  ∧ sum_values (count_per_rank demo_tables) = Z.of_nat (length demo_reads)
  ∧ sum_over ranks (count_per_rank demo_tables)
    = Z.of_nat (length demo_reads)
  ∧ write_summary (Z.of_nat (length demo_reads)) (count_per_rank demo_tables)
      (cumulative_counts_per_tax_id demo_tables) demo_rank
    ≠ Raise AssertionError.
Proof.
  assert (Htree : load_tax_info 2 demo_tree
                  = Ok (demo_parent, demo_rank, demo_rank)).
  { vm_compute. reflexivity. }
  assert (Hreads : load_tax_ids_per_read demo_lines = Ok demo_reads).
  { vm_compute. reflexivity. }
  assert (Hmain :
    main_loop 2 demo_parent demo_rank demo_rank demo_reads (Tables ∅ ∅ [])
    = Ok demo_tables).
  { vm_compute. reflexivity. }
  split; [exact Htree|]. split; [exact Hreads|]. split; [exact Hmain|].
  exact (per_rank_counts_total 2 demo_tree demo_lines demo_parent demo_rank
           demo_rank demo_reads demo_tables Htree Hreads Hmain).
Defined.

Example demo_main :
  main 2 demo_tree demo_lines = Ok (demo_tables, [1; 0; 0; 0; 0; 0; 0; 1; 0]).
Proof. vm_compute. reflexivity. Qed.

(** With no read at all the summary divides by zero before its check. *)
Example demo_main_no_reads :
  main 2 demo_tree [] = Raise ZeroDivisionError.
Proof. vm_compute. reflexivity. Qed.

(** ** Well-formed inputs are processed to the end *)

Lemma walk_real p x l a :
  p !! 1 = Some 1 → walk p x l → a ∈ l → is_Some (p !! a).
Proof.
  intros H1. induction 1 as [|x y l Hx Hp Hw IH]; intros Ha.
  - apply list_elem_of_singleton in Ha as ->. by eexists.
  - apply elem_of_cons in Ha as [->|Ha]; [by eexists|auto].
Qed.

Lemma cumulative_loop_walk fuel p x l cum :
  walk p x l → (length l ≤ fuel)%nat →
  ∃ cum', cumulative_loop fuel p x cum = Ok cum'.
Proof.
  intros Hw. revert fuel cum.
  induction Hw as [|x y l Hx Hp Hw IH]; intros fuel cum Hlen.
  - destruct fuel as [|fuel]; [simpl in Hlen; lia|]. simpl. by eexists.
  - destruct fuel as [|fuel]; [simpl in Hlen; lia|]. simpl.
    rewrite decide_False by done. unfold getitem. rewrite Hp. simpl.
    apply IH. simpl in Hlen. lia.
Qed.

Lemma discard0_nonempty tax_ids :
  NoDup tax_ids → (2 ≤ length tax_ids)%nat → discard0 tax_ids ≠ [].
Proof.
  intros Hnd Hlen. destruct tax_ids as [|a [|b rest]]; [simpl in Hlen; lia..|].
  apply NoDup_cons in Hnd as [Hab _].
  assert (Hab' : a ≠ b) by (intros ->; apply Hab; left).
  destruct (decide (a = 0)) as [->|Ha].
  - intros Hnil. assert (Hb : b ∈ discard0 (0 :: b :: rest)).
    { apply elem_of_discard0. split; [right; left|congruence]. }
    rewrite Hnil in Hb. by apply elem_of_nil in Hb.
  - intros Hnil. assert (Hin : a ∈ discard0 (a :: b :: rest)).
    { apply elem_of_discard0. split; [left|done]. }
    rewrite Hnil in Hin. by apply elem_of_nil in Hin.
Qed.

(** A candidate set of real nodes, or the lone 0, resolves to a real node
    or to 0. *)
Lemma resolve_total fuel p tax_ids :
  p !! 1 = Some 1 →
  (∀ x, is_Some (p !! x) → ∃ l, walk p x l ∧ (length l ≤ fuel)%nat) →
  tax_ids ≠ [] → NoDup tax_ids →
  (∀ x, x ∈ tax_ids → x = 0 ∨ is_Some (p !! x)) →
  ∃ r, resolve fuel tax_ids p = Ok r ∧ (r = 0 ∨ is_Some (p !! r)).
Proof.
  intros H1 Hwalk Hne Hnd Hreal.
  destruct (decide (length tax_ids = 1%nat)) as [Hone|Hmany].
  - destruct tax_ids as [|x [|? ?]]; try done.
    exists x. split; [done|]. apply Hreal. left.
  - assert (Hlen : (2 ≤ length tax_ids)%nat).
    { destruct tax_ids as [|? [|? ?]]; simpl in *; try done; lia. }
    assert (Hres : resolve fuel tax_ids p
                   = find_lca fuel (discard0 tax_ids) p).
    { by destruct tax_ids as [|? [|? ?]]. }
    rewrite Hres.
    assert (Hw : walkable p fuel (discard0 tax_ids)).
    { intros x [Hx Hx0]%elem_of_discard0.
      destruct (Hreal x Hx) as [?|Hp]; [done|].
      destruct (Hwalk x Hp) as (l & Hl & Hlen'). exists l. split; [done|lia]. }
    destruct (find_lca_spec p fuel (discard0 tax_ids)) as (r & Hr & Hcom & _);
      [by apply discard0_nonempty|done|].
    exists r. split; [done|]. right.
    destruct (discard0 tax_ids) as [|one rest] eqn:Hd;
      [by apply discard0_nonempty in Hd|].
    destruct (Hw one) as (l & Hl & _); [left|].
    eapply walk_real; [done..|]. apply (Hcom one l); [left|done].
Qed.

(** The loop of [main] runs to the end on a well-formed tree whose rank
    maps cover its nodes and 0, for reads whose candidates are nodes of
    the tree or 0. *)
Lemma main_loop_total fuel p rk sr reads t :
  p !! 1 = Some 1 →
  (∀ x, is_Some (p !! x) → ∃ l, walk p x l ∧ (length l ≤ fuel)%nat) →
  (∀ x, x = 0 ∨ is_Some (p !! x) → is_Some (rk !! x) ∧ is_Some (sr !! x)) →
  Forall (λ kv : string * list Z,
    kv.2 ≠ [] ∧ NoDup kv.2 ∧ ∀ x, x ∈ kv.2 → x = 0 ∨ is_Some (p !! x)) reads →
  ∃ t', main_loop fuel p rk sr reads t = Ok t'.
Proof.
  intros H1 Hwalk Hmaps Hall. revert t.
  induction Hall as [|[read_name tax_ids] reads (Hne & Hnd & Hreal) Hall IH];
    intros t.
  - by eexists.
  - rewrite main_loop_cons. unfold add_rank_count.
    rewrite decide_False by (by destruct tax_ids).
    destruct (resolve_total fuel p tax_ids H1 Hwalk Hne Hnd Hreal)
      as (r & -> & Hr).
    destruct (Hmaps r Hr) as [[rank Hrank] [standard_rank Hstd]].
    unfold getitem. cbn -[main_loop]. rewrite Hrank. cbn -[main_loop].
    rewrite Hstd. cbn -[main_loop].
    destruct (decide (r > 0)) as [Hpos|Hpos]; [|apply IH].
    destruct Hr as [->|Hp]; [lia|].
    destruct (Hwalk r Hp) as (l & Hl & Hlen).
    destruct (cumulative_loop_walk fuel p r l (cumulative_counts_per_tax_id t)
                Hl Hlen) as [cum ->].
    apply IH.
Qed.

(** A fuel that suffices for every node of a well-formed tree. *)
Lemma well_formed_fuel p :
  well_formed p →
  ∃ fuel, ∀ fuel', (fuel ≤ fuel')%nat →
    ∀ x, is_Some (p !! x) → ∃ l, walk p x l ∧ (length l ≤ fuel')%nat.
Proof.
  intros Hwf.
  destruct (real_nodes_walkable p (map_to_list p).*1 Hwf) as [fuel Hfuel].
  { intros x ([y v] & -> & Hin)%list_elem_of_fmap.
    apply elem_of_map_to_list in Hin. by eexists. }
  exists (S fuel). intros fuel' Hle x [v Hx].
  destruct (Hfuel x) as (l & Hl & Hlen).
  { apply list_elem_of_fmap. exists (x, v). split; [done|].
    by apply elem_of_map_to_list. }
  exists l. split; [done|lia].
Qed.

(** Construction succeeds on duplicate-free records that form a
    well-formed tree. *)
Lemma first_pass_total data rk sr :
  (∀ par rank, (1, par, rank) ∈ data → rank ∉ acceptable_ranks → par = 1) →
  ∃ rk' sr', first_pass data rk sr = Ok (rk', sr').
Proof.
  revert rk sr. induction data as [|[[x par] rank] data IH]; intros rk sr Hroot;
    simpl.
  - by eexists _, _.
  - assert (Hroot' : ∀ par rank,
      (1, par, rank) ∈ data → rank ∉ acceptable_ranks → par = 1).
    { intros par' rank' Hin. apply Hroot. by right. }
    case_decide as Hacc; [by apply IH|].
    case_decide as Hx; [|by apply IH]. subst x.
    rewrite decide_True; [by apply IH|].
    symmetry. apply (Hroot par rank); [left|done].
Qed.

Lemma inherit_loop_finds tax_id l sr a :
  a ∈ l → is_Some (sr !! a) → is_Some (inherit_loop tax_id l sr !! tax_id).
Proof.
  intros Hin Ha. induction l as [|b l IH]; [by apply elem_of_nil in Hin|].
  simpl. destruct (sr !! b) as [v|] eqn:Hb.
  - rewrite lookup_insert_eq. by eexists.
  - apply elem_of_cons in Hin as [->|Hin]; [|auto].
    rewrite Hb in Ha. by destruct Ha.
Qed.

Lemma second_pass_total fuel data p sr :
  is_Some (sr !! 1) →
  (∀ x, x ∈ tax_ids_of data → ∃ l, walk p x l ∧ (length l ≤ S fuel)%nat) →
  (∀ x par rank, (x, par, rank) ∈ data → rank ∈ acceptable_ranks →
     is_Some (sr !! x)) →
  ∃ sr', second_pass fuel data p sr = Ok sr'.
Proof.
  revert sr. induction data as [|[[x par] rank] data IH];
    intros sr H1 Hwalk Hacc; simpl.
  - by eexists.
  - assert (Hwalk' : ∀ y, y ∈ tax_ids_of data →
      ∃ l, walk p y l ∧ (length l ≤ S fuel)%nat).
    { intros y Hy. apply Hwalk. unfold tax_ids_of. simpl. by right. }
    case_decide as Hx.
    { apply IH; [done..|]. intros y par' rank' Hin Hr.
      apply (Hacc y par' rank'); [by right|done]. }
    rewrite decide_False.
    2:{ intros Hr. apply Hx. apply (Hacc x par rank); [left|done]. }
    destruct (Hwalk x) as (l & Hl & Hlen).
    { unfold tax_ids_of. simpl. left. }
    rewrite (get_all_ancestors_walk p fuel x l Hl Hlen). simpl.
    assert (Hfound : is_Some (inherit_loop x l sr !! x)).
    { apply (inherit_loop_finds x l sr 1); [|done].
      apply walk_last in Hl. apply last_Some in Hl as [l' ->].
      apply elem_of_app. right. left. }
    rewrite decide_True by done.
    apply eq_None_not_Some in Hx.
    apply IH; [|done|].
    + destruct (decide (x = 1)) as [->|Hne]; [done|].
      by rewrite inherit_loop_keeps.
    + intros y par' rank' Hin Hr.
      destruct (decide (y = x)) as [->|Hne]; [done|].
      rewrite inherit_loop_keeps by done.
      apply (Hacc y par' rank'); [by right|done].
Qed.

Lemma load_tax_info_total fuel data :
  NoDup (tax_ids_of data) → well_formed (parent_loop data ∅) →
  (∀ x, is_Some (parent_loop data ∅ !! x) →
     ∃ l, walk (parent_loop data ∅) x l ∧ (length l ≤ fuel)%nat) →
  ∃ rk sr,
    load_tax_info fuel data = Ok (parent_loop data ∅, rk, sr)
    ∧ ∀ x, x = 0 ∨ is_Some (parent_loop data ∅ !! x) →
        is_Some (rk !! x) ∧ is_Some (sr !! x).
Proof.
  intros Hnd [H1 Hwf] Hwalk. unfold load_tax_info.
  set (p := parent_loop data ∅) in *.
  assert (Hdom : ∀ x, is_Some (p !! x) ↔ x ∈ tax_ids_of data).
  { intros x. unfold p. rewrite parent_loop_dom, lookup_empty.
    split; [|by left]. intros [?|[? ?]]; done. }
  assert (Hroot : 1 ∈ tax_ids_of data) by (apply Hdom; by eexists).
  destruct (first_pass_total data {[0 := "unclassified"]}
              {[0 := "unclassified"]}) as (rk & S1 & Hfp).
  { intros par rank Hin _.
    pose proof (parent_loop_record data 1 par rank Hnd Hin) as Hp.
    fold p in Hp. congruence. }
  rewrite Hfp. cbn -[second_pass].
  destruct (second_pass_total fuel data p S1) as [sr Hsp].
  - eapply first_pass_has; eauto. right. by left.
  - intros x Hx. apply Hdom in Hx. destruct (Hwalk x Hx) as (l & Hl & Hlen).
    exists l. split; [done|lia].
  - intros x par rank Hin Hacc.
    destruct (first_pass_record _ _ _ _ _ _ _ _ Hnd Hin Hfp) as [_ ->].
    unfold own_rank. rewrite decide_True by done. by eexists.
  - rewrite Hsp. cbn. exists rk, sr. split; [done|].
    intros x Hx. split.
    + destruct (decide (x ∈ tax_ids_of data)) as [Hin|Hout].
      * apply elem_of_tax_ids_of in Hin as (par & rank & Hin).
        destruct (first_pass_record _ _ _ _ _ _ _ _ Hnd Hin Hfp) as [-> _].
        by eexists.
      * destruct Hx as [->|Hx]; [|by apply Hdom in Hx].
        destruct (first_pass_other _ _ _ _ _ 0 Hout Hfp) as [-> _].
        rewrite lookup_singleton_eq. by eexists.
    + destruct Hx as [->|Hx].
      * assert (H0 : is_Some (S1 !! 0)).
        { eapply first_pass_has; eauto. by left. }
        destruct H0 as [v Hv]. exists v. by eapply second_pass_keeps.
      * apply Hdom in Hx. by eapply second_pass_dom.
Qed.

Lemma set_add_NoDup x s : NoDup s → NoDup (set_add x s).
Proof.
  intros Hnd. unfold set_add. case_decide as Hin; [done|].
  apply NoDup_app. split_and!; [done| |apply NoDup_singleton].
  intros y Hy ->%list_elem_of_singleton. done.
Qed.

Lemma elem_of_set_add x s y : y ∈ set_add x s ↔ y ∈ s ∨ y = x.
Proof.
  unfold set_add. case_decide as Hin.
  - split; [by left|]. intros [?| ->]; done.
  - by rewrite elem_of_app, list_elem_of_singleton.
Qed.

(** The candidate sets of the loaded reads are duplicate-free, non-empty,
    and hold recorded taxon IDs only. *)
Lemma load_loop_sets (P : Z → Prop) lines d d' :
  (∀ r, r ∈ lines → ¬ is_header r → P (recorded_tax_id r)) →
  Forall (λ kv : string * list Z,
    kv.2 ≠ [] ∧ NoDup kv.2 ∧ ∀ x, x ∈ kv.2 → P x) d →
  load_loop lines d = Ok d' →
  Forall (λ kv : string * list Z,
    kv.2 ≠ [] ∧ NoDup kv.2 ∧ ∀ x, x ∈ kv.2 → P x) d'.
Proof.
  revert d. induction lines as [|r lines IH]; intros d HP Hd.
  - by intros [= <-].
  - rewrite load_loop_cons.
    assert (HP' : ∀ r', r' ∈ lines → ¬ is_header r' → P (recorded_tax_id r')).
    { intros r' Hr'. apply HP. by right. }
    destruct (decide (is_header r)) as [Hhead|Hhead]; [by apply IH|].
    intros Hl.
    assert (Hl' : load_loop lines (od_add d r.1.1 (recorded_tax_id r)) = Ok d').
    { destruct (decide (recorded_tax_id r = 0)); [|done].
      unfold assert_that in Hl.
      by destruct (decide (r.1.2 = "unclassified")). }
    apply (IH _ HP') in Hl'; [done|].
    assert (HPr : P (recorded_tax_id r)) by (apply HP; [left|done]).
    clear -Hd HPr. induction Hd as [|[k s] d (Hne & Hnd & Hs) Hd IHd]; simpl.
    + constructor; [|constructor]. simpl. split_and!.
      * apply set_add_nonempty.
      * apply set_add_NoDup, NoDup_nil_2.
      * intros x [Hx| ->]%elem_of_set_add; [by apply elem_of_nil in Hx|done].
    + case_decide; constructor; simpl; try done. split_and!.
      * apply set_add_nonempty.
      * by apply set_add_NoDup.
      * intros x [Hx| ->]%elem_of_set_add; auto.
Qed.

Lemma cumulative_loop_keys fuel p x cum cum' :
  p !! 1 = Some 1 →
  (∀ k, is_Some (cum !! k) → is_Some (p !! k)) →
  cumulative_loop fuel p x cum = Ok cum' →
  ∀ k, is_Some (cum' !! k) → is_Some (p !! k).
Proof.
  intros H1. revert x cum. induction fuel as [|fuel IH]; intros x cum Hcum;
    simpl; [done|].
  assert (Hincr : is_Some (p !! x) →
    ∀ k, is_Some (incr cum x !! k) → is_Some (p !! k)).
  { intros Hx k. unfold incr. destruct (decide (x = k)) as [<-|Hne]; [done|].
    rewrite lookup_insert_ne by done. apply Hcum. }
  case_decide as Hroot.
  - intros [= <-]. apply Hincr. subst x. by eexists.
  - unfold getitem. destruct (p !! x) as [y|] eqn:Hp; [|done]. simpl.
    apply IH. apply Hincr. by eexists.
Qed.

Lemma main_loop_keys fuel p rk sr reads t t' :
  p !! 1 = Some 1 →
  main_loop fuel p rk sr reads t = Ok t' →
  (∀ k, is_Some (cumulative_counts_per_tax_id t !! k) → is_Some (p !! k)) →
  ∀ k, is_Some (cumulative_counts_per_tax_id t' !! k) → is_Some (p !! k).
Proof.
  intros H1. revert t.
  induction reads as [|[read_name tax_ids] reads IH]; intros t.
  - by intros [= <-].
  - intros (x & rank & standard_rank & cum & _ & _ & _ & _ & Hcum & Hrest)
      %main_loop_step Hkeys.
    apply (IH _ Hrest). simpl.
    destruct (decide (x > 0)); [|by subst cum].
    by eapply cumulative_loop_keys.
Qed.

Lemma rank_tax_ids_loop_total items rk acc :
  (∀ x c, (x, c) ∈ items → is_Some (rk !! x)) →
  ∃ res, rank_tax_ids_loop items rk acc = Ok res.
Proof.
  revert acc. induction items as [|[x c] items IH]; intros acc Hrk; simpl.
  - by eexists.
  - assert (Hrk' : ∀ y c', (y, c') ∈ items → is_Some (rk !! y)).
    { intros y c' Hin. apply (Hrk y c'). by right. }
    case_decide; [|by apply IH].
    destruct (Hrk x c) as [r Hr]; [left|].
    unfold getitem. rewrite Hr. simpl. case_decide; by apply IH.
Qed.

Lemma write_summary_total read_count cpr cum rk :
  (∀ k, is_Some (cpr !! k) → k ∈ ranks) → sum_values cpr = read_count →
  read_count ≠ 0 →
  (∀ k, is_Some (cum !! k) → is_Some (rk !! k)) →
  ∃ res, write_summary read_count cpr cum rk = Ok res.
Proof.
  intros Hdom Hsum Hpos Hkeys. unfold write_summary.
  destruct (rank_tax_ids_loop_total (map_to_list cum) rk ∅) as [rti ->].
  { intros x c Hin. apply elem_of_map_to_list in Hin. apply Hkeys.
    by eexists. }
  cbn -[summary_loop]. rewrite summary_loop_spec.
  rewrite decide_False by (intros [? _]; congruence). cbn -[sum_over].
  rewrite <- (sum_values_sum_over ranks cpr ranks_NoDup Hdom).
  unfold assert_that. rewrite decide_True by lia. by eexists.
Qed.

(** The whole run succeeds, for every sufficient fuel, on duplicate-free
    tree records that form a well-formed tree and classification records
    without integrity violation whose taxon IDs are 0 or nodes of the
    tree, at least one of them not a header. *)
Lemma main_total (tree_data : list tree_record) (lines : list class_record) :
  NoDup (tax_ids_of tree_data) → well_formed (parent_loop tree_data ∅) →
  (∀ r, r ∈ lines → ¬ integrity_violation r) →
  (∀ r, r ∈ lines → ¬ is_header r →
     recorded_tax_id r = 0 ∨ recorded_tax_id r ∈ tax_ids_of tree_data) →
  (∃ r, r ∈ lines ∧ ¬ is_header r) →
  ∃ fuel, ∀ fuel', (fuel ≤ fuel')%nat →
    ∃ t summary, main fuel' tree_data lines = Ok (t, summary).
Proof.
  intros Hnd Hwf Hclean Hids Hsome.
  destruct (well_formed_fuel _ Hwf) as [fuel Hfuel].
  exists fuel. intros fuel' Hle. specialize (Hfuel fuel' Hle).
  pose proof Hwf as [H1 _].
  destruct (load_tax_info_total fuel' tree_data Hnd Hwf Hfuel)
    as (rk & sr & Htree & Hmaps).
  set (p := parent_loop tree_data ∅) in *.
  assert (Hdom : ∀ x, x ∈ tax_ids_of tree_data → is_Some (p !! x)).
  { intros x Hx. unfold p. rewrite parent_loop_dom. by left. }
  destruct (load_loop_outcome lines []) as [[reads Hreads]|Hraise].
  2:{ apply load_loop_assert in Hraise as (r & Hr & Hv).
      by apply (Hclean r Hr) in Hv. }
  pose proof (load_loop_sets (λ x, x = 0 ∨ is_Some (p !! x)) lines [] reads)
    as Hsets.
  destruct (main_loop_total fuel' p rk sr reads (Tables ∅ ∅ []) H1 Hfuel Hmaps)
    as [t Hmain].
  { apply Hsets; [|constructor|done].
    intros r Hr Hhead. destruct (Hids r Hr Hhead) as [?|?]; auto. }
  pose proof (load_tax_info_values _ _ _ _ _ Htree) as Hsr.
  destruct (main_loop_counts _ _ _ _ _ _ _ Hsr Hmain) as [Hsum Hcpr].
  simpl in Hsum, Hcpr. unfold sum_values in Hsum at 2.
  rewrite map_fold_empty in Hsum.
  destruct (load_loop_keys _ _ _ Hreads) as [_ Hkeys]; [apply NoDup_nil_2|].
  assert (Hlen : Z.of_nat (length reads) ≠ 0).
  { destruct Hsome as (r & Hr & Hhead).
    assert (Hin : r.1.1 ∈ reads.*1) by (apply Hkeys; right; by exists r).
    destruct reads; [by apply elem_of_nil in Hin|]. simpl. lia. }
  destruct (write_summary_total (Z.of_nat (length reads)) (count_per_rank t)
              (cumulative_counts_per_tax_id t) rk) as [[rti summary] Hws].
  - apply Hcpr. intros k. rewrite lookup_empty. by intros [? ?].
  - lia.
  - done.
  - intros k Hk. apply Hmaps. right.
    apply (main_loop_keys _ _ _ _ _ _ _ H1 Hmain); [|done].
    intros k'. simpl. rewrite lookup_empty. by intros [? ?].
  - exists t, summary. unfold main. rewrite Htree. cbn -[main_loop].
    unfold load_tax_ids_per_read. rewrite Hreads. cbn -[main_loop].
    rewrite Hmain. cbn. by rewrite Hws.
Qed.

Example demo_main_total :
  ∃ fuel, ∀ fuel', (fuel ≤ fuel')%nat →
    ∃ t summary, main fuel' demo_tree demo_lines = Ok (t, summary).
Proof.
  apply main_total.
  - unfold tax_ids_of, demo_tree. simpl.
    repeat (apply NoDup_cons; split;
      [repeat (apply not_elem_of_cons; split; [done|]); apply not_elem_of_nil|]).
    apply NoDup_nil_2.
  - apply well_formedb_sound. vm_compute. reflexivity.
  - intros r Hr (Hhead & Hzero & Hun).
    unfold demo_lines in Hr.
    repeat (apply elem_of_cons in Hr as [->|Hr];
      [by (vm_compute in Hhead, Hzero, Hun)|]).
    by apply elem_of_nil in Hr.
  - intros r Hr Hhead. unfold demo_lines in Hr.
    repeat (apply elem_of_cons in Hr as [->|Hr];
      [first [by (exfalso; apply Hhead) | by left
             | right; unfold tax_ids_of, demo_tree; simpl;
               repeat first [apply list_elem_of_here|apply list_elem_of_further]]|]).
    by apply elem_of_nil in Hr.
  - exists ("r1", "s3", 3). split; [|done].
    apply list_elem_of_further, list_elem_of_here.
Qed.

(** ** The iteration order of a candidate set does not matter *)

Lemma find_lca_order p fuel l l' :
  walkable p fuel l → l ≠ [] → (∀ x, x ∈ l ↔ x ∈ l') →
  find_lca fuel l p = find_lca fuel l' p.
Proof.
  intros Hw Hne Hmem.
  assert (Hw' : walkable p fuel l').
  { intros x Hx. apply Hw. by apply Hmem. }
  assert (Hne' : l' ≠ []).
  { destruct l as [|x l]; [done|]. intros ->.
    assert (Hx : x ∈ ([] : list Z)) by (apply Hmem; left).
    by apply elem_of_nil in Hx. }
  destruct (find_lca_spec p fuel l Hne Hw) as (r & -> & Hcom & Hdeep).
  destruct (find_lca_spec p fuel l' Hne' Hw') as (r' & -> & Hcom' & Hdeep').
  f_equal.
  destruct (Hdeep r') as (lr & Hlr & Hin).
  { intros x lx Hx. apply Hcom'. by apply Hmem. }
  destruct (Hdeep' r) as (lr' & Hlr' & Hin').
  { intros x lx Hx. apply Hcom. by apply Hmem. }
  symmetry. by eapply walk_antisym.
Qed.

Lemma resolve_order p fuel l l' :
  walkable p fuel (discard0 l) → NoDup l → NoDup l' → l ≡ₚ l' →
  resolve fuel l p = resolve fuel l' p.
Proof.
  intros Hw Hnd Hnd' Hperm.
  pose proof (Permutation_length Hperm) as Hlen.
  destruct l as [|a [|b l]], l' as [|a' [|b' l']]; simpl in Hlen; try lia.
  - done.
  - apply Permutation_singleton_l in Hperm. by injection Hperm as ->.
  - change (find_lca fuel (discard0 (a :: b :: l)) p
            = find_lca fuel (discard0 (a' :: b' :: l')) p).
    apply find_lca_order; [done| |].
    + apply discard0_nonempty; [done|simpl; lia].
    + intros x. rewrite !elem_of_discard0. by rewrite Hperm.
Qed.

(** ** More on get_all_ancestors: every outcome *)

Lemma dangling_key_error p x :
  dangling p x →
  ∃ fuel, ∀ fuel', (fuel ≤ fuel')%nat →
    get_all_ancestors fuel' x p = Raise KeyError.
Proof.
  assert (Hloop : dangling p x → ∃ fuel, ∀ fuel' acc, (fuel ≤ fuel')%nat →
    ancestors_loop fuel' p x acc = Raise KeyError).
  { induction 1 as [x Hx Hp|x y Hx Hp Hd [fuel IH]].
    - exists 1%nat. intros [|fuel'] acc Hle; [lia|]. simpl.
      rewrite decide_False by done. unfold getitem. by rewrite Hp.
    - exists (S fuel). intros [|fuel'] acc Hle; [lia|]. simpl.
      rewrite decide_False by done. unfold getitem. rewrite Hp. simpl.
      apply IH. lia. }
  intros Hd. destruct (Hloop Hd) as [fuel Hf]. exists fuel.
  intros fuel' Hle. unfold get_all_ancestors. by rewrite Hf.
Qed.

Lemma ancestors_loop_key_error fuel p x acc :
  ancestors_loop fuel p x acc = Raise KeyError → dangling p x.
Proof.
  revert x acc. induction fuel as [|fuel IH]; intros x acc; simpl.
  - by case_decide.
  - case_decide as Hx; [done|]. unfold getitem.
    destruct (p !! x) as [y|] eqn:Hp; simpl.
    + intros Hrec. eapply dangling_up; eauto.
    + intros _. by apply dangling_here.
Qed.

Lemma key_error_dangling fuel p x :
  get_all_ancestors fuel x p = Raise KeyError → dangling p x.
Proof.
  unfold get_all_ancestors.
  destruct (ancestors_loop fuel p x [x]) as [l|e|] eqn:Hl; simpl.
  - by case_decide.
  - intros [= ->]. by eapply ancestors_loop_key_error.
  - done.
Qed.

Lemma dangling_not_reaches p x : dangling p x → ¬ reaches_root p x.
Proof.
  induction 1 as [x Hx Hp|x y Hx Hp Hd IH]; intros Hr.
  - destruct Hr; congruence.
  - destruct Hr as [|x y' Hx' Hp' Hr]; [done|].
    apply IH. congruence.
Qed.

(** X1: the walk returns a list exactly when that list is the parent
    chain from the node to 1 and fits the loop bound; the assertion at
    its end can never fail. *)
Theorem get_all_ancestors_returns (p : gmap Z Z) (x : Z) (fuel : nat) :
  (∀ l, get_all_ancestors fuel x p = Ok l ↔
        walk p x l ∧ (length l ≤ S fuel)%nat)
  ∧ get_all_ancestors fuel x p ≠ Raise AssertionError.
Proof.
  split; [|apply get_all_ancestors_no_assert].
  intros l. split.
  - apply get_all_ancestors_inv.
  - intros [Hw Hlen]. by apply get_all_ancestors_walk.
Qed.

(** X2: the walk raises KeyError, for some and then every larger loop
    bound, exactly when the chain of the node meets before the root a
    taxon ID that is no key of the parent map (in particular for a
    starting ID other than 1 that is no key, such as 0); it runs forever
    exactly when the chain neither reaches 1 nor leaves the map, as on a
    cycle. *)
Theorem get_all_ancestors_fails (p : gmap Z Z) (x : Z) :
  ((∃ fuel, get_all_ancestors fuel x p = Raise KeyError) ↔ dangling p x)
  ∧ (dangling p x →
     ∃ fuel, ∀ fuel', (fuel ≤ fuel')%nat →
       get_all_ancestors fuel' x p = Raise KeyError)
  ∧ (x ≠ 1 → p !! x = None →
     ∀ fuel, get_all_ancestors (S fuel) x p = Raise KeyError)
  ∧ ((∀ fuel, get_all_ancestors fuel x p = OutOfFuel) ↔
     ¬ reaches_root p x ∧ ¬ dangling p x).
Proof.
  split_and!.
  - split.
    + intros [fuel Hf]. by eapply key_error_dangling.
    + intros Hd. destruct (dangling_key_error p x Hd) as [fuel Hf].
      exists fuel. by apply Hf.
  - apply dangling_key_error.
  - intros Hx Hp fuel. unfold get_all_ancestors. simpl.
    rewrite decide_False by done. unfold getitem. by rewrite Hp.
  - split.
    + intros Hall. split.
      * intros Hr. apply reaches_walk in Hr as [l Hl].
        pose proof (get_all_ancestors_walk p (length l) x l Hl) as Hok.
        rewrite Hall in Hok. by discriminate Hok; lia.
      * intros Hd. destruct (dangling_key_error p x Hd) as [fuel Hf].
        specialize (Hf fuel (Nat.le_refl _)). by rewrite Hall in Hf.
    + intros [Hr Hd] fuel.
      destruct (get_all_ancestors fuel x p) as [l|e|] eqn:Hg; [| |done].
      * apply get_all_ancestors_inv in Hg as [Hw _].
        exfalso. apply Hr. by eapply walk_reaches.
      * pose proof (get_all_ancestors_raise _ _ _ _ Hg) as ->.
        exfalso. apply Hd. by eapply key_error_dangling.
Qed.

(** ** More on find_lca: any parent map *)

Lemma ancestors_ok_root fuel p x l :
  get_all_ancestors fuel x p = Ok l → 1 ∈ l.
Proof.
  intros [Hw _]%get_all_ancestors_inv.
  apply walk_last in Hw. apply last_Some in Hw as [l' ->].
  apply elem_of_app. right. left.
Qed.

(** The running intersection holds the root as soon as it is not empty. *)
Lemma common_loop_root fuel p tax_ids (C C' : gset Z) :
  common_loop fuel p tax_ids C = Ok C' →
  (C = ∅ ∨ 1 ∈ C) → (tax_ids ≠ [] ∨ 1 ∈ C) → 1 ∈ C'.
Proof.
  revert C. induction tax_ids as [|x tax_ids IH]; intros C; simpl.
  - intros [= <-] _ [?|?]; done.
  - destruct (get_all_ancestors fuel x p) as [l|e|] eqn:Hl; simpl; [|done..].
    apply ancestors_ok_root in Hl.
    intros Hrec HC _. apply (IH _ Hrec).
    + right. case_decide; [by apply elem_of_list_to_set|].
      destruct HC as [?|HC]; [done|].
      apply elem_of_intersection. split; [done|].
      by apply elem_of_list_to_set.
    + right. case_decide; [by apply elem_of_list_to_set|].
      destruct HC as [?|HC]; [done|].
      apply elem_of_intersection. split; [done|].
      by apply elem_of_list_to_set.
Qed.

Lemma first_common_finds l (C : gset Z) a :
  a ∈ l → a ∈ C → ∃ r, first_common l C = Ok r.
Proof.
  intros Hl HC. induction l as [|b l IH]; [by apply elem_of_nil in Hl|].
  simpl. case_decide; [by eexists|].
  apply elem_of_cons in Hl as [->|Hl]; [done|auto].
Qed.

Lemma common_loop_walkable fuel p tax_ids (C C' : gset Z) :
  common_loop fuel p tax_ids C = Ok C' → walkable p fuel tax_ids.
Proof.
  revert C. induction tax_ids as [|x tax_ids IH]; intros C; simpl.
  - intros _ y Hy. by apply elem_of_nil in Hy.
  - destruct (get_all_ancestors fuel x p) as [l|e|] eqn:Hl; simpl; [|done..].
    intros Hrec y [->|Hy]%elem_of_cons.
    + apply get_all_ancestors_inv in Hl. by exists l.
    + by eapply IH.
Qed.

Lemma find_lca_ok_walkable fuel tax_ids p r :
  find_lca fuel tax_ids p = Ok r → tax_ids ≠ [] ∧ walkable p fuel tax_ids.
Proof.
  unfold find_lca.
  destruct (common_loop fuel p tax_ids ∅) as [C|e|] eqn:HC; simpl; [|done..].
  destruct tax_ids as [|one rest]; [done|]. intros _.
  split; [done|]. by eapply common_loop_walkable.
Qed.

(** X3: [find_lca] never reaches its [assert False], whatever the parent
    map and the taxon IDs: it fails by StopIteration exactly on the empty
    set and otherwise only by the KeyError of a walk. *)
Theorem find_lca_never_asserts (fuel : nat) (tax_ids : list Z)
    (p : gmap Z Z) :
  find_lca fuel tax_ids p ≠ Raise AssertionError
  ∧ (find_lca fuel tax_ids p = Raise StopIteration ↔ tax_ids = [])
  ∧ (∀ e, find_lca fuel tax_ids p = Raise e →
          e = StopIteration ∨ e = KeyError).
Proof.
  assert (Hcases : ∀ e, find_lca fuel tax_ids p = Raise e →
    (e = StopIteration ∧ tax_ids = []) ∨ (e = KeyError ∧ tax_ids ≠ [])).
  { intros e. unfold find_lca.
    destruct (common_loop fuel p tax_ids ∅) as [C|e'|] eqn:HC; simpl.
    - destruct tax_ids as [|one rest]; [intros [= <-]; by left|].
      destruct (get_all_ancestors fuel one p) as [l|e'|] eqn:Hl; simpl.
      + intros Hfc. exfalso.
        apply common_loop_root in HC; [|by left|by left].
        destruct (first_common_finds l C 1) as [r Hr];
          [by eapply ancestors_ok_root|done|].
        congruence.
      + intros [= <-]. right. split; [|done].
        by eapply get_all_ancestors_raise.
      + done.
    - intros [= <-]. right. split; [by eapply common_loop_raise|].
      intros ->. done.
    - done. }
  split_and!.
  - intros Ha. by destruct (Hcases _ Ha) as [[? _]|[? _]].
  - split.
    + intros He. by destruct (Hcases _ He) as [[_ ?]|[? _]].
    + by intros ->.
  - intros e He. destruct (Hcases _ He) as [[? _]|[? _]]; auto.
Qed.

(** X4: whenever [find_lca] returns, on any parent map, every member has
    a chain to the root that holds the returned node, and every node
    common to all those chains lies on the chain of the returned node. *)
Theorem find_lca_sound (fuel : nat) (tax_ids : list Z) (p : gmap Z Z)
    (r : Z) :
  find_lca fuel tax_ids p = Ok r →
  tax_ids ≠ []
  ∧ (∀ x, x ∈ tax_ids → on_chain p r x)
  ∧ (∀ c, (∀ x, x ∈ tax_ids → on_chain p c x) → on_chain p c r).
Proof.
  intros Hr. destruct (find_lca_ok_walkable _ _ _ _ Hr) as [Hne Hw].
  destruct (find_lca_spec p fuel tax_ids Hne Hw) as (r' & Hr' & Hcom & Hdeep).
  assert (r' = r) as -> by congruence.
  split_and!; [done| |].
  - intros x Hx. destruct (Hw x Hx) as (l & Hl & _). exists l.
    split; [done|]. by eapply Hcom.
  - intros c Hc. apply Hdeep. intros x l Hx Hl.
    destruct (Hc x Hx) as (l' & Hl' & Hin).
    by rewrite (walk_fun p _ _ _ Hl Hl').
Qed.

Lemma find_lca_sound_witness :
  find_lca 2 [3; 4] demo_parent = Ok 2 ∧
  [3; 4] ≠ []
  ∧ (∀ x, x ∈ [3; 4] → on_chain demo_parent 2 x)
  ∧ (∀ c, (∀ x, x ∈ [3; 4] → on_chain demo_parent c x) →
          on_chain demo_parent c 2).
Proof.
  assert (Hr : find_lca 2 [3; 4] demo_parent = Ok 2).
  { vm_compute. reflexivity. }
  split; [exact Hr|].
  exact (find_lca_sound 2 [3; 4] demo_parent 2 Hr).
Defined.

(** X5: the result of [find_lca] depends on the set of taxon IDs only:
    if it returns on one listing of the members it returns the same node
    on any other listing, in any order and with any repetition. *)
Theorem find_lca_listing (fuel : nat) (l l' : list Z) (p : gmap Z Z)
    (r : Z) :
  find_lca fuel l p = Ok r → (∀ x, x ∈ l ↔ x ∈ l') →
  find_lca fuel l' p = Ok r.
Proof.
  intros Hr Hmem. destruct (find_lca_ok_walkable _ _ _ _ Hr) as [Hne Hw].
  by rewrite <- (find_lca_order p fuel l l' Hw Hne Hmem).
Qed.

Lemma find_lca_listing_witness :
  find_lca 2 [3; 4] demo_parent = Ok 2 ∧
  (∀ x, x ∈ [3; 4] ↔ x ∈ [4; 3; 4]) ∧
  find_lca 2 [4; 3; 4] demo_parent = Ok 2.
Proof.
  assert (Hr : find_lca 2 [3; 4] demo_parent = Ok 2).
  { vm_compute. reflexivity. }
  assert (Hmem : ∀ x, x ∈ [3; 4] ↔ x ∈ [4; 3; 4]).
  { intros x. rewrite !elem_of_cons, !elem_of_nil. tauto. }
  split; [exact Hr|]. split; [exact Hmem|].
  exact (find_lca_listing 2 [3; 4] [4; 3; 4] demo_parent 2 Hr Hmem).
Defined.

(** ** More on load_tax_info: failures, key sets, duplicates *)

Lemma first_pass_mono data rk sr rk' sr' x :
  first_pass data rk sr = Ok (rk', sr') →
  (is_Some (rk !! x) → is_Some (rk' !! x))
  ∧ (is_Some (sr !! x) → is_Some (sr' !! x)).
Proof.
  revert rk sr. induction data as [|[[y par] rank] data IH]; intros rk sr;
    simpl.
  - by intros [= <- <-].
  - assert (Hins : ∀ (m : gmap Z string) v,
      is_Some (m !! x) → is_Some (<[y := v]> m !! x)).
    { intros m v Hm. destruct (decide (y = x)) as [->|Hne].
      - rewrite lookup_insert_eq. by eexists.
      - by rewrite lookup_insert_ne. }
    repeat case_decide; try done; intros Hfp;
      destruct (IH _ _ Hfp) as [Hrk Hsr]; split; auto.
Qed.

Lemma first_pass_keys data rk sr rk' sr' x :
  first_pass data rk sr = Ok (rk', sr') →
  (is_Some (rk' !! x) ↔ is_Some (rk !! x) ∨ x ∈ tax_ids_of data)
  ∧ (is_Some (sr' !! x) → is_Some (sr !! x) ∨ x ∈ tax_ids_of data)
  ∧ (∀ par rank, (x, par, rank) ∈ data →
       rank ∈ acceptable_ranks ∨ x = 1 → is_Some (sr' !! x)).
Proof.
  revert rk sr. induction data as [|[[y par] rank] data IH]; intros rk sr.
  - simpl. intros [= <- <-]. unfold tax_ids_of. simpl. split_and!.
    + split; [by left|]. intros [?|Hx]; [done|by apply elem_of_nil in Hx].
    + by left.
    + intros par rank Hin. by apply elem_of_nil in Hin.
  - rewrite first_pass_cons.
    destruct (first_pass_step (y, par, rank) rk sr) as [[rk1 sr1]|e|] eqn:H1;
      [|done..].
    cbn -[first_pass first_pass_step]. intros Hfp.
    destruct (IH _ _ Hfp) as (Hrk & Hsr & Hacc).
    pose proof (first_pass_step_eq _ _ _ _ _ _ _ H1) as [Hrk1 Hsr1].
    assert (Hne : x ≠ y → rk1 !! x = rk !! x ∧ sr1 !! x = sr !! x).
    { intros Hxy.
      apply (first_pass_other [(y, par, rank)] rk sr rk1 sr1 x); [|exact H1].
      unfold tax_ids_of. simpl.
      apply not_elem_of_cons. split; [done|apply not_elem_of_nil]. }
    unfold tax_ids_of. simpl. fold (tax_ids_of data).
    split_and!.
    + rewrite Hrk, elem_of_cons. destruct (decide (x = y)) as [->|Hxy].
      * rewrite Hrk1. split; [by right; left|]. intros _. left. by eexists.
      * destruct (Hne Hxy) as [-> _]. tauto.
    + intros Hx. rewrite elem_of_cons.
      destruct (Hsr Hx) as [Hs|?]; [|by right; right].
      destruct (decide (x = y)) as [->|Hxy]; [by right; left|].
      destruct (Hne Hxy) as [_ Heq]. rewrite Heq in Hs. by left.
    + intros par' rank' [[= -> -> ->]|Hin]%elem_of_cons Hor.
      * apply (first_pass_mono _ _ _ _ _ y Hfp). rewrite Hsr1.
        unfold own_rank. destruct Hor as [Hacc'| ->].
        -- rewrite decide_True by done. by eexists.
        -- case_decide; [by eexists|]. rewrite decide_True by done.
           by eexists.
      * by eapply Hacc.
Qed.

Lemma first_pass_root_assert data rk sr par rank :
  (1, par, rank) ∈ data → rank ∉ acceptable_ranks → par ≠ 1 →
  first_pass data rk sr = Raise AssertionError.
Proof.
  intros Hin Hacc Hpar.
  apply list_elem_of_split in Hin as (pre & post & ->).
  rewrite first_pass_split.
  destruct (first_pass pre rk sr) as [[rk0 sr0]|e|] eqn:H0.
  - cbn -[first_pass first_pass_step]. rewrite first_pass_step_root.
    rewrite decide_False by done. by rewrite decide_False by done.
  - by apply first_pass_raise in H0 as ->.
  - by apply first_pass_fuel in H0.
Qed.

(** The second pass with a standard rank at the root: it asserts
    nothing, and it returns exactly when every node it has to place has a
    chain within the loop bound. *)
Lemma second_pass_cases fuel data p sr :
  is_Some (sr !! 1) →
  (∀ x par rank, (x, par, rank) ∈ data → rank ∈ acceptable_ranks →
     is_Some (sr !! x)) →
  second_pass fuel data p sr ≠ Raise AssertionError
  ∧ ((∃ sr', second_pass fuel data p sr = Ok sr') ↔
     ∀ x, x ∈ tax_ids_of data → sr !! x = None →
       ∃ l, walk p x l ∧ (length l ≤ S fuel)%nat).
Proof.
  revert sr. induction data as [|[[x par] rank] data IH]; intros sr H1 Hacc.
  - simpl. split; [done|]. split; [|by eexists].
    intros _ x Hx. by apply elem_of_nil in Hx.
  - assert (Hacc' : ∀ sr0 : gmap Z string,
      (∀ y, is_Some (sr !! y) → is_Some (sr0 !! y)) →
      ∀ y par' rank', (y, par', rank') ∈ data → rank' ∈ acceptable_ranks →
        is_Some (sr0 !! y)).
    { intros sr0 Hsub y par' rank' Hin Hr. apply Hsub.
      apply (Hacc y par' rank'); [by right|done]. }
    unfold tax_ids_of. cbn [second_pass fmap list_fmap fst].
    fold (tax_ids_of data).
    destruct (decide (is_Some (sr !! x))) as [Hx|Hx].
    { destruct (IH sr H1 (Hacc' sr (λ _ H, H))) as [Hna Hiff].
      split; [done|]. rewrite Hiff. split.
      - intros Hall y [->|Hy]%elem_of_cons Hnone; [|auto].
        rewrite Hnone in Hx. by destruct Hx.
      - intros Hall y Hy. apply Hall. by right. }
    rewrite decide_False.
    2:{ intros Hr. apply Hx. apply (Hacc x par rank); [left|done]. }
    destruct (get_all_ancestors fuel x p) as [l|e|] eqn:Hl.
    + cbn -[second_pass].
      assert (Hfound : is_Some (inherit_loop x l sr !! x)).
      { apply (inherit_loop_finds x l sr 1); [|done].
        by eapply ancestors_ok_root. }
      rewrite decide_True by done.
      apply eq_None_not_Some in Hx as Hnone.
      assert (Hsub : ∀ y, is_Some (sr !! y) →
                          is_Some (inherit_loop x l sr !! y)).
      { intros y Hy. destruct (decide (y = x)) as [->|Hne]; [done|].
        by rewrite inherit_loop_keeps. }
      destruct (IH (inherit_loop x l sr) (Hsub 1 H1) (Hacc' _ Hsub))
        as [Hna Hiff].
      split; [done|]. rewrite Hiff.
      apply get_all_ancestors_inv in Hl as [Hw Hlen]. split.
      * intros Hall y [->|Hy]%elem_of_cons Hy0; [by exists l|].
        destruct (decide (y = x)) as [->|Hne]; [by exists l|].
        apply Hall; [done|]. by rewrite inherit_loop_keeps.
      * intros Hall y Hy Hy0. apply Hall; [by right|].
        destruct (decide (y = x)) as [->|Hne].
        -- rewrite Hy0 in Hfound. by destruct Hfound.
        -- by rewrite inherit_loop_keeps in Hy0.
    + cbn. pose proof (get_all_ancestors_raise _ _ _ _ Hl) as ->.
      split; [done|]. split; [by intros [? ?]|].
      intros Hall. destruct (Hall x) as (l & Hw & Hlen); [left|by apply eq_None_not_Some|].
      by rewrite (get_all_ancestors_walk p fuel x l Hw Hlen) in Hl.
    + cbn. split; [done|]. split; [by intros [? ?]|].
      intros Hall. destruct (Hall x) as (l & Hw & Hlen); [left|by apply eq_None_not_Some|].
      by rewrite (get_all_ancestors_walk p fuel x l Hw Hlen) in Hl.
Qed.

Lemma second_pass_keys_sub fuel data p sr sr' x :
  second_pass fuel data p sr = Ok sr' →
  is_Some (sr' !! x) → is_Some (sr !! x) ∨ x ∈ tax_ids_of data.
Proof.
  revert sr. induction data as [|[[y par] rank] data IH]; intros sr.
  - simpl. intros [= <-]. by left.
  - unfold tax_ids_of. cbn [second_pass fmap list_fmap fst].
    fold (tax_ids_of data). rewrite elem_of_cons.
    case_decide as Hy.
    { intros Hsp Hx. destruct (IH _ Hsp Hx); auto. }
    case_decide; [done|].
    destruct (get_all_ancestors fuel y p) as [l|e|]; [|done..].
    cbn -[second_pass]. case_decide; [|done].
    intros Hsp Hx. destruct (IH _ Hsp Hx) as [Hs|?]; [|auto].
    destruct (decide (x = y)) as [->|Hne]; [auto|].
    apply eq_None_not_Some in Hy.
    rewrite inherit_loop_keeps in Hs by done. by left.
Qed.



(** X7: for records with pairwise distinct taxon IDs that include the
    root, construction returns exactly when every root record with a
    rank outside the seven labels has parent 1 and every node without a
    standard rank of its own (other than 0) has a parent chain to the
    root within the loop bound; the chains of nodes that carry one of the
    seven labels are not looked at. *)
Theorem load_tax_info_returns_iff (fuel : nat)
    (tree_data : list tree_record) :
  NoDup (tax_ids_of tree_data) → 1 ∈ tax_ids_of tree_data →
  (∃ res, load_tax_info fuel tree_data = Ok res) ↔
  (∀ par rank, (1, par, rank) ∈ tree_data → rank ∉ acceptable_ranks →
     par = 1)
  ∧ (∀ x par rank, (x, par, rank) ∈ tree_data →
       own_rank x rank = None → x ≠ 0 →
       ∃ l, walk (parent_loop tree_data ∅) x l ∧ (length l ≤ S fuel)%nat).
Proof.
  intros Hnd Hroot. unfold load_tax_info.
  set (p := parent_loop tree_data ∅).
  destruct (first_pass tree_data {[0 := "unclassified"]}
              {[0 := "unclassified"]}) as [[rk S1]|e|] eqn:Hfp.
  - cbn -[second_pass].
    assert (Hpar : ∀ par rank, (1, par, rank) ∈ tree_data →
                     rank ∉ acceptable_ranks → par = 1).
    { intros par rank Hin Hacc. destruct (decide (par = 1)); [done|].
      by rewrite (first_pass_root_assert _ _ _ par rank Hin Hacc) in Hfp. }
    assert (HS1 : ∀ x par rank, (x, par, rank) ∈ tree_data →
      S1 !! x = None ↔ own_rank x rank = None ∧ x ≠ 0).
    { intros x par rank Hin.
      destruct (first_pass_record _ _ _ _ _ _ _ _ Hnd Hin Hfp) as [_ ->].
      destruct (own_rank x rank) as [v|]; [by split; [|intros [? _]]|].
      destruct (decide (x = 0)) as [->|Hx0].
      - rewrite lookup_singleton_eq. split; [done|]. by intros [_ ?].
      - by rewrite lookup_singleton_ne. }
    destruct (second_pass_cases fuel tree_data p S1) as [_ Hiff].
    { apply elem_of_tax_ids_of in Hroot as (par & rank & Hin).
      destruct (first_pass_keys _ _ _ _ _ 1 Hfp) as (_ & _ & Hacc).
      apply (Hacc par rank Hin). by right. }
    { intros x par' rank' Hin' Hr.
      destruct (first_pass_keys _ _ _ _ _ x Hfp) as (_ & _ & Hacc).
      apply (Hacc par' rank' Hin'). by left. }
    split.
    + intros [res Hres]. split; [done|].
      intros x par rank Hin Hown Hx0.
      apply Hiff.
      * destruct (second_pass fuel tree_data p S1) as [sr|e|]; [|done..].
        by eexists.
      * apply elem_of_tax_ids_of. by exists par, rank.
      * apply (HS1 x par rank Hin). done.
    + intros [_ Hwalk].
      destruct Hiff as [_ [sr Hsr]].
      * intros x Hx Hnone.
        apply elem_of_tax_ids_of in Hx as (par & rank & Hin).
        apply (HS1 x par rank Hin) in Hnone as [Hown Hx0]. eauto.
      * rewrite Hsr. cbn. by eexists.
  - apply first_pass_raise in Hfp as Heq. subst e. cbn. split.
    + by intros [? ?].
    + intros [Hpar _]. exfalso.
      destruct (first_pass_total tree_data {[0 := "unclassified"]}
                  {[0 := "unclassified"]} Hpar) as (rk & S1 & Hfp').
      congruence.
  - by apply first_pass_fuel in Hfp.
Qed.

Lemma load_tax_info_returns_iff_witness :
  NoDup (tax_ids_of deep_tree) ∧ 1 ∈ tax_ids_of deep_tree ∧
  ((∃ res, load_tax_info 3 deep_tree = Ok res) ↔
   (∀ par rank, (1, par, rank) ∈ deep_tree → rank ∉ acceptable_ranks →
      par = 1)
   ∧ (∀ x par rank, (x, par, rank) ∈ deep_tree →
        own_rank x rank = None → x ≠ 0 →
        ∃ l, walk (parent_loop deep_tree ∅) x l ∧ (length l ≤ 4)%nat)).
Proof.
  assert (Hnd : NoDup (tax_ids_of deep_tree)).
  { unfold tax_ids_of, deep_tree. simpl.
    repeat (apply NoDup_cons; split;
      [repeat (apply not_elem_of_cons; split; [done|]); apply not_elem_of_nil|]).
    apply NoDup_nil_2. }
  assert (Hroot : 1 ∈ tax_ids_of deep_tree).
  { unfold tax_ids_of, deep_tree. simpl.
    apply list_elem_of_further, list_elem_of_here. }
  split; [exact Hnd|]. split; [exact Hroot|].
  exact (load_tax_info_returns_iff 3 deep_tree Hnd Hroot).
Defined.

(** X8: after construction the keys of the parent map are the taxon IDs
    of the records, the keys of both rank maps are those and 0, and for a
    taxon ID with several records the last one decides its parent and its
    raw rank (the root's raw rank being "root" when that last rank is not
    one of the seven). *)
Theorem load_tax_info_keys (fuel : nat) (tree_data : list tree_record)
    (p : gmap Z Z) (rk sr : gmap Z string) :
  load_tax_info fuel tree_data = Ok (p, rk, sr) →
  (∀ x, is_Some (p !! x) ↔ x ∈ tax_ids_of tree_data)
  ∧ (∀ x, is_Some (rk !! x) ↔ x ∈ tax_ids_of tree_data ∨ x = 0)
  ∧ (∀ x, is_Some (sr !! x) ↔ x ∈ tax_ids_of tree_data ∨ x = 0)
  ∧ (∀ pre x par rank post,
       tree_data = pre ++ (x, par, rank) :: post → x ∉ tax_ids_of post →
       p !! x = Some par ∧ rk !! x = Some (kept_rank x rank)).
Proof.
  unfold load_tax_info.
  destruct (first_pass tree_data _ _) as [[rk1 S1]|e|] eqn:Hfp; [|done..].
  cbn -[first_pass second_pass].
  destruct (second_pass fuel tree_data _ S1) as [sr2|e|] eqn:Hsp; [|done..].
  cbn. intros [= <- <- <-].
  assert (Hinit : ∀ x, is_Some (({[0 := "unclassified"]} : gmap Z string) !! x)
                       ↔ x = 0).
  { intros x. destruct (decide (x = 0)) as [->|Hne].
    - rewrite lookup_singleton_eq. split; [done|by eexists].
    - rewrite lookup_singleton_ne by done. split; [by intros [? ?]|done]. }
  split_and!.
  - intros x. rewrite parent_loop_dom, lookup_empty. split; [|by left].
    intros [?|[? ?]]; done.
  - intros x. destruct (first_pass_keys _ _ _ _ _ x Hfp) as (Hrk & _ & _).
    rewrite Hrk, Hinit. tauto.
  - intros x. split.
    + intros Hx. apply (second_pass_keys_sub _ _ _ _ _ _ Hsp) in Hx.
      destruct Hx as [Hx|?]; [|by left].
      destruct (first_pass_keys _ _ _ _ _ x Hfp) as (_ & Hsr & _).
      destruct (Hsr Hx) as [H0|?]; [|by left]. right. by apply Hinit.
    + intros [Hx| ->]; [by eapply second_pass_dom|].
      destruct (first_pass_mono _ _ _ _ _ 0 Hfp) as [_ H0].
      destruct H0 as [v Hv]; [by apply Hinit|].
      exists v. by eapply second_pass_keeps.
  - intros pre x par rank post -> Hpost. split; [by apply parent_loop_last|].
    rewrite first_pass_split in Hfp.
    destruct (first_pass pre _ _) as [[rk0 sr0]|e|]; [|done..].
    cbn -[first_pass first_pass_step] in Hfp.
    destruct (first_pass_step (x, par, rank) rk0 sr0) as [[rk' sr']|e|] eqn:H1;
      [|done..].
    cbn -[first_pass first_pass_step] in Hfp.
    apply (first_pass_other _ _ _ _ _ x Hpost) in Hfp as [-> _].
    by apply first_pass_step_eq in H1 as [-> _].
Qed.

Lemma load_tax_info_keys_witness :
  load_tax_info 3 deep_tree = Ok (deep_parent, deep_rank, deep_standard_rank) ∧
  (∀ x, is_Some (deep_parent !! x) ↔ x ∈ tax_ids_of deep_tree)
  ∧ (∀ x, is_Some (deep_rank !! x) ↔ x ∈ tax_ids_of deep_tree ∨ x = 0)
  ∧ (∀ x, is_Some (deep_standard_rank !! x) ↔
          x ∈ tax_ids_of deep_tree ∨ x = 0)
  ∧ (∀ pre x par rank post,
       deep_tree = pre ++ (x, par, rank) :: post → x ∉ tax_ids_of post →
       deep_parent !! x = Some par ∧ deep_rank !! x = Some (kept_rank x rank)).
Proof.
  assert (Hload : load_tax_info 3 deep_tree
                  = Ok (deep_parent, deep_rank, deep_standard_rank)).
  { vm_compute. reflexivity. }
  split; [exact Hload|].
  exact (load_tax_info_keys 3 deep_tree deep_parent deep_rank
           deep_standard_rank Hload).
Defined.

(** X9: after construction from records with pairwise distinct taxon IDs
    that include the root, a node of the records without a standard rank
    of its own has a parent in the map and carries the standard rank of
    that parent. *)
Theorem standard_rank_of_parent (fuel : nat) (tree_data : list tree_record)
    (p : gmap Z Z) (rk sr : gmap Z string) (x : Z) :
  NoDup (tax_ids_of tree_data) → 1 ∈ tax_ids_of tree_data →
  load_tax_info fuel tree_data = Ok (p, rk, sr) →
  x ∈ tax_ids_of tree_data → ¬ has_own_rank rk x →
  ∃ y label, p !! x = Some y ∧ sr !! x = Some label ∧ sr !! y = Some label.
Proof.
  intros Hnd Hroot Hload Hx Hown. unfold load_tax_info in Hload.
  destruct (first_pass tree_data _ _) as [[rk1 S1]|e|] eqn:Hfp; [|done..].
  cbn -[first_pass second_pass] in Hload.
  destruct (second_pass fuel tree_data _ S1) as [sr2|e|] eqn:Hsp; [|done..].
  cbn in Hload. injection Hload as <- <- <-.
  set (p := parent_loop tree_data ∅) in *.
  pose proof (second_pass_inv _ S1 _ _ _ _ Hsp (standard_rank_inv_init _ S1))
    as [Hsub Hinv].
  destruct (second_pass_dom _ _ _ _ _ x Hsp Hx) as [label Hlabel].
  destruct (Hinv x label Hlabel) as (a & Ha & HS).
  assert (Hhas : ∀ z, is_Some (S1 !! z) ↔ has_own_rank rk1 z).
  { intros z. by eapply first_pass_has. }
  destruct Ha as [x Hx'|x y a Hx' Hp Hn].
  { by apply Hhas in Hx'. }
  exists y, label. split_and!; [done..|].
  assert (Hy : is_Some (sr2 !! y)).
  { destruct Hn as [y Hy|y z a Hy Hpy _].
    - by apply Hsub.
    - eapply second_pass_dom; [done|].
      assert (Hdom : is_Some (p !! y)) by by eexists.
      unfold p in Hdom. rewrite parent_loop_dom, lookup_empty in Hdom.
      destruct Hdom as [?|[? ?]]; done. }
  destruct Hy as [label' Hlabel']. rewrite Hlabel'. f_equal.
  destruct (Hinv y label' Hlabel') as (a' & Ha' & HS').
  rewrite (nearest_fun _ _ _ _ _ Hn Ha') in HS. congruence.
Qed.

Lemma standard_rank_of_parent_witness :
  NoDup (tax_ids_of deep_tree) ∧ 1 ∈ tax_ids_of deep_tree ∧
  load_tax_info 3 deep_tree = Ok (deep_parent, deep_rank, deep_standard_rank) ∧
  6 ∈ tax_ids_of deep_tree ∧ ¬ has_own_rank deep_rank 6 ∧
  ∃ y label, deep_parent !! 6 = Some y
    ∧ deep_standard_rank !! 6 = Some label
    ∧ deep_standard_rank !! y = Some label.
Proof.
  assert (Hnd : NoDup (tax_ids_of deep_tree)).
  { unfold tax_ids_of, deep_tree. simpl.
    repeat (apply NoDup_cons; split;
      [repeat (apply not_elem_of_cons; split; [done|]); apply not_elem_of_nil|]).
    apply NoDup_nil_2. }
  assert (Hroot : 1 ∈ tax_ids_of deep_tree).
  { unfold tax_ids_of, deep_tree. simpl.
    apply list_elem_of_further, list_elem_of_here. }
  assert (Hload : load_tax_info 3 deep_tree
                  = Ok (deep_parent, deep_rank, deep_standard_rank)).
  { vm_compute. reflexivity. }
  assert (Hx : 6 ∈ tax_ids_of deep_tree).
  { unfold tax_ids_of, deep_tree. simpl. apply list_elem_of_here. }
  assert (Hown : ¬ has_own_rank deep_rank 6).
  { intros [?|[?|(r & Hr & Hacc)]]; [done..|].
    vm_compute in Hr. injection Hr as <-.
    repeat (apply elem_of_cons in Hacc as [Hacc|Hacc]; [discriminate|]).
    by apply elem_of_nil in Hacc. }
  split; [exact Hnd|]. split; [exact Hroot|]. split; [exact Hload|].
  split; [exact Hx|]. split; [exact Hown|].
  exact (standard_rank_of_parent 3 deep_tree deep_parent deep_rank
           deep_standard_rank 6 Hnd Hroot Hload Hx Hown).
Defined.

(** ** More on load_tax_ids_per_read: grouping *)

(** [od_add] on the dictionary seen as a finite map. *)
Lemma od_add_map d read_name tax_id :
  od_map (od_add d read_name tax_id) =
  <[read_name := set_add tax_id (default [] (od_map d !! read_name))]>
    (od_map d).
Proof.
  unfold od_map. induction d as [|[k s] d IH]; [done|].
  cbn [od_add]. destruct (decide (k = read_name)) as [->|Hne].
  - rewrite !list_to_map_cons, lookup_insert_eq. simpl.
    by rewrite insert_insert_eq.
  - rewrite !list_to_map_cons, IH.
    rewrite lookup_insert_ne by done. by apply insert_insert_ne.
Qed.

Lemma load_loop_members lines d d' k x :
  load_loop lines d = Ok d' →
  x ∈ default [] (od_map d' !! k) ↔
  x ∈ default [] (od_map d !! k)
  ∨ ∃ r, r ∈ lines ∧ ¬ is_header r ∧ r.1.1 = k ∧ recorded_tax_id r = x.
Proof.
  revert d. induction lines as [|r lines IH]; intros d.
  - intros [= <-]. split; [by left|].
    intros [?|(r & Hr & _)]; [done|by apply elem_of_nil in Hr].
  - rewrite load_loop_cons.
    assert (Hcons : ∀ P : Prop,
      (P ∨ ∃ r', r' ∈ lines ∧ ¬ is_header r' ∧ r'.1.1 = k
                  ∧ recorded_tax_id r' = x)
      ∨ (¬ is_header r ∧ r.1.1 = k ∧ recorded_tax_id r = x) ↔
      P ∨ ∃ r', r' ∈ r :: lines ∧ ¬ is_header r' ∧ r'.1.1 = k
                ∧ recorded_tax_id r' = x).
    { intros P. split.
      - intros [[?|(r' & Hr' & ?)]|?]; [by left| |].
        + right. exists r'. split; [by right|done].
        + right. exists r. split; [left|done].
      - intros [?|(r' & [->|Hr']%elem_of_cons & ?)];
          [by left; left|by right|].
        left. right. by exists r'. }
    destruct (decide (is_header r)) as [Hhead|Hhead].
    { intros Hl. rewrite (IH _ Hl), <- Hcons. split; [by left|].
      intros [?|[? _]]; done. }
    intros Hl.
    assert (Hl' : load_loop lines (od_add d r.1.1 (recorded_tax_id r)) = Ok d').
    { destruct (decide (recorded_tax_id r = 0)); [|done].
      unfold assert_that in Hl.
      by destruct (decide (r.1.2 = "unclassified")). }
    rewrite (IH _ Hl'), od_add_map, <- Hcons.
    destruct (decide (r.1.1 = k)) as [Hk|Hk].
    + rewrite Hk, lookup_insert_eq. simpl. rewrite elem_of_set_add.
      split.
      * intros [[?| <-]|?]; [by left; left|by right|by left; right].
      * intros [[?|?]|(_ & _ & <-)];
          [by left; left|by right|by left; right].
    + rewrite lookup_insert_ne by done. split.
      * intros [?|?]; [by left; left|by left; right].
      * intros [[?|?]|(_ & ? & _)]; [by left|by right|done].
Qed.

(** The names in insertion order: each name once, at its first
    occurrence. *)
Lemma load_loop_order lines d d' :
  load_loop lines d = Ok d' →
  d'.*1 =
  foldl (λ ks (r : class_record),
           if decide (is_header r) then ks
           else if decide (r.1.1 ∈ ks) then ks else ks ++ [r.1.1])
    d.*1 lines.
Proof.
  revert d. induction lines as [|r lines IH]; intros d.
  - by intros [= <-].
  - rewrite load_loop_cons. cbn [foldl].
    destruct (decide (is_header r)) as [Hhead|Hhead]; [apply IH|].
    intros Hl.
    assert (Hl' : load_loop lines (od_add d r.1.1 (recorded_tax_id r)) = Ok d').
    { destruct (decide (recorded_tax_id r = 0)); [|done].
      unfold assert_that in Hl.
      by destruct (decide (r.1.2 = "unclassified")). }
    rewrite (IH _ Hl'). by rewrite od_add_keys.
Qed.

(** X10: the loaded dictionary groups the records by read name: its keys
    are the names of the non-header records, each once and in the order
    of first occurrence, and the set kept for a name is duplicate-free,
    non-empty and holds exactly the recorded taxon IDs of the records with
    that name (a record named "readID" is dropped wherever it stands). *)
Theorem load_tax_ids_per_read_groups (lines : list class_record)
    (reads : list (string * list Z)) :
  load_tax_ids_per_read lines = Ok reads →
  NoDup reads.*1
  ∧ reads.*1 =
    foldl (λ ks (r : class_record),
             if decide (is_header r) then ks
             else if decide (r.1.1 ∈ ks) then ks else ks ++ [r.1.1])
      [] lines
  ∧ (∀ k, k ∈ reads.*1 ↔ ∃ r, r ∈ lines ∧ ¬ is_header r ∧ r.1.1 = k)
  ∧ (∀ k s, (k, s) ∈ reads →
       NoDup s ∧ s ≠ [] ∧
       ∀ x, x ∈ s ↔
         ∃ r, r ∈ lines ∧ ¬ is_header r ∧ r.1.1 = k ∧ recorded_tax_id r = x).
Proof.
  unfold load_tax_ids_per_read. intros Hl.
  destruct (load_loop_keys _ _ _ Hl) as [Hnd Hkeys]; [apply NoDup_nil_2|].
  pose proof (load_loop_sets (λ _, True) lines [] reads) as Hsets.
  split_and!; [done| | |].
  - by apply (load_loop_order lines []).
  - intros k. rewrite Hkeys. split; [|by right].
    intros [Hk|?]; [by apply elem_of_nil in Hk|done].
  - intros k s Hin.
    assert (Hs : Forall (λ kv : string * list Z,
      kv.2 ≠ [] ∧ NoDup kv.2 ∧ ∀ x, x ∈ kv.2 → True) reads).
    { apply Hsets; [done|constructor|done]. }
    rewrite Forall_forall in Hs. destruct (Hs _ Hin) as (Hne & Hnds & _).
    split_and!; [done..|]. intros x.
    pose proof (load_loop_members lines [] reads k x Hl) as Hmem.
    unfold od_map in Hmem at 1.
    rewrite (elem_of_list_to_map_1 reads k s Hnd Hin) in Hmem.
    simpl in Hmem. rewrite Hmem. split; [|by right].
    intros [Hx|?]; [by apply elem_of_nil in Hx|done].
Qed.

Lemma load_tax_ids_per_read_groups_witness :
  load_tax_ids_per_read demo_lines = Ok demo_reads ∧
  NoDup demo_reads.*1
  ∧ demo_reads.*1 =
    foldl (λ ks (r : class_record),
             if decide (is_header r) then ks
             else if decide (r.1.1 ∈ ks) then ks else ks ++ [r.1.1])
      [] demo_lines
  ∧ (∀ k, k ∈ demo_reads.*1 ↔
          ∃ r, r ∈ demo_lines ∧ ¬ is_header r ∧ r.1.1 = k)
  ∧ (∀ k s, (k, s) ∈ demo_reads →
       NoDup s ∧ s ≠ [] ∧
       ∀ x, x ∈ s ↔
         ∃ r, r ∈ demo_lines ∧ ¬ is_header r ∧ r.1.1 = k
              ∧ recorded_tax_id r = x).
Proof.
  assert (Hl : load_tax_ids_per_read demo_lines = Ok demo_reads).
  { vm_compute. reflexivity. }
  split; [exact Hl|].
  exact (load_tax_ids_per_read_groups demo_lines demo_reads Hl).
Defined.

(** ** More on the loop of main: lines and counts *)

(** The climb adds one at every node of the chain and nowhere else. *)
Lemma cumulative_loop_count fuel p x cum cum' :
  cumulative_loop fuel p x cum = Ok cum' →
  ∃ l, walk p x l ∧ (length l ≤ fuel)%nat
    ∧ (∀ k, getdefault cum' k
            = getdefault cum k + (if decide (k ∈ l) then 1 else 0))
    ∧ (∀ k, is_Some (cum' !! k) ↔ is_Some (cum !! k) ∨ k ∈ l).
Proof.
  assert (Hincr : ∀ (c : gmap Z Z) y k,
    is_Some (incr c y !! k) ↔ is_Some (c !! k) ∨ k = y).
  { intros c y k. unfold incr. destruct (decide (y = k)) as [->|Hne].
    - rewrite lookup_insert_eq. split; [by right|by eexists].
    - rewrite lookup_insert_ne by done. split; [by left|].
      intros [?|?]; [done|congruence]. }
  revert x cum. induction fuel as [|fuel IH]; intros x cum; simpl; [done|].
  case_decide as Hx.
  - intros [= <-]. subst x. exists [1]. split_and!; [constructor|simpl; lia| |].
    + intros k. destruct (decide (1 = k)) as [<-|Hne].
      * rewrite getdefault_incr_eq, decide_True; [done|left].
      * rewrite getdefault_incr_ne by done.
        rewrite decide_False; [lia|].
        intros ?%list_elem_of_singleton. done.
    + intros k. by rewrite Hincr, list_elem_of_singleton.
  - unfold getitem. destruct (p !! x) as [y|] eqn:Hp; [|done]. simpl.
    intros (l & Hw & Hlen & Hcount & Hkeys)%IH.
    assert (Hwx : walk p x (x :: l)) by by econstructor.
    pose proof (walk_NoDup p _ _ Hwx) as [Hxl _]%NoDup_cons.
    exists (x :: l). split_and!; [done|simpl; lia| |].
    + intros k. rewrite Hcount. destruct (decide (x = k)) as [<-|Hne].
      * rewrite getdefault_incr_eq, decide_False by done.
        rewrite decide_True; [lia|left].
      * rewrite getdefault_incr_ne by done.
        destruct (decide (k ∈ l)) as [Hk|Hk].
        -- rewrite decide_True; [done|by right].
        -- rewrite decide_False; [done|].
           intros [?|?]%elem_of_cons; done.
    + intros k. rewrite Hkeys, Hincr, elem_of_cons. tauto.
Qed.

Lemma on_chainb_walk fuel p k x l :
  walk p x l → (length l ≤ S fuel)%nat →
  on_chainb fuel p k x = bool_decide (k ∈ l).
Proof.
  intros Hw Hlen. unfold on_chainb.
  by rewrite (get_all_ancestors_walk p fuel x l Hw Hlen).
Qed.

Lemma on_chainb_true fuel p k x :
  on_chainb fuel p k x = true → on_chain p k x.
Proof.
  unfold on_chainb.
  destruct (get_all_ancestors fuel x p) as [l|e|] eqn:Hl; [|done..].
  intros Hk%bool_decide_eq_true.
  apply get_all_ancestors_inv in Hl as [Hw _]. by exists l.
Qed.

Lemma count_rank_cons rank r rows :
  count_rank rank (r :: rows) =
  (if decide (row_standard_rank r = rank) then 1 else 0)
  + count_rank rank rows.
Proof.
  unfold count_rank. rewrite filter_cons.
  case_decide; simpl length; lia.
Qed.

Lemma count_below_cons fuel p k x resolved :
  count_below fuel p k (x :: resolved) =
  (if decide (x > 0 ∧ on_chainb fuel p k x = true) then 1 else 0)
  + count_below fuel p k resolved.
Proof.
  unfold count_below. rewrite filter_cons.
  case_decide; simpl length; lia.
Qed.

(** What the loop has written and counted, from any starting tables. *)
Lemma main_loop_tables fuel p rk sr reads t t' :
  main_loop fuel p rk sr reads t = Ok t' →
  ∃ rows,
    read_file t' = read_file t ++ rows
    ∧ Forall2 (λ (kv : string * list Z) r,
         row_read_name r = kv.1 ∧ row_tax_ids r = kv.2
         ∧ resolve fuel kv.2 p = Ok (row_tax_id r)
         ∧ rk !! row_tax_id r = Some (row_rank r)
         ∧ sr !! row_tax_id r = Some (row_standard_rank r)) reads rows
    ∧ (∀ rank, getdefault (count_per_rank t') rank
               = getdefault (count_per_rank t) rank + count_rank rank rows)
    ∧ (∀ k, getdefault (cumulative_counts_per_tax_id t') k
            = getdefault (cumulative_counts_per_tax_id t) k
              + count_below fuel p k (row_tax_id <$> rows))
    ∧ (∀ rank, is_Some (count_per_rank t' !! rank) ↔
               is_Some (count_per_rank t !! rank)
               ∨ ∃ r, r ∈ rows ∧ row_standard_rank r = rank)
    ∧ Forall (λ r, row_tax_id r > 0 →
         ∃ l, walk p (row_tax_id r) l ∧ (length l ≤ fuel)%nat) rows
    ∧ (∀ k, is_Some (cumulative_counts_per_tax_id t' !! k) ↔
            is_Some (cumulative_counts_per_tax_id t !! k)
            ∨ ∃ r, r ∈ rows ∧ row_tax_id r > 0 ∧ on_chain p k (row_tax_id r)).
Proof.
  revert t. induction reads as [|[read_name tax_ids] reads IH]; intros t.
  - intros [= <-]. exists []. split_and!.
    + by rewrite app_nil_r.
    + constructor.
    + intros rank. unfold count_rank. simpl. lia.
    + intros k. unfold count_below. simpl. lia.
    + intros rank. split; [by left|].
      intros [?|(r & Hr & _)]; [done|by apply elem_of_nil in Hr].
    + constructor.
    + intros k. split; [by left|].
      intros [?|(r & Hr & _)]; [done|by apply elem_of_nil in Hr].
  - intros (x & rank & standard_rank & cum & Hres & _ & Hrk & Hsr & Hcum
            & Hrest)%main_loop_step.
    apply IH in Hrest
      as (rows & Hrows & Hall & Hcpr & Hcums & Hkeys & Hwalks & Hckeys).
    simpl in Hrows, Hcpr, Hcums, Hkeys, Hckeys.
    exists (Row read_name tax_ids x rank standard_rank :: rows).
    split_and!.
    6:{ constructor; [|done]. simpl. intros Hpos.
        rewrite decide_True in Hcum by done.
        apply cumulative_loop_count in Hcum as (l & Hw & Hlen & _).
        by exists l. }
    6:{ intros k. rewrite Hckeys.
        assert (Hhead : is_Some (cum !! k) ↔
          is_Some (cumulative_counts_per_tax_id t !! k)
          ∨ (x > 0 ∧ on_chain p k x)).
        { destruct (decide (x > 0)) as [Hpos|Hpos].
          - apply cumulative_loop_count in Hcum as (l & Hw & _ & _ & Hk).
            rewrite Hk. split.
            + intros [?|?]; [by left|]. right. split; [done|]. by exists l.
            + intros [?|[_ (l' & Hw' & Hin)]]; [by left|]. right.
              by rewrite (walk_fun p _ _ _ Hw Hw').
          - subst cum. split; [by left|]. intros [?|[? _]]; done. }
        rewrite Hhead. split.
        - intros [[?|[? ?]]|(r & Hr & ?)]; [by left| |].
          + right. eexists. split; [left|]. done.
          + right. exists r. split; [by right|done].
        - intros [?|(r & [->|Hr]%elem_of_cons & ?)];
            [by left; left|by left; right|]. right. by exists r. }
    5:{ intros r. rewrite Hkeys. unfold incr.
      destruct (decide (standard_rank = r)) as [<-|Hne].
      - rewrite lookup_insert_eq. split; [|intros _; left; by eexists].
        intros _. right. eexists. split; [left|done].
      - rewrite lookup_insert_ne by done. split.
        + intros [?|(r' & Hr' & ?)]; [by left|].
          right. exists r'. split; [by right|done].
        + intros [?|(r' & [->|Hr']%elem_of_cons & ?)];
            [by left|done|]. right. by exists r'. }
    + by rewrite Hrows, <- app_assoc.
    + by constructor.
    + intros r. rewrite Hcpr, count_rank_cons. simpl.
      destruct (decide (standard_rank = r)) as [<-|Hne].
      * rewrite getdefault_incr_eq. lia.
      * rewrite getdefault_incr_ne by done. lia.
    + intros k. rewrite Hcums, fmap_cons, count_below_cons. simpl.
      destruct (decide (x > 0)) as [Hpos|Hpos].
      * apply cumulative_loop_count in Hcum as (l & Hw & Hlen & Hcount & _).
        rewrite Hcount, (on_chainb_walk fuel p k x l Hw) by lia.
        destruct (decide (k ∈ l)) as [Hk|Hk].
        -- rewrite decide_True; [lia|]. split; [done|].
           by apply bool_decide_eq_true.
        -- rewrite decide_False; [lia|].
           intros [_ ?%bool_decide_eq_true]. done.
      * subst cum. rewrite decide_False; [lia|]. by intros [? _].
Qed.

(** X11: the loop of [main] writes one line per read, in the order of
    the reads: the line carries the read name, the candidate set as it
    was before 0 is discarded, the resolved taxon ID and the entries of
    the two rank maps for it. *)
Theorem read_file_lines (fuel : nat) (p : gmap Z Z) (rk sr : gmap Z string)
    (reads : list (string * list Z)) (t : tables) :
  main_loop fuel p rk sr reads (Tables ∅ ∅ []) = Ok t →
  Forall2 (λ (kv : string * list Z) r,
      row_read_name r = kv.1 ∧ row_tax_ids r = kv.2
      ∧ resolve fuel kv.2 p = Ok (row_tax_id r)
      ∧ rk !! row_tax_id r = Some (row_rank r)
      ∧ sr !! row_tax_id r = Some (row_standard_rank r))
    reads (read_file t).
Proof.
  intros (rows & Hrows & Hall & _)%main_loop_tables.
  simpl in Hrows. by rewrite Hrows.
Qed.

Lemma read_file_lines_witness :
  main_loop 2 demo_parent demo_rank demo_rank demo_reads (Tables ∅ ∅ [])
  = Ok demo_tables ∧
  Forall2 (λ (kv : string * list Z) r,
      row_read_name r = kv.1 ∧ row_tax_ids r = kv.2
      ∧ resolve 2 kv.2 demo_parent = Ok (row_tax_id r)
      ∧ demo_rank !! row_tax_id r = Some (row_rank r)
      ∧ demo_rank !! row_tax_id r = Some (row_standard_rank r))
    demo_reads (read_file demo_tables).
Proof.
  assert (Hmain :
    main_loop 2 demo_parent demo_rank demo_rank demo_reads (Tables ∅ ∅ [])
    = Ok demo_tables).
  { vm_compute. reflexivity. }
  split; [exact Hmain|].
  exact (read_file_lines 2 demo_parent demo_rank demo_rank demo_reads
           demo_tables Hmain).
Defined.

(** X12: after the loop of [main] the per-rank count of every label is
    the number of written lines whose standard rank is that label; a
    label no read resolved to counts 0. *)
Theorem count_per_rank_lines (fuel : nat) (p : gmap Z Z)
    (rk sr : gmap Z string) (reads : list (string * list Z)) (t : tables)
    (rank : string) :
  main_loop fuel p rk sr reads (Tables ∅ ∅ []) = Ok t →
  getdefault (count_per_rank t) rank = count_rank rank (read_file t)
  ∧ (is_Some (count_per_rank t !! rank) ↔
     ∃ r, r ∈ read_file t ∧ row_standard_rank r = rank).
Proof.
  intros Hmain.
  pose proof (main_loop_tables _ _ _ _ _ _ _ Hmain)
    as (rows & Hrows & _ & Hcpr & _ & Hkeys & _).
  simpl in Hrows. rewrite Hrows. split.
  - rewrite Hcpr. simpl. unfold getdefault. rewrite lookup_empty. simpl. lia.
  - rewrite Hkeys. simpl. rewrite lookup_empty. split; [|by right].
    intros [[? ?]|?]; done.
Qed.

Lemma count_per_rank_lines_witness :
  main_loop 2 demo_parent demo_rank demo_rank demo_reads (Tables ∅ ∅ [])
  = Ok demo_tables ∧
  getdefault (count_per_rank demo_tables) "genus"
  = count_rank "genus" (read_file demo_tables)
  ∧ (is_Some (count_per_rank demo_tables !! "genus") ↔
     ∃ r, r ∈ read_file demo_tables ∧ row_standard_rank r = "genus").
Proof.
  assert (Hmain :
    main_loop 2 demo_parent demo_rank demo_rank demo_reads (Tables ∅ ∅ [])
    = Ok demo_tables).
  { vm_compute. reflexivity. }
  split; [exact Hmain|].
  exact (count_per_rank_lines 2 demo_parent demo_rank demo_rank demo_reads
           demo_tables "genus" Hmain).
Defined.

Lemma filter_length_mono {A} (P Q : A → Prop)
    `{∀ x, Decision (P x)} `{∀ x, Decision (Q x)} (l : list A) :
  (∀ x, x ∈ l → P x → Q x) →
  (length (filter P l) ≤ length (filter Q l))%nat.
Proof.
  induction l as [|a l IH]; intros Himp; [done|].
  rewrite !filter_cons.
  assert (IH' : (length (filter P l) ≤ length (filter Q l))%nat).
  { apply IH. intros x Hx. apply Himp. by right. }
  destruct (decide (P a)) as [HP|HP].
  - rewrite decide_True by (apply Himp; [left|done]). simpl. lia.
  - destruct (decide (Q a)); simpl; lia.
Qed.

Lemma filter_length_pos {A} (P : A → Prop) `{∀ x, Decision (P x)}
    (l : list A) x :
  x ∈ l → P x → (1 ≤ length (filter P l))%nat.
Proof.
  intros Hx HP.
  assert (Hin : x ∈ filter P l) by by apply list_elem_of_filter.
  destruct (filter P l); [by apply elem_of_nil in Hin|simpl; lia].
Qed.

Lemma walk_parent_in p x l k y :
  walk p x l → k ∈ l → k ≠ 1 → p !! k = Some y → y ∈ l.
Proof.
  intros Hw Hk Hk1 Hp.
  apply list_elem_of_split in Hk as (pre & rest & ->).
  pose proof (walk_suffix p x _ pre k rest Hw eq_refl) as Hwk.
  inversion Hwk as [|? y' ? ? Hp' Hwy]; subst; [done|].
  assert (y' = y) as -> by congruence.
  apply walk_head in Hwy. destruct rest as [|z rest]; simplify_eq/=.
  apply elem_of_app. right. right. left.
Qed.

(** X13: after the loop of [main] the cumulative count of any taxon ID
    is the number of reads whose resolved taxon ID is positive and has
    that taxon ID on its parent chain (itself included); the table has an
    entry exactly for the taxon IDs on the chain of some such read. *)
Theorem cumulative_count_below (fuel : nat) (p : gmap Z Z)
    (rk sr : gmap Z string) (reads : list (string * list Z)) (t : tables)
    (k : Z) :
  main_loop fuel p rk sr reads (Tables ∅ ∅ []) = Ok t →
  getdefault (cumulative_counts_per_tax_id t) k
  = count_below fuel p k (row_tax_id <$> read_file t)
  ∧ (∀ r, r ∈ read_file t → row_tax_id r > 0 →
       (on_chainb fuel p k (row_tax_id r) = true ↔
        on_chain p k (row_tax_id r)))
  ∧ (is_Some (cumulative_counts_per_tax_id t !! k) ↔
     ∃ r, r ∈ read_file t ∧ row_tax_id r > 0 ∧ on_chain p k (row_tax_id r)).
Proof.
  intros Hmain.
  pose proof (main_loop_tables _ _ _ _ _ _ _ Hmain)
    as (rows & Hrows & _ & _ & Hcum & _ & Hwalks & Hkeys).
  simpl in Hrows. rewrite Hrows. split_and!.
  - rewrite Hcum. simpl. unfold getdefault. rewrite lookup_empty. simpl. lia.
  - intros r Hr Hpos. rewrite Forall_forall in Hwalks.
    destruct (Hwalks r Hr Hpos) as (l & Hw & Hlen).
    rewrite (on_chainb_walk fuel p k _ l Hw) by lia.
    rewrite bool_decide_eq_true. split.
    + intros Hk. by exists l.
    + intros (l' & Hw' & Hk). by rewrite (walk_fun p _ _ _ Hw Hw').
  - rewrite Hkeys. simpl. rewrite lookup_empty. split; [|by right].
    intros [[? ?]|?]; done.
Qed.

Lemma cumulative_count_below_witness :
  main_loop 2 demo_parent demo_rank demo_rank demo_reads (Tables ∅ ∅ [])
  = Ok demo_tables ∧
  getdefault (cumulative_counts_per_tax_id demo_tables) 2
  = count_below 2 demo_parent 2 (row_tax_id <$> read_file demo_tables)
  ∧ (∀ r, r ∈ read_file demo_tables → row_tax_id r > 0 →
       (on_chainb 2 demo_parent 2 (row_tax_id r) = true ↔
        on_chain demo_parent 2 (row_tax_id r)))
  ∧ (is_Some (cumulative_counts_per_tax_id demo_tables !! 2) ↔
     ∃ r, r ∈ read_file demo_tables ∧ row_tax_id r > 0
          ∧ on_chain demo_parent 2 (row_tax_id r)).
Proof.
  assert (Hmain :
    main_loop 2 demo_parent demo_rank demo_rank demo_reads (Tables ∅ ∅ [])
    = Ok demo_tables).
  { vm_compute. reflexivity. }
  split; [exact Hmain|].
  exact (cumulative_count_below 2 demo_parent demo_rank demo_rank demo_reads
           demo_tables 2 Hmain).
Defined.

(** X14: after the loop of [main] the cumulative counts grow towards the
    root: a node other than 1 counts at most what its parent counts,
    every count lies between 0 and the count of taxon ID 1, which is at
    most the number of reads, and every entry of the table is at least
    1. *)
Theorem cumulative_counts_monotone (fuel : nat) (p : gmap Z Z)
    (rk sr : gmap Z string) (reads : list (string * list Z)) (t : tables) :
  main_loop fuel p rk sr reads (Tables ∅ ∅ []) = Ok t →
  (∀ k y, k ≠ 1 → p !! k = Some y →
     getdefault (cumulative_counts_per_tax_id t) k
     ≤ getdefault (cumulative_counts_per_tax_id t) y)
  ∧ (∀ k, 0 ≤ getdefault (cumulative_counts_per_tax_id t) k
          ≤ getdefault (cumulative_counts_per_tax_id t) 1)
  ∧ getdefault (cumulative_counts_per_tax_id t) 1
    ≤ Z.of_nat (length reads)
  ∧ (∀ k c, cumulative_counts_per_tax_id t !! k = Some c → 1 ≤ c).
Proof.
  intros Hmain.
  pose proof (main_loop_tables _ _ _ _ _ _ _ Hmain)
    as (rows & Hrows & Hall & _ & Hcum & _ & Hwalks & Hkeys).
  simpl in Hrows, Hcum, Hkeys.
  assert (Hval : ∀ k, getdefault (cumulative_counts_per_tax_id t) k
                      = count_below fuel p k (row_tax_id <$> rows)).
  { intros k. rewrite Hcum. unfold getdefault. rewrite lookup_empty.
    simpl. lia. }
  assert (Hchain : ∀ x k, on_chainb fuel p k x = true →
    ∃ l, get_all_ancestors fuel x p = Ok l ∧ walk p x l ∧ k ∈ l).
  { intros x k. unfold on_chainb.
    destruct (get_all_ancestors fuel x p) as [l|e|] eqn:Hl; [|done..].
    intros Hk%bool_decide_eq_true. exists l. split_and!; [done| |done].
    by apply get_all_ancestors_inv in Hl as [? _]. }
  assert (Hmono : ∀ k y, (∀ x l, walk p x l → k ∈ l → y ∈ l) →
    count_below fuel p k (row_tax_id <$> rows)
    ≤ count_below fuel p y (row_tax_id <$> rows)).
  { intros k y Himp. unfold count_below. apply inj_le.
    apply filter_length_mono. intros x _ [Hpos Hk]. split; [done|].
    destruct (Hchain x k Hk) as (l & Hl & Hw & Hin).
    unfold on_chainb. rewrite Hl. apply bool_decide_eq_true. eauto. }
  split_and!.
  - intros k y Hk Hp. rewrite !Hval. apply Hmono.
    intros x l Hw Hin. by eapply walk_parent_in.
  - intros k. rewrite !Hval. split.
    + unfold count_below. lia.
    + apply Hmono. intros x l Hw _.
      apply walk_last in Hw. apply last_Some in Hw as [l' ->].
      apply elem_of_app. right. left.
  - rewrite Hval. unfold count_below.
    apply inj_le. etrans; [apply length_filter|].
    by rewrite length_fmap, <- (Forall2_length _ _ _ Hall).
  - intros k c Hk.
    assert (Hc : getdefault (cumulative_counts_per_tax_id t) k = c).
    { unfold getdefault. by rewrite Hk. }
    rewrite <- Hc, Hval.
    destruct (Hkeys k) as [Hex _].
    destruct Hex as [Hemp|(r & Hr & Hpos & l & Hw & Hin)]; [by eexists| |].
    { rewrite lookup_empty in Hemp. by destruct Hemp. }
    rewrite Forall_forall in Hwalks.
    destruct (Hwalks r Hr Hpos) as (l' & Hw' & Hlen).
    rewrite (walk_fun p _ _ _ Hw' Hw) in Hlen.
    unfold count_below. apply (inj_le 1).
    apply (filter_length_pos _ _ (row_tax_id r)).
    + apply list_elem_of_fmap. by exists r.
    + split; [done|]. rewrite (on_chainb_walk fuel p k _ l Hw) by lia.
      by apply bool_decide_eq_true.
Qed.

Lemma cumulative_counts_monotone_witness :
  main_loop 2 demo_parent demo_rank demo_rank demo_reads (Tables ∅ ∅ [])
  = Ok demo_tables ∧
  (∀ k y, k ≠ 1 → demo_parent !! k = Some y →
     getdefault (cumulative_counts_per_tax_id demo_tables) k
     ≤ getdefault (cumulative_counts_per_tax_id demo_tables) y)
  ∧ (∀ k, 0 ≤ getdefault (cumulative_counts_per_tax_id demo_tables) k
          ≤ getdefault (cumulative_counts_per_tax_id demo_tables) 1)
  ∧ getdefault (cumulative_counts_per_tax_id demo_tables) 1
    ≤ Z.of_nat (length demo_reads)
  ∧ (∀ k c, cumulative_counts_per_tax_id demo_tables !! k = Some c → 1 ≤ c).
Proof.
  assert (Hmain :
    main_loop 2 demo_parent demo_rank demo_rank demo_reads (Tables ∅ ∅ [])
    = Ok demo_tables).
  { vm_compute. reflexivity. }
  split; [exact Hmain|].
  exact (cumulative_counts_monotone 2 demo_parent demo_rank demo_rank
           demo_reads demo_tables Hmain).
Defined.

(** ** No reads at all *)

Lemma load_loop_headers lines d :
  Forall is_header lines → load_loop lines d = Ok d.
Proof.
  induction 1 as [|r lines Hr _ IH]; [done|].
  rewrite load_loop_cons. by rewrite decide_True.
Qed.

(** X15: when the classification input holds no record besides header
    lines (an empty input included), a run whose tree loads stops in
    [write_summary] on a division by zero: the total of the per-rank
    counts is 0 when the first percentage is computed. *)
Theorem main_no_reads (fuel : nat) (tree_data : list tree_record)
    (lines : list class_record)
    (res : gmap Z Z * gmap Z string * gmap Z string) :
  load_tax_info fuel tree_data = Ok res → Forall is_header lines →
  main fuel tree_data lines = Raise ZeroDivisionError
  ∧ main_complete fuel tree_data lines = Raise ZeroDivisionError.
Proof.
  intros Htree Hhead. destruct res as [[p rk] sr].
  unfold main, main_complete. rewrite Htree. cbn -[write_summary].
  unfold load_tax_ids_per_read. rewrite (load_loop_headers lines [] Hhead).
  cbn -[write_summary].
  assert (Hws : write_summary 0 ∅ ∅ rk = Raise ZeroDivisionError).
  { unfold write_summary. rewrite map_to_list_empty. cbn -[summary_loop].
    rewrite summary_loop_spec. unfold sum_values. rewrite map_fold_empty.
    by rewrite decide_True. }
  change (Z.of_nat 0) with 0. by rewrite Hws.
Qed.

Lemma main_no_reads_witness :
  load_tax_info 2 demo_tree = Ok (demo_parent, demo_rank, demo_rank) ∧
  Forall is_header [("readID", "seqID", 0)] ∧
  main 2 demo_tree [("readID", "seqID", 0)] = Raise ZeroDivisionError
  ∧ main_complete 2 demo_tree [("readID", "seqID", 0)]
    = Raise ZeroDivisionError.
Proof.
  assert (Htree : load_tax_info 2 demo_tree
                  = Ok (demo_parent, demo_rank, demo_rank)).
  { vm_compute. reflexivity. }
  assert (Hhead : Forall is_header [("readID", "seqID", 0)]).
  { constructor; [reflexivity|constructor]. }
  split; [exact Htree|]. split; [exact Hhead|].
  exact (main_no_reads 2 demo_tree _ _ Htree Hhead).
Defined.

(** ** write_cumulative_count_table *)

Lemma key_le_iff a b :
  key_le a b ↔ a.1 < b.1 ∨ (a.1 = b.1 ∧ a.2 ≤ b.2).
Proof.
  unfold key_le, key_leb.
  rewrite orb_True, andb_True, !Is_true_true.
  rewrite Z.ltb_lt, Z.eqb_eq, Z.leb_le. done.
Qed.

#[local] Instance key_le_total : Total key_le.
Proof. intros a b. rewrite !key_le_iff. lia. Qed.

#[local] Instance key_le_trans : Transitive key_le.
Proof. intros a b c. rewrite !key_le_iff. lia. Qed.

#[local] Instance key_le_antisymm : AntiSymm (=) key_le.
Proof.
  intros [a1 a2] [b1 b2]. rewrite !key_le_iff. simpl. intros H1 H2.
  f_equal; lia.
Qed.

Lemma enumerate_loop_dom n l (d : gmap string Z) r :
  is_Some (enumerate_loop n l d !! r) ↔ r ∈ l ∨ is_Some (d !! r).
Proof.
  revert n d. induction l as [|a l IH]; intros n d; simpl.
  - rewrite elem_of_nil. tauto.
  - rewrite IH, elem_of_cons. destruct (decide (a = r)) as [->|Hne].
    + rewrite lookup_insert_eq. split; [auto|]. intros _. right. by eexists.
    + rewrite lookup_insert_ne by done. split.
      * intros [?|?]; auto.
      * intros [[?|?]|?]; [congruence|auto..].
Qed.

Lemma rank_ordering_dom r :
  is_Some (rank_ordering !! r) ↔ r ∈ rank_ordering_list.
Proof.
  unfold rank_ordering. rewrite enumerate_loop_dom, lookup_empty.
  split; [|by left]. intros [?|[? ?]]; done.
Qed.

#[local] Opaque rank_ordering.

Lemma sort_key_ok rk x k :
  sort_key rk x = Ok k ↔
  ∃ r n, rk !! x = Some r ∧ rank_ordering !! r = Some n ∧ k = (n, x).
Proof.
  unfold sort_key, getitem. destruct (rk !! x) as [r|]; simpl.
  - destruct (rank_ordering !! r) as [n|] eqn:Hn; simpl.
    + split; [intros [= <-]; by exists r, n|].
      intros (r' & n' & [= <-] & Hn' & ->). congruence.
    + split; [done|]. intros (r' & n' & [= <-] & Hn' & _). congruence.
  - split; [done|]. by intros (? & ? & ? & _).
Qed.

Lemma sort_key_outcome rk x :
  (∃ k, sort_key rk x = Ok k) ∨ sort_key rk x = Raise KeyError.
Proof.
  unfold sort_key, getitem. destruct (rk !! x) as [r|]; simpl; [|by right].
  destruct (rank_ordering !! r); simpl; [left; by eexists|by right].
Qed.

Lemma sort_keys_ok rk tax_ids ks :
  sort_keys rk tax_ids = Ok ks ↔
  Forall2 (λ x k, sort_key rk x = Ok k) tax_ids ks.
Proof.
  revert ks. induction tax_ids as [|x tax_ids IH]; intros ks; simpl.
  - split; [intros [= <-]; constructor|]. by intros ->%Forall2_nil_inv_l.
  - split.
    + destruct (sort_key rk x) as [k|e|] eqn:Hk; simpl; [|done..].
      destruct (sort_keys rk tax_ids) as [ks'|e|] eqn:Hks; simpl; [|done..].
      intros [= <-]. constructor; [done|]. by apply IH.
    + intros (k' & ks'' & Hk' & Hall & ->)%Forall2_cons_inv_l.
      apply IH in Hall. rewrite Hk'. simpl. by rewrite Hall.
Qed.

Lemma sort_keys_outcome rk tax_ids :
  (∃ ks, sort_keys rk tax_ids = Ok ks)
  ∨ (sort_keys rk tax_ids = Raise KeyError
     ∧ ∃ x, x ∈ tax_ids ∧ sort_key rk x = Raise KeyError).
Proof.
  induction tax_ids as [|x tax_ids IH]; simpl; [left; by eexists|].
  destruct (sort_key_outcome rk x) as [[k Hk]|Hk]; rewrite Hk; simpl.
  - destruct IH as [[ks ->]|[-> (y & Hy & Hey)]]; simpl.
    + left. by eexists.
    + right. split; [done|]. exists y. split; [by right|done].
  - right. split; [done|]. exists x. split; [left|done].
Qed.

Lemma sort_keys_snd rk tax_ids ks :
  Forall2 (λ x k, sort_key rk x = Ok k) tax_ids ks → ks.*2 = tax_ids.
Proof.
  induction 1 as [|x k tax_ids ks Hk _ IH]; [done|].
  apply sort_key_ok in Hk as (r & n & _ & _ & ->).
  rewrite fmap_cons. simpl. f_equal. exact IH.
Qed.

Lemma count_header_ok rk tax_ids :
  Forall (λ x, is_Some (rk !! x)) tax_ids →
  ∃ header, count_header rk tax_ids = Ok header
    ∧ header.*2 = tax_ids ∧ Forall (λ c, rk !! c.2 = Some c.1) header.
Proof.
  induction 1 as [|x tax_ids [r Hr] _ (header & Hh & Hids & Hall)]; simpl.
  - by exists [].
  - unfold getitem. rewrite Hr. simpl. rewrite Hh. simpl.
    exists ((r, x) :: header). split_and!; [done|by rewrite <- Hids|].
    by constructor.
Qed.

Lemma count_values_spec cum read_count tax_ids :
  count_values cum read_count tax_ids =
  if decide (read_count = 0 ∧ tax_ids ≠ []) then Raise ZeroDivisionError
  else Ok ((λ x, (getdefault cum x, read_count)) <$> tax_ids).
Proof.
  induction tax_ids as [|x tax_ids IH]; simpl.
  - by rewrite decide_False by (by intros [_ ?]).
  - destruct (decide (read_count = 0)) as [->|Hne].
    + by rewrite decide_True.
    + rewrite IH. by rewrite !decide_False by (by intros [? _]).
Qed.

(** What the table writer does, in one statement. *)
Lemma write_cumulative_count_table_spec cum read_count rk :
  (∃ x, is_Some (cum !! x) ∧ sort_key rk x = Raise KeyError
        ∧ write_cumulative_count_table cum read_count rk = Raise KeyError)
  ∨ ∃ ks,
      Forall2 (λ x k, sort_key rk x = Ok k) (ks.*2) ks
      ∧ StronglySorted key_le ks
      ∧ ks.*2 ≡ₚ (map_to_list cum).*1
      ∧ ∃ header,
          header.*2 = ks.*2 ∧ Forall (λ c, rk !! c.2 = Some c.1) header
          ∧ write_cumulative_count_table cum read_count rk =
            if decide (read_count = 0 ∧ ks ≠ []) then Raise ZeroDivisionError
            else Ok (header,
                     (λ x, (getdefault cum x, read_count)) <$> ks.*2).
Proof.
  unfold write_cumulative_count_table, sorted_by_key.
  destruct (sort_keys_outcome rk (map_to_list cum).*1)
    as [[ks Hks]|[Hks (x & Hx & Hex)]].
  - right. rewrite Hks. cbn -[merge_sort].
    apply sort_keys_ok in Hks.
    set (ks' := merge_sort key_le ks).
    assert (Hperm : ks' ≡ₚ ks) by apply merge_sort_Permutation.
    assert (Hkeys : Forall (λ k, sort_key rk k.2 = Ok k) ks).
    { clear -Hks. induction Hks as [|x k l ks Hk _ IH]; constructor; [|done].
      pose proof Hk as (r & n & _ & _ & ->)%sort_key_ok. done. }
    assert (Hkeys' : Forall (λ k, sort_key rk k.2 = Ok k) ks').
    { by rewrite Hperm. }
    exists ks'. split_and!.
    + clear -Hkeys'. induction Hkeys'; constructor; done.
    + apply StronglySorted_merge_sort; apply _.
    + rewrite Hperm. by rewrite (sort_keys_snd _ _ _ Hks).
    + destruct (count_header_ok rk ks'.*2) as (header & Hh & Hids & Hall).
      { apply Forall_fmap. eapply Forall_impl; [exact Hkeys'|].
        intros k (r & n & Hr & _)%sort_key_ok. simpl. by eexists. }
      exists header. split_and!; [done..|].
      rewrite Hh. cbn -[merge_sort]. rewrite count_values_spec.
      destruct (decide (read_count = 0 ∧ ks'.*2 ≠ [])) as [[Hrc Hne]|Hno].
      * rewrite decide_True; [done|]. split; [done|]. by intros ->.
      * rewrite decide_False; [done|]. intros [Hrc Hne]. apply Hno.
        split; [done|]. by destruct ks'.
  - left. exists x. split_and!; [|done|by rewrite Hks].
    apply list_elem_of_fmap in Hx as ([y c] & -> & Hin).
    apply elem_of_map_to_list in Hin. by eexists.
Qed.

Lemma sort_key_key_error rk x :
  sort_key rk x = Raise KeyError ↔
  rk !! x = None ∨ ∃ r, rk !! x = Some r ∧ r ∉ rank_ordering_list.
Proof.
  unfold sort_key, getitem. destruct (rk !! x) as [r|]; simpl.
  - destruct (rank_ordering !! r) as [n|] eqn:Hn; simpl.
    + split; [done|]. intros [?|(r' & [= <-] & Hr)]; [done|].
      exfalso. apply Hr. apply rank_ordering_dom. by eexists.
    + split; [|done]. intros _. right. exists r. split; [done|].
      intros Hr%rank_ordering_dom. rewrite Hn in Hr. by destruct Hr.
  - split; [by left|done].
Qed.

Lemma keys_of_ids rk (ks ks' : list (Z * Z)) :
  Forall (λ k, sort_key rk k.2 = Ok k) ks →
  Forall (λ k, sort_key rk k.2 = Ok k) ks' →
  NoDup ks.*2 → NoDup ks'.*2 → ks.*2 ≡ₚ ks'.*2 → ks ≡ₚ ks'.
Proof.
  intros Hks Hks' Hnd Hnd' Hperm.
  assert (Hin : ∀ (l l' : list (Z * Z)),
    Forall (λ k, sort_key rk k.2 = Ok k) l →
    Forall (λ k, sort_key rk k.2 = Ok k) l' →
    l.*2 ≡ₚ l'.*2 → ∀ k, k ∈ l → k ∈ l').
  { intros l l' Hl Hl' Hp k Hk.
    assert (Hk2 : k.2 ∈ l'.*2).
    { rewrite <- Hp. apply list_elem_of_fmap. by exists k. }
    apply list_elem_of_fmap in Hk2 as (k' & Heq & Hk').
    rewrite Forall_forall in Hl, Hl'.
    pose proof (Hl _ Hk) as H1. pose proof (Hl' _ Hk') as H2.
    rewrite Heq in H1. by assert (k = k') as -> by congruence. }
  apply NoDup_Permutation.
  - by eapply NoDup_fmap_1.
  - by eapply NoDup_fmap_1.
  - intros k. split; by eapply Hin.
Qed.

(** X16: when the table writer returns, its columns are the keys of the
    cumulative table, each once, in increasing order of the pair (index
    of the raw rank in the rank list, taxon ID), and no other ordering of
    those keys is sorted that way; every header cell carries the raw rank
    of its taxon ID, every value cell the count of that taxon ID over the
    read count, and the read count is not 0 unless the table is empty. *)
Theorem write_cumulative_count_table_sorted (cum : gmap Z Z)
    (read_count : Z) (rk : gmap Z string)
    (header : list (string * Z)) (values : list (Z * Z)) :
  write_cumulative_count_table cum read_count rk = Ok (header, values) →
  NoDup header.*2
  ∧ (∀ x, x ∈ header.*2 ↔ is_Some (cum !! x))
  ∧ Forall (λ c, rk !! c.2 = Some c.1) header
  ∧ (∃ ks, Forall2 (λ x k, sort_key rk x = Ok k) header.*2 ks
           ∧ StronglySorted key_le ks)
  ∧ (∀ l ks, l ≡ₚ header.*2 →
       Forall2 (λ x k, sort_key rk x = Ok k) l ks →
       StronglySorted key_le ks → l = header.*2)
  ∧ values = (λ x, (getdefault cum x, read_count)) <$> header.*2
  ∧ (cum ≠ ∅ → read_count ≠ 0).
Proof.
  intros Hw.
  destruct (write_cumulative_count_table_spec cum read_count rk)
    as [(x & _ & _ & He)|(ks & Hks & Hsorted & Hperm & header0 & Hids & Hrk
                          & Heq)]; [congruence|].
  rewrite Hw in Heq.
  destruct (decide (read_count = 0 ∧ ks ≠ [])) as [?|Hno]; [done|].
  injection Heq as -> ->.
  assert (Hnd : NoDup ks.*2).
  { rewrite Hperm. apply NoDup_fst_map_to_list. }
  assert (Hkeys : Forall (λ k, sort_key rk k.2 = Ok k) ks).
  { clear -Hks. remember (ks.*2) as l eqn:Hl. revert Hl.
    induction Hks as [|x k l ks Hk _ IH]; intros Hl; constructor.
    - rewrite fmap_cons in Hl. injection Hl as -> _. done.
    - apply IH. rewrite fmap_cons in Hl. by injection Hl as _ ->. }
  rewrite Hids. split_and!; [done| |done|by exists ks| |done|].
  - intros x. rewrite Hperm. split.
    + intros ([y c] & -> & Hin)%list_elem_of_fmap.
      apply elem_of_map_to_list in Hin. by eexists.
    + intros [c Hc]. apply list_elem_of_fmap. exists (x, c). split; [done|].
      by apply elem_of_map_to_list.
  - intros l ks' Hl Hks' Hsorted'.
    pose proof (sort_keys_snd _ _ _ Hks') as Hsnd.
    assert (Hkeys' : Forall (λ k, sort_key rk k.2 = Ok k) ks').
    { rewrite <- Hsnd in Hks'. clear -Hks'. remember (ks'.*2) as l' eqn:Hl.
      revert Hl. induction Hks' as [|x k l' ks Hk _ IH]; intros Hl;
        constructor.
      - rewrite fmap_cons in Hl. injection Hl as -> _. done.
      - apply IH. rewrite fmap_cons in Hl. by injection Hl as _ ->. }
    assert (Hp : ks' ≡ₚ ks).
    { apply (keys_of_ids rk); [done..| | |].
      - rewrite Hsnd, Hl. done.
      - done.
      - by rewrite Hsnd, Hl. }
    rewrite <- Hsnd. f_equal.
    by apply (StronglySorted_unique key_le).
  - intros Hne Hrc. apply Hno. split; [done|]. intros ->.
    apply Hne. apply map_to_list_empty_iff.
    simpl in Hperm. apply Permutation_nil_l in Hperm. symmetry in Hperm.
    by apply fmap_nil_inv in Hperm.
Qed.

Lemma write_cumulative_count_table_sorted_witness :
  write_cumulative_count_table (cumulative_counts_per_tax_id demo_tables) 2
    demo_rank
  = Ok ([("root", 1); ("genus", 2)], [(1, 2); (1, 2)]) ∧
  NoDup [("root", 1); ("genus", 2)].*2
  ∧ (∀ x, x ∈ [("root", 1); ("genus", 2)].*2 ↔
          is_Some (cumulative_counts_per_tax_id demo_tables !! x))
  ∧ Forall (λ c : string * Z, demo_rank !! c.2 = Some c.1)
      [("root", 1); ("genus", 2)]
  ∧ (∃ ks, Forall2 (λ x k, sort_key demo_rank x = Ok k)
             [("root", 1); ("genus", 2)].*2 ks
           ∧ StronglySorted key_le ks)
  ∧ (∀ l ks, l ≡ₚ [("root", 1); ("genus", 2)].*2 →
       Forall2 (λ x k, sort_key demo_rank x = Ok k) l ks →
       StronglySorted key_le ks → l = [("root", 1); ("genus", 2)].*2)
  ∧ [(1, 2); (1, 2)]
    = (λ x, (getdefault (cumulative_counts_per_tax_id demo_tables) x, 2))
        <$> [("root", 1); ("genus", 2)].*2
  ∧ (cumulative_counts_per_tax_id demo_tables ≠ ∅ → 2 ≠ 0).
Proof.
  assert (Hw :
    write_cumulative_count_table (cumulative_counts_per_tax_id demo_tables) 2
      demo_rank
    = Ok ([("root", 1); ("genus", 2)], [(1, 2); (1, 2)])).
  { vm_compute. reflexivity. }
  split; [exact Hw|].
  exact (write_cumulative_count_table_sorted _ 2 demo_rank _ _ Hw).
Defined.


(** ** The whole run on well-formed inputs *)

Lemma kept_rank_in_list x rank :
  rank ∈ rank_ordering_list → kept_rank x rank ∈ rank_ordering_list.
Proof.
  intros Hr. unfold kept_rank. repeat case_decide; try done.
  apply list_elem_of_here.
Qed.

(** The run up to [write_summary], with what it computed on the way. *)
Lemma main_run_total (tree_data : list tree_record)
    (lines : list class_record) :
  NoDup (tax_ids_of tree_data) → well_formed (parent_loop tree_data ∅) →
  (∀ r, r ∈ lines → ¬ integrity_violation r) →
  (∀ r, r ∈ lines → ¬ is_header r →
     recorded_tax_id r = 0 ∨ recorded_tax_id r ∈ tax_ids_of tree_data) →
  (∃ r, r ∈ lines ∧ ¬ is_header r) →
  ∃ fuel, ∀ fuel', (fuel ≤ fuel')%nat →
    ∃ p rk sr reads t res,
      load_tax_info fuel' tree_data = Ok (p, rk, sr)
      ∧ load_tax_ids_per_read lines = Ok reads
      ∧ main_loop fuel' p rk sr reads (Tables ∅ ∅ []) = Ok t
      ∧ write_summary (Z.of_nat (length reads)) (count_per_rank t)
          (cumulative_counts_per_tax_id t) rk = Ok res
      ∧ Z.of_nat (length reads) ≠ 0
      ∧ (∀ k, is_Some (cumulative_counts_per_tax_id t !! k) →
              k ∈ tax_ids_of tree_data)
      ∧ (∀ x par rank, (x, par, rank) ∈ tree_data →
           rk !! x = Some (kept_rank x rank)).
Proof.
  intros Hnd Hwf Hclean Hids Hsome.
  destruct (well_formed_fuel _ Hwf) as [fuel Hfuel].
  exists fuel. intros fuel' Hle. specialize (Hfuel fuel' Hle).
  pose proof Hwf as [H1 _].
  destruct (load_tax_info_total fuel' tree_data Hnd Hwf Hfuel)
    as (rk & sr & Htree & Hmaps).
  set (p := parent_loop tree_data ∅) in *.
  assert (Hdom : ∀ x, is_Some (p !! x) ↔ x ∈ tax_ids_of tree_data).
  { intros x. unfold p. rewrite parent_loop_dom, lookup_empty.
    split; [|by left]. intros [?|[? ?]]; done. }
  destruct (load_loop_outcome lines []) as [[reads Hreads]|Hraise].
  2:{ apply load_loop_assert in Hraise as (r & Hr & Hv).
      by apply (Hclean r Hr) in Hv. }
  pose proof (load_loop_sets (λ x, x = 0 ∨ is_Some (p !! x)) lines [] reads)
    as Hsets.
  destruct (main_loop_total fuel' p rk sr reads (Tables ∅ ∅ []) H1 Hfuel Hmaps)
    as [t Hmain].
  { apply Hsets; [|constructor|done].
    intros r Hr Hhead. destruct (Hids r Hr Hhead) as [?|?]; [by left|].
    right. by apply Hdom. }
  pose proof (load_tax_info_values _ _ _ _ _ Htree) as Hsr.
  destruct (main_loop_counts _ _ _ _ _ _ _ Hsr Hmain) as [Hsum Hcpr].
  simpl in Hsum, Hcpr. unfold sum_values in Hsum at 2.
  rewrite map_fold_empty in Hsum.
  destruct (load_loop_keys _ _ _ Hreads) as [_ Hkeys]; [apply NoDup_nil_2|].
  assert (Hlen : Z.of_nat (length reads) ≠ 0).
  { destruct Hsome as (r & Hr & Hhead).
    assert (Hin : r.1.1 ∈ reads.*1) by (apply Hkeys; right; by exists r).
    destruct reads; [by apply elem_of_nil in Hin|]. simpl. lia. }
  assert (Hckeys : ∀ k, is_Some (cumulative_counts_per_tax_id t !! k) →
                        is_Some (p !! k)).
  { apply (main_loop_keys _ _ _ _ _ _ _ H1 Hmain).
    intros k'. simpl. rewrite lookup_empty. by intros [? ?]. }
  destruct (write_summary_total (Z.of_nat (length reads)) (count_per_rank t)
              (cumulative_counts_per_tax_id t) rk) as [res Hws].
  - apply Hcpr. intros k. rewrite lookup_empty. by intros [? ?].
  - lia.
  - done.
  - intros k Hk. apply Hmaps. right. by apply Hckeys.
  - exists p, rk, sr, reads, t, res. split_and!; [done..| |].
    + intros k Hk. by apply Hdom, Hckeys.
    + intros x par rank Hin. unfold load_tax_info in Htree.
      destruct (first_pass tree_data _ _) as [[rk1 S1]|e|] eqn:Hfp; [|done..].
      cbn -[first_pass second_pass] in Htree.
      destruct (second_pass fuel' tree_data _ S1) as [sr2|e|]; [|done..].
      cbn in Htree. injection Htree as <- <-.
      by destruct (first_pass_record _ _ _ _ _ _ _ _ Hnd Hin Hfp) as [-> _].
Qed.

Lemma write_cumulative_count_table_total cum read_count rk :
  (∀ x, is_Some (cum !! x) → ∃ r, rk !! x = Some r ∧ r ∈ rank_ordering_list) →
  read_count ≠ 0 →
  ∃ table, write_cumulative_count_table cum read_count rk = Ok table.
Proof.
  intros Hall Hrc.
  destruct (write_cumulative_count_table_spec cum read_count rk)
    as [(x & Hx & Hex & _)|(ks & _ & _ & _ & header & _ & _ & ->)].
  - apply sort_key_key_error in Hex.
    destruct (Hall x Hx) as (r & Hr & Hin).
    destruct Hex as [?|(r' & ? & ?)]; [congruence|].
    by assert (r' = r) as -> by congruence.
  - rewrite decide_False by (by intros [? _]). by eexists.
Qed.

(** X18: the whole run, both writers included, succeeds for every
    sufficient loop bound on tree records with pairwise distinct taxon
    IDs that form a well-formed tree and carry ranks of the rank list,
    and classification records without integrity violation whose
    recorded taxon IDs are 0 or nodes of the tree, at least one of them
    not a header line. *)
Theorem main_complete_total (tree_data : list tree_record)
    (lines : list class_record) :
  NoDup (tax_ids_of tree_data) → well_formed (parent_loop tree_data ∅) →
  (∀ r, r ∈ tree_data → r.2 ∈ rank_ordering_list) →
  (∀ r, r ∈ lines → ¬ integrity_violation r) →
  (∀ r, r ∈ lines → ¬ is_header r →
     recorded_tax_id r = 0 ∨ recorded_tax_id r ∈ tax_ids_of tree_data) →
  (∃ r, r ∈ lines ∧ ¬ is_header r) →
  ∃ fuel, ∀ fuel', (fuel ≤ fuel')%nat →
    ∃ out, main fuel' tree_data lines = Ok out.1
           ∧ main_complete fuel' tree_data lines = Ok out.
Proof.
  intros Hnd Hwf Hranks Hclean Hids Hsome.
  destruct (main_run_total tree_data lines Hnd Hwf Hclean Hids Hsome)
    as [fuel Hrun].
  exists fuel. intros fuel' Hle.
  destruct (Hrun fuel' Hle)
    as (p & rk & sr & reads & t & [rti summary] & Htree & Hreads & Hmain & Hws
        & Hlen & Hckeys & Hrk).
  destruct (write_cumulative_count_table_total
              (cumulative_counts_per_tax_id t) (Z.of_nat (length reads)) rk)
    as [table Htable]; [|done|].
  { intros x Hx.
    apply Hckeys, elem_of_tax_ids_of in Hx as (par & rank & Hin).
    exists (kept_rank x rank). split; [by eapply Hrk|].
    apply kept_rank_in_list. apply (Hranks _ Hin). }
  exists (t, summary, table). unfold main, main_complete.
  rewrite Htree. cbn -[main_loop write_summary write_cumulative_count_table].
  rewrite Hreads. cbn -[main_loop write_summary write_cumulative_count_table].
  rewrite Hmain. cbn -[write_summary write_cumulative_count_table].
  rewrite Hws. cbn -[write_cumulative_count_table]. by rewrite Htable.
Qed.

Lemma main_complete_total_witness :
  NoDup (tax_ids_of demo_tree) ∧ well_formed (parent_loop demo_tree ∅) ∧
  (∀ r, r ∈ demo_tree → r.2 ∈ rank_ordering_list) ∧
  (∀ r, r ∈ demo_lines → ¬ integrity_violation r) ∧
  (∀ r, r ∈ demo_lines → ¬ is_header r →
     recorded_tax_id r = 0 ∨ recorded_tax_id r ∈ tax_ids_of demo_tree) ∧
  (∃ r, r ∈ demo_lines ∧ ¬ is_header r) ∧
  ∃ fuel, ∀ fuel', (fuel ≤ fuel')%nat →
    ∃ out, main fuel' demo_tree demo_lines = Ok out.1
           ∧ main_complete fuel' demo_tree demo_lines = Ok out.
Proof.
  assert (Hnd : NoDup (tax_ids_of demo_tree)).
  { unfold tax_ids_of, demo_tree. simpl.
    repeat (apply NoDup_cons; split;
      [repeat (apply not_elem_of_cons; split; [done|]); apply not_elem_of_nil|]).
    apply NoDup_nil_2. }
  assert (Hwf : well_formed (parent_loop demo_tree ∅)).
  { apply well_formedb_sound. vm_compute. reflexivity. }
  assert (Hranks : ∀ r, r ∈ demo_tree → r.2 ∈ rank_ordering_list).
  { intros r Hr. unfold demo_tree in Hr.
    repeat (apply elem_of_cons in Hr as [->|Hr];
      [apply (bool_decide_unpack _); vm_compute; exact I|]).
    by apply elem_of_nil in Hr. }
  assert (Hclean : ∀ r, r ∈ demo_lines → ¬ integrity_violation r).
  { intros r Hr (Hhead & Hzero & Hun). unfold demo_lines in Hr.
    repeat (apply elem_of_cons in Hr as [->|Hr];
      [by (vm_compute in Hhead, Hzero, Hun)|]).
    by apply elem_of_nil in Hr. }
  assert (Hids : ∀ r, r ∈ demo_lines → ¬ is_header r →
    recorded_tax_id r = 0 ∨ recorded_tax_id r ∈ tax_ids_of demo_tree).
  { intros r Hr Hhead. unfold demo_lines in Hr.
    repeat (apply elem_of_cons in Hr as [->|Hr];
      [first [by (exfalso; apply Hhead) | by left
             | right; unfold tax_ids_of, demo_tree; simpl;
               repeat first [apply list_elem_of_here
                            |apply list_elem_of_further]]|]).
    by apply elem_of_nil in Hr. }
  assert (Hsome : ∃ r, r ∈ demo_lines ∧ ¬ is_header r).
  { exists ("r1", "s3", 3). split; [|done].
    apply list_elem_of_further, list_elem_of_here. }
  split_and!; try assumption.
  exact (main_complete_total demo_tree demo_lines Hnd Hwf Hranks Hclean Hids
           Hsome).
Defined.

(** ** get_compression_type and get_open_func *)

(** X19: the compression sniffing looks at the first byte only, because
    each magic entry is a tuple of one-byte strings and [startswith]
    accepts any member of a tuple: a file is taken for gzip when its
    first byte is 1f, 8b or 08, the run exits for bzip2 on 42, 5a or 68
    and for zip on 50, 4b, 03 or 04 (among them the letters B, Z, h, P
    and K of a plain text file), and every other file, the empty one
    included, is plain; [get_open_func] picks [gzip.open] exactly in the
    first case. *)
Theorem get_compression_type_first_byte (content : list Byte.byte) :
  get_compression_type content = get_compression_type (take 1 content)
  ∧ get_compression_type [] = inr "plain"
  ∧ (∀ b rest,
       get_compression_type (b :: rest) =
       if byte_in b [Byte.x1f; Byte.x8b; Byte.x08] then inr "gz"
       else if byte_in b [Byte.x42; Byte.x5a; Byte.x68] then
         inl "Error: cannot use bzip2 format - use gzip instead"
       else if byte_in b [Byte.x50; Byte.x4b; Byte.x03; Byte.x04] then
         inl "Error: cannot use zip format - use gzip instead"
       else inr "plain")
  ∧ (∀ b rest,
       get_open_func (b :: rest) =
       if byte_in b [Byte.x1f; Byte.x8b; Byte.x08] then inr gzip_open
       else if byte_in b [Byte.x42; Byte.x5a; Byte.x68] then
         inl "Error: cannot use bzip2 format - use gzip instead"
       else if byte_in b [Byte.x50; Byte.x4b; Byte.x03; Byte.x04] then
         inl "Error: cannot use zip format - use gzip instead"
       else inr builtin_open)
  ∧ get_open_func [] = inr builtin_open.
Proof.
  assert (Hfirst : ∀ b rest,
    get_compression_type (b :: rest) = get_compression_type [b]).
  { intros b rest. destruct b; vm_compute; reflexivity. }
  split_and!.
  - destruct content as [|b rest]; [done|]. apply Hfirst.
  - vm_compute. reflexivity.
  - intros b rest. rewrite Hfirst. destruct b; vm_compute; reflexivity.
  - intros b rest. unfold get_open_func. rewrite Hfirst.
    destruct b; vm_compute; reflexivity.
  - vm_compute. reflexivity.
Qed.

Example plain_text_rejected :
  get_compression_type [Byte.x42; Byte.x61; Byte.x63; Byte.x74]
  = inl "Error: cannot use bzip2 format - use gzip instead".
Proof. vm_compute. reflexivity. Qed.

(** ** write_summary: what it returns and how it fails *)

Lemma rank_tax_ids_loop_spec items rk acc :
  (∃ res, rank_tax_ids_loop items rk acc = Ok res
     ∧ (∀ x c, (x, c) ∈ items → c > 0 → is_Some (rk !! x))
     ∧ ∀ rank x, x ∈ default ∅ (res !! rank) ↔
         x ∈ default ∅ (acc !! rank)
         ∨ (rank ∈ ranks ∧ rk !! x = Some rank
            ∧ ∃ c, (x, c) ∈ items ∧ c > 0))
  ∨ (rank_tax_ids_loop items rk acc = Raise KeyError
     ∧ ∃ x c, (x, c) ∈ items ∧ c > 0 ∧ rk !! x = None).
Proof.
  revert acc. induction items as [|[y c] items IH]; intros acc; simpl.
  - left. exists acc. split_and!; [done| |].
    + intros x c Hin. by apply elem_of_nil in Hin.
    + intros rank x. split; [by left|].
      intros [?|(_ & _ & c & Hin & _)]; [done|by apply elem_of_nil in Hin].
  - assert (Hskip : ∀ acc0 : gmap string (gset Z),
      (∀ rank x, x ∈ default ∅ (acc0 !! rank) ↔
         x ∈ default ∅ (acc !! rank)
         ∨ (rank ∈ ranks ∧ rk !! x = Some rank ∧ x = y ∧ c > 0)) →
      (c > 0 → is_Some (rk !! y)) →
      (∃ res, rank_tax_ids_loop items rk acc0 = Ok res
         ∧ (∀ x c', (x, c') ∈ (y, c) :: items → c' > 0 → is_Some (rk !! x))
         ∧ ∀ rank x, x ∈ default ∅ (res !! rank) ↔
             x ∈ default ∅ (acc !! rank)
             ∨ (rank ∈ ranks ∧ rk !! x = Some rank
                ∧ ∃ c', (x, c') ∈ (y, c) :: items ∧ c' > 0))
      ∨ (rank_tax_ids_loop items rk acc0 = Raise KeyError
         ∧ ∃ x c', (x, c') ∈ (y, c) :: items ∧ c' > 0 ∧ rk !! x = None)).
    { intros acc0 Hacc0 Hy.
      destruct (IH acc0) as [(res & -> & Hrk & Hres)|(-> & x & c' & Hin & ? & ?)].
      - left. exists res. split_and!; [done| |].
        + intros x c' [[= -> ->]|Hin]%elem_of_cons; [done|by eapply Hrk].
        + intros rank x. rewrite Hres, Hacc0. split.
          * intros [[?|(? & ? & -> & ?)]|(? & ? & c' & ? & ?)]; [by left| |].
            -- right. split_and!; [done..|]. exists c. split; [left|done].
            -- right. split_and!; [done..|]. exists c'. split; [by right|done].
          * intros [?|(? & ? & c' & [[= -> ->]|?]%elem_of_cons & ?)];
              [by left; left|by left; right|].
            right. split_and!; [done..|]. by exists c'.
      - right. split; [done|]. exists x, c'. split; [by right|done]. }
    destruct (decide (c > 0)) as [Hc|Hc].
    + unfold getitem. destruct (rk !! y) as [r|] eqn:Hr; simpl.
      * destruct (decide (r ∈ ranks)) as [Hin|Hout].
        -- apply Hskip; [|by eexists]. intros rank x.
           destruct (decide (r = rank)) as [->|Hne].
           ++ rewrite lookup_insert_eq. simpl. rewrite elem_of_union,
                elem_of_singleton. split.
              ** intros [->|?]; [by right|by left].
              ** intros [?|(_ & _ & -> & _)]; [by right|by left].
           ++ rewrite lookup_insert_ne by done. split; [by left|].
              intros [?|(_ & Hrx & -> & _)]; [done|congruence].
        -- apply Hskip; [|by eexists]. intros rank x. split; [by left|].
           intros [?|(Hin & Hrx & -> & _)]; [done|]. congruence.
      * right. split; [done|]. exists y, c. split; [left|done].
    + apply Hskip; [|done]. intros rank x. split; [by left|].
      intros [?|(_ & _ & _ & ?)]; done.
Qed.

(** X20: when [write_summary] returns, the counts of the summary line
    are the per-rank counts of the nine ranks in their fixed order (0
    for a rank without entry), their sum is the read count, the total of
    the per-rank table is not 0, and the taxa listed for a rank are
    exactly the taxon IDs with a positive cumulative count whose raw rank
    is that rank, for the nine ranks only. *)
Theorem write_summary_returns (read_count : Z) (cpr : gmap string Z)
    (cum : gmap Z Z) (rk : gmap Z string)
    (rank_tax_ids : gmap string (gset Z)) (summary : list Z) :
  write_summary read_count cpr cum rk = Ok (rank_tax_ids, summary) →
  summary = getdefault cpr <$> ranks
  ∧ read_count = sum_over ranks cpr
  ∧ sum_values cpr ≠ 0
  ∧ (∀ rank x, x ∈ default ∅ (rank_tax_ids !! rank) ↔
       rank ∈ ranks ∧ rk !! x = Some rank ∧ ∃ c, cum !! x = Some c ∧ c > 0).
Proof.
  unfold write_summary.
  destruct (rank_tax_ids_loop_spec (map_to_list cum) rk ∅)
    as [(res & -> & _ & Hres)|(-> & _)]; [|done].
  cbn -[summary_loop]. rewrite summary_loop_spec.
  destruct (decide (sum_values cpr = 0 ∧ ranks ≠ [])) as [?|Hno]; [done|].
  cbn -[sum_over ranks]. unfold assert_that.
  destruct (decide (read_count = 0 + sum_over ranks cpr)) as [Hrc|?]; [|done].
  cbn -[sum_over ranks]. intros [= <- <-]. split_and!; [done| | |].
  - rewrite Hrc. cbn. lia.
  - intros Hz. apply Hno. split; [done|]. discriminate.
  - intros rank x. rewrite Hres, lookup_empty. simpl. split.
    + intros [Hx|(? & ? & c & Hin%elem_of_map_to_list & ?)];
        [by apply not_elem_of_empty in Hx|].
      split_and!; [done..|]. by exists c.
    + intros (? & ? & c & Hc & ?). right. split_and!; [done..|].
      exists c. split; [|done]. by apply elem_of_map_to_list.
Qed.

Lemma write_summary_returns_witness :
  write_summary 2 (count_per_rank demo_tables)
    (cumulative_counts_per_tax_id demo_tables) demo_rank
  = Ok (<["genus" := {[2]}]> (<["root" := {[1]}]> ∅),
        [1; 0; 0; 0; 0; 0; 0; 1; 0]) ∧
  [1; 0; 0; 0; 0; 0; 0; 1; 0]
  = getdefault (count_per_rank demo_tables) <$> ranks
  ∧ 2 = sum_over ranks (count_per_rank demo_tables)
  ∧ sum_values (count_per_rank demo_tables) ≠ 0
  ∧ (∀ rank x,
       x ∈ default ∅ ((<["genus" := {[2]}]> (<["root" := {[1]}]> ∅)
                        : gmap string (gset Z)) !! rank) ↔
       rank ∈ ranks ∧ demo_rank !! x = Some rank
       ∧ ∃ c, cumulative_counts_per_tax_id demo_tables !! x = Some c ∧ c > 0).
Proof.
  assert (Hw :
    write_summary 2 (count_per_rank demo_tables)
      (cumulative_counts_per_tax_id demo_tables) demo_rank
    = Ok (<["genus" := {[2]}]> (<["root" := {[1]}]> ∅),
          [1; 0; 0; 0; 0; 0; 0; 1; 0])).
  { vm_compute. reflexivity. }
  split; [exact Hw|].
  exact (write_summary_returns 2 _ _ demo_rank _ _ Hw).
Defined.

